(** * Failover protocol of the Trader / Seller simulation

    A shallow embedding of [trader.go] and [seller/seller.go], and what
    holds of them.

    Every Go method is written in a small state monad over a [World]: the
    struct that the goroutines of the process share, a logical clock that
    advances at each blocking operation, the goroutine that is running, the
    trace of what has happened so far, and the network.  What the network
    answers to a Dial or a Call, and which remote procedure calls arrive
    while a goroutine is blocked, is read from the [net] component; every
    theorem holds for all of them.  A call that arrives is served to its end,
    in a goroutine of its own, while the goroutine that dials, calls, sleeps
    or waits for its ticker is blocked.  Mutexes are seen in the trace, where
    every [Lock], [Unlock] and access to a field that changes is an event.

    Go's [int] is 64 bits wide and wraps around; an [error] is the text of
    its message, [None] for [nil]; a loop that need not end is run for a
    number of turns that the caller chooses.

    The file has three parts: the programs, the vocabulary in which runs are
    described, and the proofs. *)

From Stdlib Require Import ZArith List String Bool Lia Arith Sorted.
From Stdlib Require Import DecimalString.
Import ListNotations.

Local Open Scope string_scope.
Local Open Scope list_scope.
Local Open Scope Z_scope.

Set Implicit Arguments.

(** * The programs *)

(** ** Go's [int] *)

Module GoInt.

(** [int] is 64 bits wide on the platforms [go run] targets here. *)
Definition int_bits : Z := 64.
Definition max_int : Z := 2 ^ (int_bits - 1) - 1.
Definition min_int : Z := - 2 ^ (int_bits - 1).

(** Signed overflow wraps around in Go. *)
Definition wrap (z : Z) : Z :=
  (z - min_int) mod 2 ^ int_bits + min_int.

(** [x++] *)
Definition incr (z : Z) : Z := wrap (z + 1).

(** The verb [%d] of [fmt]. *)
Definition itoa (z : Z) : string := NilZero.string_of_int (Z.to_int z).

End GoInt.

(** ** Messages (declared identically in both programs) *)

Module Request.
Record t := mk {
  SellerID : Z;
  Post : Z;
  Item : string;
  Quantity : Z;
  RequestID : Z (* Unique ID for each request *)
}.
End Request.

Module Response.
Record t := mk {
  Status : string;
  Message : string;
  RequestID : Z;
  Processed : bool (* Indicates if the request was processed *)
}.

(** The zero value, what [var res Response] declares and what the RPC
    server hands to a handler. *)
Definition zero : t := mk "" "" 0 false.
End Response.

(** ** What a goroutine can be seen doing *)

Inductive Mutex := HeartbeatMu | RequestMu | RequestLock.

(** The fields that are assigned after the struct has been built. *)
Inductive Field := FIsLeader | FHeartbeat | FRequests | FTraderAddr | FRequestID.

Inductive Value :=
| VInt (z : Z)
| VBool (b : bool)
| VString (s : string)
| VRequest (r : Request.t)
| VResponse (r : Response.t).

(** An [*rpc.Client]: the address it was dialled at and the tick of the dial. *)
Record Client := mkClient { c_addr : string; c_tick : nat }.

Inductive Action :=
| Lock (m : Mutex)
| Unlock (m : Mutex)
| Read (f : Field) (v : Value)
| Write (f : Field) (v : Value)
| Dial (addr : string) (err : option string)
| Call (c : Client) (method : string) (arg : Value) (err : option string)
| Close (c : Client)
| Sleep (seconds : Z)
| Log (msg : string).

(** The goroutine started by [main] for the ticker loop, or the one serving
  the [k]-th call that arrived during tick [n]. *)
Inductive Goroutine := GMain | GServe (n k : nat).

Record Event := mkEvent { ev_go : Goroutine; ev_act : Action }.

(** ** The monad *)

Section Runtime.

(** The struct of the process and the calls it serves. *)
Variables (St In : Type).

(** What happens during one blocking operation: the calls that arrive
    meanwhile, whether the operation fails against a given address (with
    the error's text), and what a call that succeeds replies. *)
Record Tick := mkTick {
  incoming : list In;
  fail : string -> option string;
  reply_string : string -> string;
  reply_response : string -> Request.t -> Response.t
}.

Record World := mkWorld {
  mem : St;
  clock : nat;
  cur : Goroutine;
  trace : list Event;
  net : nat -> Tick
}.

Definition M (A : Type) : Type := World -> A * World.

Definition ret {A} (a : A) : M A := fun w => (a, w).

Definition bind {A B} (m : M A) (k : A -> M B) : M B :=
  fun w => k (fst (m w)) (snd (m w)).

(** The world once the running goroutine has done [a]. *)
Definition record (a : Action) (w : World) : World :=
  mkWorld (mem w) (clock w) (cur w) (trace w ++ [mkEvent (cur w) a]) (net w).

Definition emit (a : Action) : M unit := fun w => (tt, record a w).

Definition get_mem : M St := fun w => (mem w, w).

Definition store (s : St) (w : World) : World :=
  mkWorld s (clock w) (cur w) (trace w) (net w).

Definition put_mem (s : St) : M unit := fun w => (tt, store s w).

Definition run_as (g : Goroutine) (w : World) : World :=
  mkWorld (mem w) (clock w) g (trace w) (net w).

Definition set_cur (g : Goroutine) : M unit := fun w => (tt, run_as g w).

Definition get_cur : M Goroutine := fun w => (cur w, w).

Definition get_clock : M nat := fun w => (clock w, w).

(** The handlers of the process's own RPC server. *)
Variable serve : In -> M unit.

(** Each arriving call is served in a goroutine of its own. *)
Fixpoint serve_all (n k : nat) (l : list In) : M unit :=
  match l with
  | [] => ret tt
  | i :: l' =>
      bind get_cur (fun g =>
      bind (set_cur (GServe n k)) (fun _ =>
      bind (serve i) (fun _ =>
      bind (set_cur g) (fun _ =>
      serve_all n (S k) l'))))
  end.

(** A blocking operation: the calls that arrive during it are served, the
    clock advances, and the operation learns its outcome. *)
Definition tick (w : World) : World :=
  mkWorld (mem w) (S (clock w)) (cur w) (trace w) (net w).

Definition block : M Tick := fun w =>
  let t := net w (clock w) in
  (t, tick (snd (serve_all (clock w) 0 (incoming t) w))).

End Runtime.

Arguments ret {St In A} a.
Arguments bind {St In A B} m k.
Arguments emit {St In} a.
Arguments record {St In} a w.
Arguments store {St In} s w.
Arguments get_mem {St In}.
Arguments put_mem {St In} s.
Arguments get_clock {St In}.

Declare Scope go_scope.
Delimit Scope go_scope with go.
Notation "x <- m ;; k" := (bind m (fun x => k))
(at level 61, m at next level, right associativity) : go_scope.
Notation "m ;; k" := (bind m (fun _ => k))
(at level 61, right associativity) : go_scope.
Local Open Scope go_scope.

Section Primitives.

Variables (St In : Type).
Variable serve : In -> M St In unit.

(** [rpc.Dial("tcp", addr)] *)
Definition rpcDial (addr : string) : M St In (string + Client) :=
  now <- get_clock ;;
  t <- block serve ;;
  match fail t addr with
  | Some e => emit (Dial addr (Some e)) ;; ret (inl e)
  | None => emit (Dial addr None) ;; ret (inr (mkClient addr now))
  end.

(** [client.Call(method, arg, &reply)]: the error, and what the callee
    replied when there is none. *)
Definition rpcCall (c : Client) (method : string) (arg : Value)
  : M St In (string + Tick In) :=
  t <- block serve ;;
  match fail t (c_addr c) with
  | Some e => emit (Call c method arg (Some e)) ;; ret (inl e)
  | None => emit (Call c method arg None) ;; ret (inr t)
  end.

(** [time.Sleep(d * time.Second)] in the ticker goroutine. *)
Definition timeSleep (d : Z) : M St In unit :=
  block serve ;; emit (Sleep d).

(** [log.Printf] *)
Definition logPrintf (msg : string) : M St In unit := emit (Log msg).

(** The deferred [client.Close()] calls run last in, first out when the
    function returns; [ds] holds the most recent first. *)
Fixpoint run_defers (ds : list Client) : M St In unit :=
  match ds with
  | [] => ret tt
  | c :: ds' => emit (Close c) ;; run_defers ds'
  end.

End Primitives.

Import GoInt.

(** ** trader.go *)

Module Trader.

Record Trader := mkTrader {
  ID : Z;
  Address : string;
  Peer : string;
  Post : Z;
  IsLeader : bool;
  Heartbeat : bool;   (* guarded by HeartbeatMu *)
  Requests : list Request.t   (* guarded by RequestMu *)
}.

(** The methods that [rpc.Register] exports and that peers and sellers
    call. *)
Inductive Incoming :=
| InReceiveHeartbeat (req : Z)
| InReceiveRequest (req : Request.t).

Definition M := M Trader Incoming.

(** Field accesses.  [ID], [Address], [Peer] and [Post] never change once
    [main] has built the struct. *)
Definition getID : M Z := t <- get_mem ;; ret (ID t).
Definition getAddress : M string := t <- get_mem ;; ret (Address t).
Definition getPeer : M string := t <- get_mem ;; ret (Peer t).

Definition setIsLeader (b : bool) : M unit :=
  t <- get_mem ;;
  put_mem (mkTrader (ID t) (Address t) (Peer t) (Post t) b (Heartbeat t) (Requests t)) ;;
  emit (Write FIsLeader (VBool b)).

Definition setHeartbeat (b : bool) : M unit :=
  t <- get_mem ;;
  put_mem (mkTrader (ID t) (Address t) (Peer t) (Post t) (IsLeader t) b (Requests t)) ;;
  emit (Write FHeartbeat (VBool b)).

(** ReceiveHeartbeat handles heartbeat messages from the peer Trader.
    The pair is what [*reply] holds on return and the returned error
    ([None] is [nil]). *)
Definition ReceiveHeartbeat (req : Z) : M (string * option string) :=
  emit (Lock HeartbeatMu) ;;
  setHeartbeat true ;;
  emit (Unlock HeartbeatMu) ;;
  id <- getID ;;
  logPrintf ("Trader " ++ itoa id ++ ": Received heartbeat from Trader " ++ itoa req) ;;
  ret ("Alive", None).

(** ReceiveRequest handles requests from Sellers.  [res] is the struct the
    caller's pointer refers to; every field of it is assigned. *)
Definition ReceiveRequest (req : Request.t) (res : Response.t)
  : M (Response.t * option string) :=
  id <- getID ;;
  logPrintf ("Trader " ++ itoa id ++ ": Received request " ++ itoa (Request.RequestID req)
             ++ " from Seller " ++ itoa (Request.SellerID req)
             ++ " for " ++ itoa (Request.Quantity req) ++ " " ++ Request.Item req
             ++ " in Post " ++ itoa (Request.Post req)) ;;
  (* Simulate request processing; calls that arrive meanwhile are served
     in goroutines of their own, after this one in the trace *)
  emit (Sleep 2) ;;
  let res := Response.mk (Response.Status res) (Response.Message res)
               (Request.RequestID req) (Response.Processed res) in
  let res := Response.mk "Success" (Response.Message res)
               (Response.RequestID res) (Response.Processed res) in
  let res := Response.mk (Response.Status res)
               ("Processed request " ++ itoa (Request.RequestID req) ++ ": "
                ++ itoa (Request.Quantity req) ++ " " ++ Request.Item req
                ++ " from Seller " ++ itoa (Request.SellerID req))
               (Response.RequestID res) (Response.Processed res) in
  let res := Response.mk (Response.Status res) (Response.Message res)
               (Response.RequestID res) true in
  ret (res, None).

(** What [rpc.ServeConn] does with a call that arrives. *)
Definition serve (i : Incoming) : M unit :=
  match i with
  | InReceiveHeartbeat req => ReceiveHeartbeat req ;; ret tt
  | InReceiveRequest req => ReceiveRequest req Response.zero ;; ret tt
  end.

(** Simulate a list of seller addresses *)
Definition sellerAddresses : list string := ["localhost:8003"; "localhost:8004"].

(** The [for _, sellerAddr := range sellerAddresses] loop of NotifySellers;
    [defers] are the clients whose [Close] has been deferred so far. *)
Fixpoint NotifySellers_range (newLeaderAddr : string) (addrs : list string)
    (defers : list Client) : M (list Client) :=
  match addrs with
  | [] => ret defers
  | sellerAddr :: rest =>
      r <- rpcDial serve sellerAddr ;;
      match r with
      | inl err =>
          id <- getID ;;
          logPrintf ("Trader " ++ itoa id ++ ": Failed to notify Seller at "
                     ++ sellerAddr ++ ": " ++ err) ;;
          NotifySellers_range newLeaderAddr rest defers
      | inr client =>
          r' <- rpcCall serve client "Seller.UpdateLeader" (VString newLeaderAddr) ;;
          match r' with
          | inl err =>
              id <- getID ;;
              logPrintf ("Trader " ++ itoa id ++ ": Failed to notify Seller at "
                         ++ sellerAddr ++ ": " ++ err) ;;
              NotifySellers_range newLeaderAddr rest (client :: defers)
          | inr _ =>
              id <- getID ;;
              logPrintf ("Trader " ++ itoa id ++ ": Notified Seller at " ++ sellerAddr
                         ++ " about new leader " ++ newLeaderAddr) ;;
              NotifySellers_range newLeaderAddr rest (client :: defers)
          end
      end
  end.

(** NotifySellers informs all Sellers to communicate with the new leader *)
Definition NotifySellers (newLeaderAddr : string) : M unit :=
  defers <- NotifySellers_range newLeaderAddr sellerAddresses [] ;;
  run_defers defers.

(** TakeOverLeadership promotes the Trader as the leader for all posts and
    informs Sellers *)
Definition TakeOverLeadership : M unit :=
  setIsLeader true ;;
  id <- getID ;;
  logPrintf ("Trader " ++ itoa id ++ ": Taking over all posts as the sole leader.") ;;
  addr <- getAddress ;;
  NotifySellers addr.

(** SendHeartbeat sends heartbeat messages to the peer Trader *)
Definition SendHeartbeat : M unit :=
  peer <- getPeer ;;
  r <- rpcDial serve peer ;;
  match r with
  | inl err =>
      id <- getID ;; peer <- getPeer ;;
      logPrintf ("Trader " ++ itoa id ++ ": Failed to connect to peer Trader at "
                 ++ peer ++ ". Assuming failure.") ;;
      TakeOverLeadership
  | inr client =>
      id <- getID ;;
      r' <- rpcCall serve client "Trader.ReceiveHeartbeat" (VInt id) ;;
      match r' with
      | inl err =>
          id <- getID ;;
          logPrintf ("Trader " ++ itoa id ++ ": Failed to send heartbeat: " ++ err) ;;
          TakeOverLeadership ;;
          run_defers [client]
      | inr _ =>
          id <- getID ;; peer <- getPeer ;;
          logPrintf ("Trader " ++ itoa id ++ ": Heartbeat acknowledged by peer " ++ peer) ;;
          run_defers [client]
      end
  end.

(** StartHeartbeat sends periodic heartbeat messages to the peer Trader;
    [ticks] is how many times the ticker fires while the process is
    observed. *)
Fixpoint StartHeartbeat (ticks : nat) : M unit :=
  match ticks with
  | O => ret tt
  | S ticks' => block serve ;; SendHeartbeat ;; StartHeartbeat ticks'
  end.

(** ForwardRequest forwards the request to the peer Trader *)
Definition ForwardRequest (req : Request.t) : M unit :=
  peer <- getPeer ;;
  r <- rpcDial serve peer ;;
  match r with
  | inl err =>
      id <- getID ;; peer <- getPeer ;;
      logPrintf ("Trader " ++ itoa id ++ ": Failed to connect to peer Trader at "
                 ++ peer ++ " to forward request.")
  | inr client =>
      r' <- rpcCall serve client "Trader.ReceiveRequest" (VRequest req) ;;
      match r' with
      | inl err =>
          id <- getID ;;
          logPrintf ("Trader " ++ itoa id ++ ": Failed to forward request: " ++ err) ;;
          run_defers [client]
      | inr _ =>
          id <- getID ;; peer <- getPeer ;;
          logPrintf ("Trader " ++ itoa id ++ ": Request forwarded successfully to Trader "
                     ++ peer) ;;
          run_defers [client]
      end
  end.

(** SendResponse sends a response back to the Seller *)
Definition SendResponse (sellerAddr : string) (res : Response.t) : M unit :=
  r <- rpcDial serve sellerAddr ;;
  match r with
  | inl err =>
      id <- getID ;;
      logPrintf ("Trader " ++ itoa id ++ ": Failed to connect to Seller at "
                 ++ sellerAddr ++ ": " ++ err)
  | inr client =>
      r' <- rpcCall serve client "Seller.ReceiveResponse" (VResponse res) ;;
      match r' with
      | inl err =>
          id <- getID ;;
          logPrintf ("Trader " ++ itoa id ++ ": Failed to send response to Seller at "
                     ++ sellerAddr ++ ": " ++ err) ;;
          run_defers [client]
      | inr _ =>
          id <- getID ;;
          logPrintf ("Trader " ++ itoa id ++ ": Response sent to Seller at " ++ sellerAddr) ;;
          run_defers [client]
      end
  end.

(** The command line of [main]. *)
Record Flags := mkFlags {
  flag_id : Z;
  flag_address : string;
  flag_peer : string;
  flag_post : Z
}.

(** What [flag.Int] and [flag.String] yield for a flag that is not given. *)
Definition defaultFlags : Flags := mkFlags 0 "" "" 0.

(** [main] up to the point where it starts the goroutines: [None] is
    [log.Fatal], otherwise the Trader that the server and the heartbeat
    loop share. *)
Definition main (f : Flags) : option Trader :=
  if (flag_id f =? 0) || (flag_address f =? "")%string
     || (flag_peer f =? "")%string || (flag_post f =? 0)
  then None
  else Some (mkTrader (flag_id f) (flag_address f) (flag_peer f) (flag_post f)
               (flag_id f =? 1) (* Assume Trader 1 starts as the leader *)
               false []).

(** The world in which the goroutines of [main] start. *)
Definition boot (t : Trader) (network : nat -> Tick Incoming) : World Trader Incoming :=
  mkWorld t 0 GMain [] network.

End Trader.

(** ** seller/seller.go *)

Module Seller.

Record Seller := mkSeller {
  ID : Z;
  Address : string;
  TraderAddr : string;
  Post : Z;
  RequestID : Z   (* RequestLock is taken around its increment *)
}.

(** The one method that [rpc.Register] exports. *)
Inductive Incoming := InUpdateLeader (newLeaderAddr : string).

Definition M := M Seller Incoming.

Definition getID : M Z := s <- get_mem ;; ret (ID s).
Definition getPost : M Z := s <- get_mem ;; ret (Post s).

Definition readTraderAddr : M string :=
  s <- get_mem ;; emit (Read FTraderAddr (VString (TraderAddr s))) ;; ret (TraderAddr s).

Definition writeTraderAddr (a : string) : M unit :=
  s <- get_mem ;;
  put_mem (mkSeller (ID s) (Address s) a (Post s) (RequestID s)) ;;
  emit (Write FTraderAddr (VString a)).

Definition readRequestID : M Z :=
  s <- get_mem ;; emit (Read FRequestID (VInt (RequestID s))) ;; ret (RequestID s).

Definition writeRequestID (n : Z) : M unit :=
  s <- get_mem ;;
  put_mem (mkSeller (ID s) (Address s) (TraderAddr s) (Post s) n) ;;
  emit (Write FRequestID (VInt n)).

(** UpdateLeader updates the Seller's Trader address after failover.  The
    pair is what [*reply] holds on return and the returned error. *)
Definition UpdateLeader (newLeaderAddr : string) : M (string * option string) :=
  id <- getID ;;
  logPrintf ("Seller " ++ itoa id ++ ": Updating Trader to new leader at " ++ newLeaderAddr) ;;
  writeTraderAddr newLeaderAddr ;; (* Update Trader address *)
  ret ("Leader updated successfully", None).

Definition serve (i : Incoming) : M unit :=
  match i with
  | InUpdateLeader a => UpdateLeader a ;; ret tt
  end.

(** One turn of the [for] loop of SendRequest: [inl c] when the turn ends
    in [break], [inr c] when the loop goes round again; [c] is the client
    whose [Close] the turn deferred, if it dialled one. *)
Definition SendRequest_turn (req : Request.t) (reqID : Z)
  : M (option Client + option Client) :=
  addr <- readTraderAddr ;;
  r <- rpcDial serve addr ;;
  match r with
  | inl err =>
      id <- getID ;; addr <- readTraderAddr ;;
      logPrintf ("Seller " ++ itoa id ++ ": Failed to connect to Trader at " ++ addr
                 ++ ". Retrying...") ;;
      timeSleep serve 5 ;; (* Retry after a delay *)
      ret (inr None)
  | inr client =>
      r' <- rpcCall serve client "Trader.ReceiveRequest" (VRequest req) ;;
      match r' with
      | inl err =>
          id <- getID ;;
          logPrintf ("Seller " ++ itoa id ++ ": Error sending request: " ++ err
                     ++ ". Retrying...") ;;
          timeSleep serve 5 ;; (* Retry after a delay *)
          ret (inr (Some client))
      | inr t =>
          let res := reply_response t (c_addr client) req in
          if Response.Processed res && (Response.RequestID res =? reqID) then
            id <- getID ;;
            logPrintf ("Seller " ++ itoa id ++ ": Request " ++ itoa reqID
                       ++ " processed successfully by Trader") ;;
            ret (inl (Some client))
          else
            id <- getID ;;
            logPrintf ("Seller " ++ itoa id ++ ": Trader response indicates request "
                       ++ itoa reqID ++ " not processed. Retrying...") ;;
            timeSleep serve 5 ;; (* Retry after a delay *)
            ret (inr (Some client))
      end
  end.

Definition defer (c : option Client) (defers : list Client) : list Client :=
  match c with
  | Some c => c :: defers
  | None => defers
  end.

(** The [for] loop, for at most [turns] turns: [Some] of the deferred
    clients when it has left through [break], [None] when it is still going
    round. *)
Fixpoint SendRequest_for (turns : nat) (req : Request.t) (reqID : Z)
    (defers : list Client) : M (option (list Client)) :=
  match turns with
  | O => ret None
  | S turns' =>
      r <- SendRequest_turn req reqID ;;
      match r with
      | inl c => ret (Some (defer c defers))
      | inr c => SendRequest_for turns' req reqID (defer c defers)
      end
  end.

(** SendRequest sends incremental requests to the Trader.  [Some tt] when
    it returns within [turns] turns of its loop. *)
Definition SendRequest (turns : nat) : M (option unit) :=
  emit (Lock RequestLock) ;;
  n <- readRequestID ;;
  writeRequestID (incr n) ;; (* Increment request ID for each new request *)
  reqID <- readRequestID ;;
  emit (Unlock RequestLock) ;;
  id <- getID ;; post <- getPost ;;
  let req := Request.mk id post "apples" 10 reqID in
  r <- SendRequest_for turns req reqID [] ;;
  match r with
  | Some defers => run_defers defers ;; ret (Some tt)
  | None => ret None
  end.

Record Flags := mkFlags {
  flag_id : Z;
  flag_address : string;
  flag_trader : string;
  flag_post : Z
}.

(** The Seller that [main] builds, [None] when it stops at [log.Fatal]. *)
Definition main (f : Flags) : option Seller :=
  if (flag_id f =? 0) || (flag_address f =? "")%string
     || (flag_trader f =? "")%string || (flag_post f =? 0)
  then None
  else Some (mkSeller (flag_id f) (flag_address f) (flag_trader f) (flag_post f) 0).

(** [for range ticker.C { seller.SendRequest() }]: one invocation per
    element of [turns], which bounds the turns of each one's loop.  An
    invocation that does not return holds the goroutine, and no later one
    starts. *)
Fixpoint main_range (turns : list nat) : M unit :=
  match turns with
  | [] => ret tt
  | n :: rest =>
      block serve ;;
      r <- SendRequest n ;;
      match r with
      | Some _ => main_range rest
      | None => ret tt
      end
  end.

Definition boot (s : Seller) (network : nat -> Tick Incoming) : World Seller Incoming :=
  mkWorld s 0 GMain [] network.

End Seller.

(** * What is said about a run *)

(** ** Projections of a trace *)

(** The addresses dialled, in the order of the attempts. *)
Fixpoint dialed (es : list Event) : list string :=
  match es with
  | [] => []
  | e :: es' =>
      match ev_act e with
      | Dial a _ => a :: dialed es'
      | _ => dialed es'
      end
  end.

(** The addresses at which a connection was obtained. *)
Fixpoint connected (es : list Event) : list string :=
  match es with
  | [] => []
  | e :: es' =>
      match ev_act e with
      | Dial a None => a :: connected es'
      | _ => connected es'
      end
  end.

(** The calls made: the address of the callee, the method and the argument. *)
Fixpoint called (es : list Event) : list (string * string * Value) :=
  match es with
  | [] => []
  | e :: es' =>
      match ev_act e with
      | Call c m v _ => (c_addr c, m, v) :: called es'
      | _ => called es'
      end
  end.

(** The durations slept, in seconds. *)
Fixpoint slept (es : list Event) : list Z :=
  match es with
  | [] => []
  | e :: es' =>
      match ev_act e with
      | Sleep d => d :: slept es'
      | _ => slept es'
      end
  end.

Definition field_eqb (f g : Field) : bool :=
  match f, g with
  | FIsLeader, FIsLeader | FHeartbeat, FHeartbeat | FRequests, FRequests
  | FTraderAddr, FTraderAddr | FRequestID, FRequestID => true
  | _, _ => false
  end.

(** The values assigned to a field, in the order of the assignments. *)
Fixpoint written (f : Field) (es : list Event) : list Value :=
  match es with
  | [] => []
  | e :: es' =>
      match ev_act e with
      | Write g v => if field_eqb f g then v :: written f es' else written f es'
      | _ => written f es'
      end
  end.

(** The integers among the values. *)
Definition ints (vs : list Value) : list Z :=
  flat_map (fun v => match v with VInt z => [z] | _ => [] end) vs.

(** The sequence numbers allocated: the integers assigned to [RequestID]. *)
Definition allocations (es : list Event) : list Z := ints (written FRequestID es).

(** The sequence numbers that the requests sent carry, in the order of the
    calls. *)
Definition numbers (es : list Event) : list Z :=
  flat_map (fun c => match snd c with
                     | VRequest r => [Request.RequestID r]
                     | _ => []
                     end) (called es).

(** An action that uses the network. *)
Definition networked (a : Action) : Prop :=
  match a with
  | Dial _ _ | Call _ _ _ _ | Close _ => True
  | _ => False
  end.

Definition local (a : Action) : Prop := ~ networked a.

(** ** What the served calls may do *)

Section Handling.

Variables (St In : Type).
Variable serve : In -> M St In unit.

(** [R] bounds what a handler does to the struct, [Q] which actions it
    performs. *)
Variable R : St -> St -> Prop.
Variable Q : Action -> Prop.

(** A handler returns without blocking the process, as the goroutine it
    was started in, having touched the struct within [R] and added actions
    within [Q] to the trace. *)
Record handled (w w' : World St In) : Prop := mkHandled {
  h_clock : clock w' = clock w;
  h_net : net w' = net w;
  h_cur : cur w' = cur w;
  h_mem : R (mem w) (mem w');
  h_trace : exists es, trace w' = trace w ++ es /\ Forall (fun e => Q (ev_act e)) es
}.

(** The events of the calls served while the goroutine of [w] is blocked. *)
Definition arrivals (w : World St In) : list Event :=
  skipn (List.length (trace w)) (trace (snd (block serve w))).

End Handling.

(** ** Mutual exclusion *)

Module Locking.

Definition goroutine_eqb (g h : Goroutine) : bool :=
  match g, h with
  | GMain, GMain => true
  | GServe n k, GServe n' k' => Nat.eqb n n' && Nat.eqb k k'
  | _, _ => false
  end.

Definition mutex_eqb (m m' : Mutex) : bool :=
  match m, m' with
  | HeartbeatMu, HeartbeatMu | RequestMu, RequestMu | RequestLock, RequestLock => true
  | _, _ => false
  end.

(** The goroutine [g] holds one of the mutexes in [held]. *)
Definition holds (g : Goroutine) (held : list (Goroutine * Mutex)) : bool :=
  existsb (fun p => goroutine_eqb (fst p) g) held.

Fixpoint release (g : Goroutine) (m : Mutex) (held : list (Goroutine * Mutex))
  : list (Goroutine * Mutex) :=
  match held with
  | [] => []
  | p :: held' =>
      if goroutine_eqb (fst p) g && mutex_eqb (snd p) m then held'
      else p :: release g m held'
  end.

(** The reads and writes of fields that a goroutine performs while it holds no
    mutex. *)
Fixpoint unguarded (held : list (Goroutine * Mutex)) (es : list Event) : list Event :=
  match es with
  | [] => []
  | e :: es' =>
      match ev_act e with
      | Lock m => unguarded ((ev_go e, m) :: held) es'
      | Unlock m => unguarded (release (ev_go e) m held) es'
      | Read _ _ | Write _ _ =>
          if holds (ev_go e) held then unguarded held es'
          else e :: unguarded held es'
      | _ => unguarded held es'
      end
  end.

End Locking.

(** ** The Trader's runs *)

Module TraderSpec.
Import Trader.

(** What a served call may do to the Trader: set [Heartbeat]. *)
Definition only_heartbeat (t t' : Trader) : Prop :=
  ID t' = ID t /\ Address t' = Address t /\ Peer t' = Peer t /\ Post t' = Post t /\
  IsLeader t' = IsLeader t /\ Requests t' = Requests t.

(** What a served call may be seen doing. *)
Definition serving (a : Action) : Prop :=
  match a with
  | Lock HeartbeatMu | Unlock HeartbeatMu | Write FHeartbeat _ | Log _ | Sleep _ => True
  | _ => False
  end.

(** What no method of the Trader changes. *)
Definition steady (t t' : Trader) : Prop :=
  ID t' = ID t /\ Address t' = Address t /\ Peer t' = Peer t /\ Post t' = Post t /\
  Requests t' = Requests t.

(** The log entries of NotifySellers and TakeOverLeadership. *)
Definition failed_to_notify (id : Z) (sellerAddr err : string) : string :=
  "Trader " ++ itoa id ++ ": Failed to notify Seller at " ++ sellerAddr ++ ": " ++ err.

Definition notified (id : Z) (sellerAddr newLeaderAddr : string) : string :=
  "Trader " ++ itoa id ++ ": Notified Seller at " ++ sellerAddr
  ++ " about new leader " ++ newLeaderAddr.

Definition taking_over (id : Z) : string :=
  "Trader " ++ itoa id ++ ": Taking over all posts as the sole leader.".

(** The runs of the notification loop by goroutine [g] of Trader [id] over a
    roster: the events, and the clients left open, in the order they were
    dialled.  [hs] are the events of calls served meanwhile.  A connection or
    a call that fails is followed by its log entry, and then by the run over
    the rest of the roster. *)
Inductive notifies (g : Goroutine) (id : Z) (leader : string)
  : list string -> list Event -> list Client -> Prop :=
| notifies_end : notifies g id leader [] [] []
| notifies_unreachable addr rest hs err es cs :
    Forall (fun e => serving (ev_act e)) hs ->
    notifies g id leader rest es cs ->
    notifies g id leader (addr :: rest)
      (hs ++ mkEvent g (Dial addr (Some err))
          :: mkEvent g (Log (failed_to_notify id addr err)) :: es) cs
| notifies_call_failed addr rest hs hs' c err es cs :
    Forall (fun e => serving (ev_act e)) hs ->
    Forall (fun e => serving (ev_act e)) hs' ->
    c_addr c = addr ->
    notifies g id leader rest es cs ->
    notifies g id leader (addr :: rest)
      (hs ++ mkEvent g (Dial addr None)
          :: hs' ++ mkEvent g (Call c "Seller.UpdateLeader" (VString leader) (Some err))
          :: mkEvent g (Log (failed_to_notify id addr err)) :: es) (c :: cs)
| notifies_delivered addr rest hs hs' c es cs :
    Forall (fun e => serving (ev_act e)) hs ->
    Forall (fun e => serving (ev_act e)) hs' ->
    c_addr c = addr ->
    notifies g id leader rest es cs ->
    notifies g id leader (addr :: rest)
      (hs ++ mkEvent g (Dial addr None)
          :: hs' ++ mkEvent g (Call c "Seller.UpdateLeader" (VString leader) None)
          :: mkEvent g (Log (notified id addr leader)) :: es) (c :: cs).

(** The heartbeat that starts in [w] finds no connection to the peer. *)
Definition connection_fails (w : World Trader Incoming) : Prop :=
  fail (net w (clock w)) (Peer (mem w)) <> None.

(** It finds one, and the call over it fails. *)
Definition call_fails (w : World Trader Incoming) : Prop :=
  fail (net w (clock w)) (Peer (mem w)) = None /\
  fail (net w (S (clock w))) (Peer (mem w)) <> None.

(** Everything a Trader process does. *)
Inductive Operation :=
| OpReceiveHeartbeat (req : Z)
| OpReceiveRequest (req : Request.t) (res : Response.t)
| OpSendHeartbeat
| OpStartHeartbeat (ticks : nat)
| OpTakeOverLeadership
| OpNotifySellers (newLeaderAddr : string)
| OpForwardRequest (req : Request.t)
| OpSendResponse (sellerAddr : string) (res : Response.t).

Definition perform (op : Operation) : M unit :=
  match op with
  | OpReceiveHeartbeat req => ReceiveHeartbeat req ;; ret tt
  | OpReceiveRequest req res => ReceiveRequest req res ;; ret tt
  | OpSendHeartbeat => SendHeartbeat
  | OpStartHeartbeat ticks => StartHeartbeat ticks
  | OpTakeOverLeadership => TakeOverLeadership
  | OpNotifySellers a => NotifySellers a
  | OpForwardRequest req => ForwardRequest req
  | OpSendResponse a res => SendResponse a res
  end.

(** *** The processes of [run.sh] *)

Definition flags1 : Flags := mkFlags 1 "localhost:8001" "localhost:8002" 1.
Definition flags2 : Flags := mkFlags 2 "localhost:8002" "localhost:8001" 2.

(** Trader 1 as [main] builds it. *)
Definition trader1 : Trader := mkTrader 1 "localhost:8001" "localhost:8002" 1 true false [].

(** Trader 2, no leader, which has just heard from its peer. *)
Definition trader2 : Trader := mkTrader 2 "localhost:8002" "localhost:8001" 2 false true [].

(** The first request of Seller 1. *)
Definition apples : Request.t := Request.mk 1 1 "apples" 10 1.

(** A network on which nothing fails and nothing arrives. *)
Definition quiet_network : nat -> Tick Incoming :=
  fun _ => mkTick [] (fun _ => None) (fun _ => "") (fun _ _ => Response.zero).

(** A network on which the seller at port 8003 is down. *)
Definition seller3_down : nat -> Tick Incoming :=
  fun _ =>
    mkTick []
      (fun a => if (a =? "localhost:8003")%string then Some "connection refused" else None)
      (fun _ => "") (fun _ _ => Response.zero).

(** A network on which Trader 1 has gone and the sellers are up. *)
Definition peer_gone : nat -> Tick Incoming :=
  fun _ =>
    mkTick []
      (fun a => if (a =? "localhost:8001")%string then Some "connection refused" else None)
      (fun _ => "") (fun _ _ => Response.zero).

End TraderSpec.

(** ** The Seller's runs *)

Module SellerSpec.
Import Seller.

(** What a served call may do to the Seller: set [TraderAddr]. *)
Definition only_leader (s s' : Seller) : Prop :=
  ID s' = ID s /\ Address s' = Address s /\ Post s' = Post s /\ RequestID s' = RequestID s.

(** What a served call may be seen doing. *)
Definition updating (a : Action) : Prop :=
  match a with
  | Log _ | Write FTraderAddr _ => True
  | _ => False
  end.

(** The goroutine of [w] blocks for one tick and resumes in [w1]; [hs] are the
    events of the calls served meanwhile. *)
Record blocks (w w1 : World Seller Incoming) (hs : list Event) : Prop := mkBlocks {
  b_trace : trace w1 = trace w ++ hs;
  b_clock : clock w1 = S (clock w);
  b_net : net w1 = net w;
  b_cur : cur w1 = cur w;
  b_mem : only_leader (mem w) (mem w1);
  b_quiet : Forall (fun e => updating (ev_act e)) hs;
  b_last : forall ups a,
    incoming (net w (clock w)) = ups ++ [InUpdateLeader a] -> TraderAddr (mem w1) = a
}.

(** The attempt that starts in [w] is acknowledged: the connection is
    obtained, the call completes, and the response is processed and echoes
    the sequence number. *)
Definition acknowledged (req : Request.t) (reqID : Z) (w : World Seller Incoming) : bool :=
  let addr := TraderAddr (mem w) in
  match fail (net w (clock w)) addr, fail (net w (S (clock w))) addr with
  | None, None =>
      let res := reply_response (net w (S (clock w))) addr req in
      Response.Processed res && (Response.RequestID res =? reqID)
  | _, _ => false
  end.

(** The tick during which the attempt that starts in [w] backs off. *)
Definition backoff_tick (w : World Seller Incoming) : nat :=
  match fail (net w (clock w)) (TraderAddr (mem w)) with
  | Some _ => S (clock w)
  | None => S (S (clock w))
  end.

(** The world in which the attempt after [k] unacknowledged ones starts. *)
Fixpoint after_turns (k : nat) (req : Request.t) (reqID : Z)
    (w : World Seller Incoming) : World Seller Incoming :=
  match k with
  | O => w
  | S k' => after_turns k' req reqID (snd (SendRequest_turn req reqID w))
  end.

(** The sequence number that an invocation of SendRequest in [w] allocates. *)
Definition allocated (w : World Seller Incoming) : Z := incr (RequestID (mem w)).

(** The request that it builds. *)
Definition request_of (w : World Seller Incoming) : Request.t :=
  Request.mk (ID (mem w)) (Post (mem w)) "apples" 10 (allocated w).

(** The world in which its loop starts. *)
Definition prepared (w : World Seller Incoming) : World Seller Incoming :=
  let s := mem w in
  record (Unlock RequestLock)
    (record (Read FRequestID (VInt (allocated w)))
      (record (Write FRequestID (VInt (allocated w)))
        (store (mkSeller (ID s) (Address s) (TraderAddr s) (Post s) (allocated w))
          (record (Read FRequestID (VInt (RequestID s)))
            (record (Lock RequestLock) w))))).

(** The invocations of SendRequest that the ticker loop starts: one at each
    tick, for as long as the one before has returned. *)
Fixpoint invocations (turns : list nat) (w : World Seller Incoming) : nat :=
  match turns with
  | [] => O
  | n :: rest =>
      S (match fst (SendRequest n (snd (block serve w))) with
         | Some _ => invocations rest (snd (SendRequest n (snd (block serve w))))
         | None => O
         end)
  end.

(** *** The processes of [run.sh] *)

(** Seller 1 as [main] builds it. *)
Definition seller1 : Seller := mkSeller 1 "localhost:8003" "localhost:8001" 1 0.

(** The same Seller when its counter has reached the largest [int]. *)
Definition seller1_at_max : Seller :=
  mkSeller 1 "localhost:8003" "localhost:8001" 1 max_int.

(** A network on which every attempt is acknowledged at once and no leader
    update arrives. *)
Definition acking : nat -> Tick Incoming :=
  fun _ => mkTick [] (fun _ => None) (fun _ => "")
             (fun _ r => Response.mk "Success" "" (Request.RequestID r) true).

(** A network on which Trader 1 has gone, and Trader 2 announces itself
    during the second tick. *)
Definition failover : nat -> Tick Incoming :=
  fun n =>
    mkTick (match n with 1%nat => [InUpdateLeader "localhost:8002"] | _ => [] end)
      (fun a => if (a =? "localhost:8001")%string then Some "connection refused" else None)
      (fun _ => "")
      (fun _ r => Response.mk "Success" "" (Request.RequestID r) true).

End SellerSpec.

(** ** More projections of a trace *)

(** The connections closed, in the order of the closing. *)
Fixpoint closed (es : list Event) : list Client :=
  match es with
  | [] => []
  | e :: es' =>
      match ev_act e with
      | Close c => c :: closed es'
      | _ => closed es'
      end
  end.

(** What has been added to the trace from [w] to [w']. *)
Definition since {St In : Type} (w w' : World St In) : list Event :=
  skipn (List.length (trace w)) (trace w').

(** ** Three ways to follow a run *)

(** *** What holds throughout *)

Section Triple.

Variables (St In : Type).

(** What holds of the struct throughout, and the actions that may be seen. *)
Variable I : St -> Prop.
Variable P : Action -> Prop.

(** Started where [I] holds, [m] returns a value within [Q], leaves [I]
    holding, and has added actions within [P] to the trace. *)
Definition triple {A} (m : M St In A) (Q : A -> Prop) : Prop :=
  forall w : World St In, I (mem w) ->
    Q (fst (m w)) /\ I (mem (snd (m w))) /\
    exists es, trace (snd (m w)) = trace w ++ es /\ Forall (fun e => P (ev_act e)) es.

End Triple.

(** *** What is never looked at *)

Section Alike.

Variables (St In : Type).

(** The structs that are taken for the same. *)
Variable sim : St -> St -> Prop.

(** Two worlds that differ within [sim] only. *)
Definition alike (w1 w2 : World St In) : Prop :=
  sim (mem w1) (mem w2) /\ clock w1 = clock w2 /\ cur w1 = cur w2 /\
  trace w1 = trace w2 /\ net w1 = net w2.

(** [m] does not tell two such worlds apart. *)
Definition respects {A} (m : M St In A) : Prop :=
  forall w1 w2, alike w1 w2 -> fst (m w1) = fst (m w2) /\ alike (snd (m w1)) (snd (m w2)).

End Alike.

(** *** What the events add up to *)

Section Traces.

Variables (St In : Type).

(** What holds of the events that a method adds to the trace. *)
Variable T : list Event -> Prop.

Definition traces {A} (m : M St In A) : Prop :=
  forall w : World St In, exists es, trace (snd (m w)) = trace w ++ es /\ T es.

End Traces.

(** ** The Trader's loops *)

Module TraderRuns.
Import Trader TraderSpec.

(** The heartbeat that starts in [w] is missed: no connection to the peer, or
    no answer to the call. *)
Definition missed (w : World Trader Incoming) : bool :=
  match fail (net w (clock w)) (Peer (mem w)),
        fail (net w (S (clock w))) (Peer (mem w)) with
  | None, None => false
  | _, _ => true
  end.

(** The world in which the heartbeat after [k] earlier ones starts, when the
    ticker loop starts in [w]. *)
Fixpoint heartbeat_at (k : nat) (w : World Trader Incoming) : World Trader Incoming :=
  match k with
  | O => snd (block serve w)
  | S k' => heartbeat_at k' (snd (SendHeartbeat (snd (block serve w))))
  end.

(** The Trader as it is but for its two flags. *)
Definition with_flags (leader heartbeat : bool) (t : Trader) : Trader :=
  mkTrader (ID t) (Address t) (Peer t) (Post t) leader heartbeat (Requests t).

(** The same Trader but for the Heartbeat flag. *)
Definition but_heartbeat (t t' : Trader) : Prop :=
  with_flags (IsLeader t') false t' = with_flags (IsLeader t) false t.

(** The same Trader but for the IsLeader flag. *)
Definition but_leader (t t' : Trader) : Prop :=
  with_flags false (Heartbeat t') t' = with_flags false (Heartbeat t) t.

(** The Trader as it is but for the list of requests. *)
Definition with_requests (l : list Request.t) (t : Trader) : Trader :=
  mkTrader (ID t) (Address t) (Peer t) (Post t) (IsLeader t) (Heartbeat t) l.

(** The same Trader but for the Requests list. *)
Definition but_requests (t t' : Trader) : Prop :=
  with_requests [] t' = with_requests [] t.

(** An action that leaves the Requests list and its mutex alone. *)
Definition off_requests (a : Action) : Prop :=
  match a with
  | Lock RequestMu | Unlock RequestMu => False
  | Read FRequests _ | Write FRequests _ => False
  | _ => True
  end.

(** The log entry of an acknowledged heartbeat. *)
Definition heartbeat_acknowledged (id : Z) (peer : string) : string :=
  "Trader " ++ itoa id ++ ": Heartbeat acknowledged by peer " ++ peer.

(** A Trader with the ID, the address and the peer of [t]. *)
Definition same_identity (t t' : Trader) : Prop :=
  ID t' = ID t /\ Address t' = Address t /\ Peer t' = Peer t.

(** What the goroutines that [main] starts for Trader [t], the server and
    the heartbeat loop, may be seen doing. *)
Definition process_action (t : Trader) (a : Action) : Prop :=
  match a with
  | Lock m | Unlock m => m = HeartbeatMu
  | Read _ _ => False
  | Write f v => (f = FHeartbeat \/ f = FIsLeader) /\ v = VBool true
  | Dial addr _ => addr = Peer t \/ In addr sellerAddresses
  | Call c m v _ =>
      (c_addr c = Peer t /\ m = "Trader.ReceiveHeartbeat" /\ v = VInt (ID t)) \/
      (In (c_addr c) sellerAddresses /\ m = "Seller.UpdateLeader"
       /\ v = VString (Address t))
  | Close c => c_addr c = Peer t \/ In (c_addr c) sellerAddresses
  | Sleep d => d = 2
  | Log _ => True
  end.

(** A network on which the connection to [addr] is refused during the ticks
    in [down], and nothing arrives. *)
Definition refused_during (addr : string) (down : list nat) : nat -> Tick Incoming :=
  fun n =>
    mkTick []
      (fun a => if (a =? addr)%string && existsb (Nat.eqb n) down
                then Some "connection refused" else None)
      (fun _ => "") (fun _ _ => Response.zero).

End TraderRuns.

(** ** The Seller's loops *)

Module SellerRuns.
Import Seller SellerSpec.

(** The client whose [Close] a turn of the loop has deferred. *)
Definition turn_client (r : option Client + option Client) : option Client :=
  match r with
  | inl c | inr c => c
  end.

(** A leader update that names [a] arrives during one of the ticks from
    [from] up to, and not including, [to]. *)
Definition heard (network : nat -> Tick Incoming) (from to : nat) (a : string) : Prop :=
  exists n, (from <= n < to)%nat /\ In (InUpdateLeader a) (incoming (network n)).

(** From [w] to [w'] time has passed on the same network, and the Trader
    that the Seller believes in is the same, or one that it has heard of
    meanwhile. *)
Definition hears (w w' : World Seller Incoming) : Prop :=
  (clock w <= clock w')%nat /\ net w' = net w /\
  (TraderAddr (mem w') = TraderAddr (mem w) \/
   heard (net w) (clock w) (clock w') (TraderAddr (mem w'))).

(** A Seller with the ID and the post of [s]. *)
Definition same_seller (s s' : Seller) : Prop := ID s' = ID s /\ Post s' = Post s.

(** What the process of Seller [s], its server and its ticker loop, may be
    seen doing. *)
Definition seller_action (s : Seller) (a : Action) : Prop :=
  match a with
  | Lock m | Unlock m => m = RequestLock
  | Read f _ | Write f _ => f = FTraderAddr \/ f = FRequestID
  | Call _ m v _ =>
      m = "Trader.ReceiveRequest" /\
      exists n, v = VRequest (Request.mk (ID s) (Post s) "apples" 10 n)
  | Sleep d => d = 5
  | Dial _ _ | Close _ | Log _ => True
  end.

(** A network on which whatever is tried during every third tick fails, and
    no leader update arrives: a Seller that starts at tick 0 obtains every
    connection and has no call answered. *)
Definition unanswered : nat -> Tick Incoming :=
  fun n =>
    mkTick []
      (fun _ => if (n mod 3 =? 1)%nat then Some "connection is shut down" else None)
      (fun _ => "") (fun _ _ => Response.zero).

End SellerRuns.

(** ** The two programs together *)

Module Failover.

(** The leader updates that the calls in [es] deliver to the Seller that
    listens at [addr]: those that have completed. *)
Definition deliveries (addr : string) (es : list Event) : list Seller.Incoming :=
  flat_map
    (fun e =>
       match ev_act e with
       | Call c m (VString a) None =>
           if ((c_addr c =? addr) && (m =? "Seller.UpdateLeader"))%string
           then [Seller.InUpdateLeader a]
           else []
       | _ => []
       end) es.

(** A network on which every call is answered by the Trader of [wt], and no
    leader update arrives. *)
Definition answered_by (wt : World Trader.Trader Trader.Incoming)
  : nat -> Tick Seller.Incoming :=
  fun _ =>
    mkTick [] (fun _ => None) (fun _ => "")
      (fun _ req => fst (fst (Trader.ReceiveRequest req Response.zero wt))).

(** A network on which the Seller receives what NotifySellers, run by the
    Trader of [wt], delivers to [addr]. *)
Definition notified_by (newLeaderAddr addr : string)
    (wt : World Trader.Trader Trader.Incoming) : nat -> Tick Seller.Incoming :=
  fun n =>
    mkTick
      (match n with
       | O => deliveries addr (since wt (snd (Trader.NotifySellers newLeaderAddr wt)))
       | _ => []
       end)
      (fun _ => None) (fun _ => "")
      (fun _ req => fst (fst (Trader.ReceiveRequest req Response.zero wt))).

End Failover.

(** ** Mutual exclusion throughout a run *)

Module LockingRuns.
Import Locking.

(** The mutexes held once the events of [es] have happened. *)
Fixpoint locks_after (held : list (Goroutine * Mutex)) (es : list Event)
  : list (Goroutine * Mutex) :=
  match es with
  | [] => held
  | e :: es' =>
      match ev_act e with
      | Lock m => locks_after ((ev_go e, m) :: held) es'
      | Unlock m => locks_after (release (ev_go e) m held) es'
      | _ => locks_after held es'
      end
  end.

(** The goroutine [g] holds the mutex [m]. *)
Definition holds_mutex (g : Goroutine) (m : Mutex) (held : list (Goroutine * Mutex)) : bool :=
  existsb (fun p => goroutine_eqb (fst p) g && mutex_eqb (snd p) m) held.

(** Some goroutine holds the mutex [m]. *)
Definition taken (m : Mutex) (held : list (Goroutine * Mutex)) : bool :=
  existsb (fun p => mutex_eqb (snd p) m) held.

(** The events of [es] keep to the discipline of the mutex [m] for the field
    [f]: a mutex is taken only while nobody holds it and released only by
    the goroutine that holds it, and [f] is read and written only by a
    goroutine that holds [m] at that moment. *)
Fixpoint disciplined (m : Mutex) (f : Field) (held : list (Goroutine * Mutex))
    (es : list Event) : Prop :=
  match es with
  | [] => True
  | e :: es' =>
      match ev_act e with
      | Lock m' =>
          taken m' held = false /\ disciplined m f ((ev_go e, m') :: held) es'
      | Unlock m' =>
          holds_mutex (ev_go e) m' held = true /\
          disciplined m f (release (ev_go e) m' held) es'
      | Read g _ | Write g _ =>
          (field_eqb f g = true -> holds_mutex (ev_go e) m held = true) /\
          disciplined m f held es'
      | _ => disciplined m f held es'
      end
  end.

(** A read or a write of field [f]. *)
Definition accesses (f : Field) (e : Event) : Prop :=
  match ev_act e with
  | Read g _ | Write g _ => g = f
  | _ => False
  end.

(** An assignment to field [f]. *)
Definition assigns (f : Field) (e : Event) : Prop :=
  match ev_act e with
  | Write g _ => g = f
  | _ => False
  end.

(** Every mutex taken during [es] has been released by its end, [es] keeps
    to the discipline of [m] for [f], and what the goroutines that hold no
    mutex have accessed is within [U]. *)
Definition keeps (m : Mutex) (f : Field) (U : Event -> Prop) (es : list Event) : Prop :=
  locks_after [] es = [] /\ disciplined m f [] es /\ Forall U (unguarded [] es).

(** An event that is no access and takes no mutex. *)
Definition idle (a : Action) : Prop :=
  match a with
  | Dial _ _ | Call _ _ _ _ | Close _ | Sleep _ | Log _ => True
  | _ => False
  end.

(** An access to another field than [f]. *)
Definition beside (f : Field) (a : Action) : Prop :=
  match a with
  | Read g _ | Write g _ => field_eqb f g = false
  | _ => False
  end.

End LockingRuns.

(** * Proofs *)

(** ** Projections of a trace *)

Lemma dialed_app (es1 es2 : list Event) : dialed (es1 ++ es2) = dialed es1 ++ dialed es2.
Proof.
  induction es1 as [|e es1 IH]; simpl; [reflexivity|].
  destruct (ev_act e); simpl; now rewrite IH.
Qed.

Lemma called_app (es1 es2 : list Event) : called (es1 ++ es2) = called es1 ++ called es2.
Proof.
  induction es1 as [|e es1 IH]; simpl; [reflexivity|].
  destruct (ev_act e); simpl; now rewrite IH.
Qed.

Lemma written_app f (es1 es2 : list Event) :
  written f (es1 ++ es2) = written f es1 ++ written f es2.
Proof.
  induction es1 as [|e es1 IH]; simpl; [reflexivity|].
  destruct (ev_act e); simpl; try now rewrite IH.
  destruct (field_eqb f f0); simpl; now rewrite IH.
Qed.

Lemma dialed_local (es : list Event) :
  Forall (fun e => local (ev_act e)) es -> dialed es = [].
Proof.
  induction 1 as [|e es He _ IH]; simpl; [reflexivity|].
  destruct (ev_act e); simpl in *; auto; exfalso; apply He; exact I.
Qed.

Lemma called_local (es : list Event) :
  Forall (fun e => local (ev_act e)) es -> called es = [].
Proof.
  induction 1 as [|e es He _ IH]; simpl; [reflexivity|].
  destruct (ev_act e); simpl in *; auto; exfalso; apply He; exact I.
Qed.

Lemma connected_app (es1 es2 : list Event) :
  connected (es1 ++ es2) = connected es1 ++ connected es2.
Proof.
  induction es1 as [|e es1 IH]; simpl; [reflexivity|].
  destruct (ev_act e) as [| | | |a [err|]| | | |]; simpl; now rewrite IH.
Qed.

Lemma connected_local (es : list Event) :
  Forall (fun e => local (ev_act e)) es -> connected es = [].
Proof.
  induction 1 as [|e es He _ IH]; simpl; [reflexivity|].
  destruct (ev_act e) as [| | | |a [err|]| | | |]; simpl in *; auto;
    exfalso; apply He; exact I.
Qed.

Lemma closes_quiet (g : Goroutine) (ds : list Client) :
  dialed (map (fun c => mkEvent g (Close c)) ds) = [] /\
  connected (map (fun c => mkEvent g (Close c)) ds) = [] /\
  called (map (fun c => mkEvent g (Close c)) ds) = [].
Proof. induction ds as [|c ds IH]; simpl; auto. Qed.

(** ** What the served calls may do *)

Section Frame.

Variables (St In : Type).
Variable serve : In -> M St In unit.

(** [R] bounds what a handler does to the struct, [Q] which actions it
    performs. *)
Variable R : St -> St -> Prop.
Variable Q : Action -> Prop.

Hypothesis R_refl : forall s, R s s.
Hypothesis R_trans : forall s1 s2 s3, R s1 s2 -> R s2 s3 -> R s1 s3.

Hypothesis serve_handled : forall i w, handled R Q w (snd (serve i w)).

Lemma handled_refl (w : World St In) : handled R Q w w.
Proof.
  split; auto. exists []. now rewrite app_nil_r.
Qed.

Lemma handled_trans (w1 w2 w3 : World St In) :
  handled R Q w1 w2 -> handled R Q w2 w3 -> handled R Q w1 w3.
Proof.
  intros [c1 n1 g1 m1 [es1 [t1 q1]]] [c2 n2 g2 m2 [es2 [t2 q2]]].
  split; try congruence; eauto.
  exists (es1 ++ es2). split.
  - now rewrite t2, t1, app_assoc.
  - now apply Forall_app.
Qed.

Lemma serve_all_handled l : forall n k (w : World St In),
  handled R Q w (snd (serve_all serve n k l w)).
Proof.
  induction l as [|i l IH]; intros n k w; simpl.
  - apply handled_refl.
  - unfold bind; simpl.
    eapply handled_trans; [|apply IH].
    destruct (serve_handled i (mkWorld (mem w) (clock w) (GServe n k) (trace w) (net w)))
      as [c nn g m [es [t q]]]; simpl in *.
    split; simpl; auto. exists es. auto.
Qed.

Lemma block_fst w : fst (block serve w) = net w (clock w).
Proof. reflexivity. Qed.

Lemma block_clock w : clock (snd (block serve w)) = S (clock w).
Proof.
  unfold block; simpl. f_equal. apply serve_all_handled.
Qed.

Lemma block_net w : net (snd (block serve w)) = net w.
Proof. unfold block; simpl. apply serve_all_handled. Qed.

Lemma block_cur w : cur (snd (block serve w)) = cur w.
Proof. unfold block; simpl. apply serve_all_handled. Qed.

Lemma block_mem w : R (mem w) (mem (snd (block serve w))).
Proof. unfold block; simpl. apply serve_all_handled. Qed.

Lemma block_trace w : trace (snd (block serve w)) = trace w ++ arrivals serve w.
Proof.
  unfold arrivals, block; simpl.
  destruct (serve_all_handled (incoming (net w (clock w))) (clock w) 0 w)
    as [_ _ _ _ [es [t _]]].
  rewrite t, skipn_app, skipn_all, Nat.sub_diag. reflexivity.
Qed.

Lemma arrivals_within w : Forall (fun e => Q (ev_act e)) (arrivals serve w).
Proof.
  unfold arrivals, block; simpl.
  destruct (serve_all_handled (incoming (net w (clock w))) (clock w) 0 w)
    as [_ _ _ _ [es [t q]]].
  rewrite t, skipn_app, skipn_all, Nat.sub_diag. exact q.
Qed.

End Frame.

(** ** The primitives, as equations *)

#[local] Arguments String.append : simpl never.
#[local] Arguments itoa : simpl never.

Section PrimitiveFacts.

Variables (St In : Type).
Variable serve : In -> M St In unit.

Lemma rpcDial_eq (addr : string) (w : World St In) :
  rpcDial serve addr w =
  (match fail (net w (clock w)) addr with
   | Some e => inl e
   | None => inr (mkClient addr (clock w))
   end,
   record (Dial addr (fail (net w (clock w)) addr)) (snd (block serve w))).
Proof.
  unfold rpcDial, bind, get_clock; simpl.
  destruct (fail (net w (clock w)) addr); reflexivity.
Qed.

Lemma rpcCall_eq (c : Client) (method : string) (arg : Value) (w : World St In) :
  rpcCall serve c method arg w =
  (match fail (net w (clock w)) (c_addr c) with
   | Some e => inl e
   | None => inr (net w (clock w))
   end,
   record (Call c method arg (fail (net w (clock w)) (c_addr c))) (snd (block serve w))).
Proof.
  unfold rpcCall, bind; simpl.
  destruct (fail (net w (clock w)) (c_addr c)); reflexivity.
Qed.

Lemma timeSleep_eq (d : Z) (w : World St In) :
  timeSleep serve d w = (tt, record (Sleep d) (snd (block serve w))).
Proof. reflexivity. Qed.

Lemma record_mem a (w : World St In) : mem (record a w) = mem w.
Proof. reflexivity. Qed.

Lemma record_clock a (w : World St In) : clock (record a w) = clock w.
Proof. reflexivity. Qed.

Lemma record_cur a (w : World St In) : cur (record a w) = cur w.
Proof. reflexivity. Qed.

Lemma record_net a (w : World St In) : net (record a w) = net w.
Proof. reflexivity. Qed.

Lemma record_trace a (w : World St In) :
  trace (record a w) = trace w ++ [mkEvent (cur w) a].
Proof. reflexivity. Qed.

Lemma store_mem s (w : World St In) : mem (store s w) = s.
Proof. reflexivity. Qed.

Lemma store_clock s (w : World St In) : clock (store s w) = clock w.
Proof. reflexivity. Qed.

Lemma store_cur s (w : World St In) : cur (store s w) = cur w.
Proof. reflexivity. Qed.

Lemma store_net s (w : World St In) : net (store s w) = net w.
Proof. reflexivity. Qed.

Lemma store_trace s (w : World St In) : trace (store s w) = trace w.
Proof. reflexivity. Qed.

Lemma run_defers_mem ds : forall w : World St In, mem (snd (run_defers ds w)) = mem w.
Proof.
  induction ds as [|c ds IH]; intros w; simpl; [reflexivity|].
  unfold bind; simpl. now rewrite IH.
Qed.

Lemma run_defers_clock ds : forall w : World St In, clock (snd (run_defers ds w)) = clock w.
Proof.
  induction ds as [|c ds IH]; intros w; simpl; [reflexivity|].
  unfold bind; simpl. now rewrite IH.
Qed.

Lemma run_defers_cur ds : forall w : World St In, cur (snd (run_defers ds w)) = cur w.
Proof.
  induction ds as [|c ds IH]; intros w; simpl; [reflexivity|].
  unfold bind; simpl. now rewrite IH.
Qed.

Lemma run_defers_net ds : forall w : World St In, net (snd (run_defers ds w)) = net w.
Proof.
  induction ds as [|c ds IH]; intros w; simpl; [reflexivity|].
  unfold bind; simpl. now rewrite IH.
Qed.

Lemma run_defers_trace ds : forall w : World St In,
  trace (snd (run_defers ds w)) = trace w ++ map (fun c => mkEvent (cur w) (Close c)) ds.
Proof.
  induction ds as [|c ds IH]; intros w; simpl.
  - now rewrite app_nil_r.
  - unfold bind; simpl. rewrite IH; simpl. now rewrite <- app_assoc.
Qed.

End PrimitiveFacts.

(** The symbolic runs below keep the worlds folded. *)
#[local] Arguments block : simpl never.
#[local] Arguments rpcDial : simpl never.
#[local] Arguments rpcCall : simpl never.
#[local] Arguments run_defers : simpl never.
#[local] Arguments record : simpl never.
#[local] Arguments store : simpl never.

Create Rewrite HintDb world.
#[export] Hint Rewrite record_mem record_clock record_cur record_net record_trace
  store_mem store_clock store_cur store_net store_trace
  run_defers_mem run_defers_clock run_defers_cur run_defers_net run_defers_trace : world.

(** Two traces are equal up to the bracketing of their concatenations. *)
Ltac trace_eq := repeat (rewrite <- app_assoc || (progress (cbn [app]))); reflexivity.

(** ** Facts about trader.go *)

Module TraderFacts.
Import Trader TraderSpec.

Lemma only_heartbeat_refl t : only_heartbeat t t.
Proof. repeat split. Qed.

Lemma only_heartbeat_trans t1 t2 t3 :
  only_heartbeat t1 t2 -> only_heartbeat t2 t3 -> only_heartbeat t1 t3.
Proof. unfold only_heartbeat; intuition congruence. Qed.

Lemma serving_local a : serving a -> local a.
Proof. destruct a; simpl; try tauto; intros _ H; exact H. Qed.

Lemma trader_serves i w : handled only_heartbeat serving w (snd (serve i w)).
Proof.
  destruct i as [req|req]; split; simpl; try reflexivity; try (repeat split).
  - eexists. split; [rewrite <- !app_assoc; reflexivity|]. repeat constructor.
  - eexists. split; [rewrite <- !app_assoc; reflexivity|]. repeat constructor.
Qed.

(** The frame lemmas, for the Trader's server. *)
Lemma trader_blocked_clock w : clock (snd (block serve w)) = S (clock w).
Proof. exact (block_clock serve only_heartbeat_refl only_heartbeat_trans trader_serves w). Qed.

Lemma trader_blocked_net w : net (snd (block serve w)) = net w.
Proof. exact (block_net serve only_heartbeat_refl only_heartbeat_trans trader_serves w). Qed.

Lemma trader_blocked_cur w : cur (snd (block serve w)) = cur w.
Proof. exact (block_cur serve only_heartbeat_refl only_heartbeat_trans trader_serves w). Qed.

Lemma trader_blocked_mem w : only_heartbeat (mem w) (mem (snd (block serve w))).
Proof. exact (block_mem serve only_heartbeat_refl only_heartbeat_trans trader_serves w). Qed.

Lemma trader_blocked_trace w : trace (snd (block serve w)) = trace w ++ arrivals serve w.
Proof. exact (block_trace serve only_heartbeat_refl only_heartbeat_trans trader_serves w). Qed.

Lemma trader_blocked_arrivals w : Forall (fun e => serving (ev_act e)) (arrivals serve w).
Proof. exact (arrivals_within serve only_heartbeat_refl only_heartbeat_trans trader_serves w). Qed.

#[export] Hint Rewrite trader_blocked_clock trader_blocked_net trader_blocked_cur
  trader_blocked_trace : world.

(** *** NotifySellers *)

(** Runs a method symbolically up to the next choice of the network. *)
Ltac run :=
  repeat (progress (
    unfold bind, getID, getAddress, getPeer, setIsLeader, setHeartbeat,
      logPrintf, get_mem, put_mem, ret, emit;
    cbn;
    rewrite ?rpcDial_eq, ?rpcCall_eq, ?timeSleep_eq;
    autorewrite with world; cbn)).

Lemma NotifySellers_range_spec leader addrs : forall defers w,
  exists es cs,
    fst (NotifySellers_range leader addrs defers w) = rev cs ++ defers /\
    trace (snd (NotifySellers_range leader addrs defers w)) = trace w ++ es /\
    notifies (cur w) (ID (mem w)) leader addrs es cs /\
    only_heartbeat (mem w) (mem (snd (NotifySellers_range leader addrs defers w))) /\
    net (snd (NotifySellers_range leader addrs defers w)) = net w /\
    cur (snd (NotifySellers_range leader addrs defers w)) = cur w.
Proof.
  induction addrs as [|addr rest IH]; intros defers w.
  - exists [], []. simpl. rewrite app_nil_r.
    repeat split; constructor.
  - run.
    destruct (trader_blocked_mem w) as (Hid & _).
    destruct (fail (net w (clock w)) addr) as [err|] eqn:Hdial.
    + run.
      match goal with |- context [NotifySellers_range leader rest defers ?w1] =>
        destruct (IH defers w1) as (es & cs & Hd & Ht & Hn & Hr & Hnet & Hcur) end.
      autorewrite with world in *. rewrite ?Hid in *.
      eexists; exists cs. split; [exact Hd|]. split.
      { rewrite Ht, <- !app_assoc. reflexivity. }
      split.
      { cbn. constructor; auto using trader_blocked_arrivals. }
      split; [|auto].
      eapply only_heartbeat_trans; [apply trader_blocked_mem|exact Hr].
    + run. autorewrite with world.
      set (c := mkClient addr (clock w)).
      set (w1 := record (Dial addr None) (snd (block serve w))).
      destruct (trader_blocked_mem w1) as (Hid1 & _).
      assert (Hm : only_heartbeat (mem w) (mem (snd (block serve w1)))).
      { eapply only_heartbeat_trans; [apply trader_blocked_mem|].
        apply (trader_blocked_mem w1). }
      destruct (fail (net w (S (clock w))) addr) as [err|] eqn:Hcall; run;
      match goal with |- context [NotifySellers_range leader rest (c :: defers) ?w2] =>
        destruct (IH (c :: defers) w2) as (es & cs & Hd & Ht & Hn & Hr & Hnet & Hcur) end;
      subst w1; autorewrite with world in *; rewrite ?Hid1 in *;
      autorewrite with world in *; rewrite ?Hid in *;
      (eexists; exists (c :: cs); split;
       [rewrite Hd; simpl; rewrite <- app_assoc; reflexivity|]; split;
       [rewrite Ht, <- !app_assoc; reflexivity|]; split;
       [cbn; constructor; auto using trader_blocked_arrivals|]; split; [|auto];
       eapply only_heartbeat_trans; [exact Hm|exact Hr]).
Qed.

#[local] Arguments NotifySellers : simpl never.
#[local] Arguments TakeOverLeadership : simpl never.
#[local] Arguments NotifySellers_range : simpl never.

Lemma serving_all_local es :
  Forall (fun e => serving (ev_act e)) es -> Forall (fun e => local (ev_act e)) es.
Proof. apply Forall_impl. intros e. apply serving_local. Qed.

Lemma serving_quiet es :
  Forall (fun e => serving (ev_act e)) es ->
  dialed es = [] /\ connected es = [] /\ called es = [].
Proof.
  intros H. apply serving_all_local in H.
  auto using dialed_local, connected_local, called_local.
Qed.

Ltac quiet :=
  repeat match goal with
  | H : Forall (fun e => serving (ev_act e)) _ |- _ =>
      destruct (serving_quiet H) as (? & ? & ?); clear H
  end;
  rewrite ?dialed_app, ?connected_app, ?called_app; simpl;
  rewrite ?dialed_app, ?connected_app, ?called_app; simpl;
  repeat match goal with H : _ = [] |- _ => rewrite H; clear H end; simpl.

Lemma notifies_dialed g id leader addrs es cs :
  notifies g id leader addrs es cs -> dialed es = addrs.
Proof.
  induction 1; simpl; [reflexivity| | |];
    quiet; congruence.
Qed.


Lemma notifies_called g id leader addrs es cs :
  notifies g id leader addrs es cs ->
  called es = map (fun c => (c_addr c, "Seller.UpdateLeader", VString leader)) cs.
Proof.
  induction 1; simpl; [reflexivity| | |];
    quiet; congruence.
Qed.

Lemma NotifySellers_spec leader w :
  exists es cs,
    trace (snd (NotifySellers leader w)) =
      trace w ++ es ++ map (fun c => mkEvent (cur w) (Close c)) (rev cs) /\
    notifies (cur w) (ID (mem w)) leader sellerAddresses es cs /\
    only_heartbeat (mem w) (mem (snd (NotifySellers leader w))) /\
    net (snd (NotifySellers leader w)) = net w /\
    cur (snd (NotifySellers leader w)) = cur w.
Proof.
  unfold NotifySellers, bind.
  destruct (NotifySellers_range_spec leader sellerAddresses [] w)
    as (es & cs & Hd & Ht & Hn & Hr & Hnet & Hcur).
  rewrite app_nil_r in Hd.
  exists es, cs. autorewrite with world. rewrite Hd, Ht, Hcur, <- app_assoc. auto.
Qed.

Lemma steady_refl t : steady t t.
Proof. repeat split. Qed.

Lemma steady_trans t1 t2 t3 : steady t1 t2 -> steady t2 t3 -> steady t1 t3.
Proof. unfold steady; intuition congruence. Qed.

Lemma only_heartbeat_steady t t' : only_heartbeat t t' -> steady t t'.
Proof. unfold only_heartbeat, steady; intuition. Qed.

Lemma TakeOverLeadership_spec w :
  exists es cs,
    trace (snd (TakeOverLeadership w)) =
      trace w ++ mkEvent (cur w) (Write FIsLeader (VBool true))
              :: mkEvent (cur w) (Log (taking_over (ID (mem w))))
              :: es ++ map (fun c => mkEvent (cur w) (Close c)) (rev cs) /\
    notifies (cur w) (ID (mem w)) (Address (mem w)) sellerAddresses es cs /\
    IsLeader (mem (snd (TakeOverLeadership w))) = true /\
    steady (mem w) (mem (snd (TakeOverLeadership w))) /\
    net (snd (TakeOverLeadership w)) = net w /\
    cur (snd (TakeOverLeadership w)) = cur w.
Proof.
  unfold TakeOverLeadership. run.
  match goal with |- context [NotifySellers ?a ?w1] =>
    destruct (NotifySellers_spec a w1) as (es & cs & Ht & Hn & Hr & Hnet & Hcur) end.
  autorewrite with world in *; cbn in *.
  exists es, cs. rewrite Ht, <- !app_assoc.
  destruct Hr as (Hid & Haddr & Hpeer & Hpost & Hlead & Hreq); cbn in *.
  repeat split; auto.
Qed.

(** *** SendHeartbeat *)

(** C1. In whatever state a heartbeat attempt starts, when the connection to
    the peer fails, or the call over it fails, the Trader has IsLeader set
    when SendHeartbeat returns, and has by then run the notification with its
    own address: after the failure it assigns IsLeader, logs the takeover and
    goes through the roster of sellers, calling [Seller.UpdateLeader] with
    [Address] on every seller it connects to.  One miss is enough: nothing
    is asked of the attempts before. *)
Theorem SendHeartbeat_single_miss (w : World Trader Incoming) :
  connection_fails w \/ call_fails w ->
  IsLeader (mem (snd (SendHeartbeat w))) = true /\
  exists before es after cs,
    trace (snd (SendHeartbeat w)) =
      trace w ++ before
        ++ mkEvent (cur w) (Write FIsLeader (VBool true))
        :: mkEvent (cur w) (Log (taking_over (ID (mem w))))
        :: es ++ after /\
    notifies (cur w) (ID (mem w)) (Address (mem w)) sellerAddresses es cs /\
    dialed es = sellerAddresses /\
    called es = map (fun c => (c_addr c, "Seller.UpdateLeader", VString (Address (mem w)))) cs /\
    Forall (fun e => exists c, ev_act e = Close c) after.
Proof.
  intros Hmiss. unfold SendHeartbeat. run.
  destruct (trader_blocked_mem w) as (Hid & Haddr & Hpeer & _).
  destruct (fail (net w (clock w)) (Peer (mem w))) as [err|] eqn:Hdial.
  - run.
    match goal with |- context [TakeOverLeadership ?w1] =>
      destruct (TakeOverLeadership_spec w1)
        as (es & cs & Ht & Hn & Hl & Hs & Hnet & Hcur) end.
    autorewrite with world in *. rewrite ?Hid, ?Haddr, ?Hpeer in *.
    split; [exact Hl|].
    rewrite <- !app_assoc in Ht; cbn [app] in Ht.
    match type of Ht with _ = _ ++ ?b1 ++ ?d :: ?l :: _ :: _ :: _ ++ ?a =>
      exists (b1 ++ [d; l]), es, a, cs end.
    split; [rewrite Ht; trace_eq|].
    split; [exact Hn|].
    split; [eapply notifies_dialed; eauto|].
    split; [eapply notifies_called; eauto|].
    apply Forall_forall. intros e He. apply in_map_iff in He.
    destruct He as (c & <- & _). now exists c.
  - destruct Hmiss as [Hc|[_ Hc]]; [now elim Hc|].
    run. autorewrite with world. rewrite Hid.
    set (w1 := record (Dial (Peer (mem w)) None) (snd (block serve w))).
    destruct (trader_blocked_mem w1) as (Hid1 & Haddr1 & Hpeer1 & _).
    destruct (fail (net w (S (clock w))) (Peer (mem w))) as [err|] eqn:Hcall;
      [|now elim Hc].
    run.
    match goal with |- context [TakeOverLeadership ?w2] =>
      destruct (TakeOverLeadership_spec w2)
        as (es & cs & Ht & Hn & Hl & Hs & Hnet & Hcur) end.
    subst w1. autorewrite with world in *. rewrite ?Hid1, ?Haddr1, ?Hpeer1 in *.
    autorewrite with world in *. rewrite ?Hid, ?Haddr, ?Hpeer in *.
    split; [exact Hl|].
    rewrite <- !app_assoc in Ht; cbn [app] in Ht.
    match type of Ht with _ = _ ++ ?b1 ++ ?d :: ?b2 ++ ?c :: ?l :: _ :: _ :: _ ++ ?a =>
      exists (b1 ++ d :: b2 ++ [c; l]), es,
        (a ++ [mkEvent (cur w) (Close (mkClient (Peer (mem w)) (clock w)))]), cs end.
    split; [rewrite Ht, Hcur; trace_eq|].
    split; [exact Hn|].
    split; [eapply notifies_dialed; eauto|].
    split; [eapply notifies_called; eauto|].
    apply Forall_app. split.
    + apply Forall_forall. intros e He. apply in_map_iff in He.
      destruct He as (c & <- & _). now exists c.
    + repeat constructor. eexists; reflexivity.
Qed.

(** Trader 2 finds Trader 1 gone at its first heartbeat. *)
Example SendHeartbeat_peer_gone :
  map ev_act (trace (snd (SendHeartbeat (boot trader2 peer_gone)))) =
  [Dial "localhost:8001" (Some "connection refused");
   Log "Trader 2: Failed to connect to peer Trader at localhost:8001. Assuming failure.";
   Write FIsLeader (VBool true);
   Log "Trader 2: Taking over all posts as the sole leader.";
   Dial "localhost:8003" None;
   Call (mkClient "localhost:8003" 1) "Seller.UpdateLeader" (VString "localhost:8002") None;
   Log "Trader 2: Notified Seller at localhost:8003 about new leader localhost:8002";
   Dial "localhost:8004" None;
   Call (mkClient "localhost:8004" 3) "Seller.UpdateLeader" (VString "localhost:8002") None;
   Log "Trader 2: Notified Seller at localhost:8004 about new leader localhost:8002";
   Close (mkClient "localhost:8004" 3);
   Close (mkClient "localhost:8003" 1)].
Proof. reflexivity. Qed.

(** A heartbeat that is acknowledged changes nothing. *)
Example SendHeartbeat_acknowledged :
  mem (snd (SendHeartbeat (boot trader2 quiet_network))) = trader2 /\
  map ev_act (trace (snd (SendHeartbeat (boot trader2 quiet_network)))) =
  [Dial "localhost:8001" None;
   Call (mkClient "localhost:8001" 0) "Trader.ReceiveHeartbeat" (VInt 2) None;
   Log "Trader 2: Heartbeat acknowledged by peer localhost:8001";
   Close (mkClient "localhost:8001" 0)].
Proof. split; reflexivity. Qed.

(** *** NotifySellers and the Requests list *)


(** One seller is down: the other one is still told, and that is all. *)
Example NotifySellers_one_seller_down :
  map ev_act (trace (snd (NotifySellers "localhost:8002" (boot trader2 seller3_down)))) =
  [Dial "localhost:8003" (Some "connection refused");
   Log "Trader 2: Failed to notify Seller at localhost:8003: connection refused";
   Dial "localhost:8004" None;
   Call (mkClient "localhost:8004" 1) "Seller.UpdateLeader" (VString "localhost:8002") None;
   Log "Trader 2: Notified Seller at localhost:8004 about new leader localhost:8002";
   Close (mkClient "localhost:8004" 1)].
Proof. reflexivity. Qed.

Lemma steady_blocked t w : steady t (mem w) -> steady t (mem (snd (block serve w))).
Proof.
  intros H. eapply steady_trans; [exact H|].
  apply only_heartbeat_steady, trader_blocked_mem.
Qed.

Lemma steady_takeover t w :
  steady t (mem w) -> steady t (mem (snd (TakeOverLeadership w))).
Proof.
  intros H. eapply steady_trans; [exact H|].
  destruct (TakeOverLeadership_spec w) as (es & cs & _ & _ & _ & Hs & _). exact Hs.
Qed.

Lemma steady_notify t a w :
  steady t (mem w) -> steady t (mem (snd (NotifySellers a w))).
Proof.
  intros H. eapply steady_trans; [exact H|].
  destruct (NotifySellers_spec a w) as (es & cs & _ & _ & Hs & _).
  now apply only_heartbeat_steady.
Qed.

Ltac steady :=
  repeat (autorewrite with world;
          first [ apply steady_refl | apply steady_blocked
                | apply steady_takeover | apply steady_notify ]).

Lemma steady_SendHeartbeat t w :
  steady t (mem w) -> steady t (mem (snd (SendHeartbeat w))).
Proof.
  intros H. eapply steady_trans; [exact H|]. clear H.
  unfold SendHeartbeat. run.
  destruct (fail (net w (clock w)) (Peer (mem w))); run; [steady|].
  match goal with |- context [match ?x with Some _ => _ | None => _ end] =>
    destruct x end; run; steady.
Qed.

Lemma steady_StartHeartbeat ticks : forall t w,
  steady t (mem w) -> steady t (mem (snd (StartHeartbeat ticks w))).
Proof.
  induction ticks as [|n IH]; intros t w H; [exact H|].
  cbn [StartHeartbeat]. unfold bind. apply IH, steady_SendHeartbeat, steady_blocked, H.
Qed.

Lemma steady_perform op w : steady (mem w) (mem (snd (perform op w))).
Proof.
  destruct op; cbn [perform].
  - run. repeat split.
  - run. repeat split.
  - apply steady_SendHeartbeat, steady_refl.
  - apply steady_StartHeartbeat, steady_refl.
  - apply steady_takeover, steady_refl.
  - apply steady_notify, steady_refl.
  - unfold ForwardRequest. run.
    destruct (fail (net w (clock w)) (Peer (mem w))); run; [steady|].
    match goal with |- context [match ?x with Some _ => _ | None => _ end] =>
      destruct x end; run; steady.
  - unfold SendResponse. run.
    destruct (fail (net w (clock w)) sellerAddr); run; [steady|].
    match goal with |- context [match ?x with Some _ => _ | None => _ end] =>
      destruct x end; run; steady.
Qed.

(** C8, as the spec has it, fails: a request that ReceiveRequest handles is
    not appended to the Requests list. *)
Lemma ReceiveRequest_appends_nothing :
  let w := boot trader1 quiet_network in
  fst (ReceiveRequest apples Response.zero w)
    = (Response.mk "Success" "Processed request 1: 10 apples from Seller 1" 1 true, None) /\
  Requests (mem (snd (ReceiveRequest apples Response.zero w))) = [] /\
  Requests (mem (snd (ReceiveRequest apples Response.zero w)))
    <> Requests (mem w) ++ [apples].
Proof.
  cbv zeta. split; [reflexivity|]. split; [reflexivity|]. discriminate.
Qed.

(** *** The request handler and the start of the process *)

(** C2. Whatever Trader receives a request, leader or not, and whatever post
    the request names, ReceiveRequest returns one Response, with Processed
    set, the status Success and the request's RequestID echoed, and a nil
    error; the Response depends on the request alone. *)
Theorem ReceiveRequest_always_acknowledges
    (req : Request.t) (res : Response.t) (w : World Trader Incoming) :
  Response.Processed (fst (fst (ReceiveRequest req res w))) = true /\
  Response.Status (fst (fst (ReceiveRequest req res w))) = "Success" /\
  Response.RequestID (fst (fst (ReceiveRequest req res w))) = Request.RequestID req /\
  snd (fst (ReceiveRequest req res w)) = None /\
  forall res' w', fst (ReceiveRequest req res' w') = fst (ReceiveRequest req res w).
Proof.
  unfold ReceiveRequest. run. repeat split.
Qed.

(** C10. The Trader that [main] builds is the leader exactly when its [-id]
    is 1; a Trader with another id starts as no leader, and no other flag has
    a say in it. *)
Theorem main_leader_iff_id_1 (f : Flags) (t : Trader) :
  main f = Some t ->
  ID t = flag_id f /\
  (IsLeader t = true <-> flag_id f = 1) /\
  (flag_id f <> 1 -> IsLeader t = false) /\
  forall f' t', main f' = Some t' -> flag_id f' = flag_id f -> IsLeader t' = IsLeader t.
Proof.
  unfold main. intros H.
  destruct (_ || _); [discriminate|]. injection H as <-. cbn.
  split; [reflexivity|]. split; [apply Z.eqb_eq|]. split.
  - intros Hne. now apply Z.eqb_neq.
  - intros f' t' H' Hid. destruct (_ || _); [discriminate|].
    injection H' as <-. cbn. now rewrite Hid.
Qed.

(** The two Traders of [run.sh], and a command line without flags. *)
Example main_run_sh :
  main flags1 = Some trader1 /\
  main flags2 = Some (mkTrader 2 "localhost:8002" "localhost:8001" 2 false false []) /\
  main defaultFlags = None.
Proof. repeat split. Qed.

(** Trader 1 of [run.sh] starts as the leader. *)
Lemma main_leader_iff_id_1_witness :
  ID trader1 = 1 /\
  (IsLeader trader1 = true <-> 1 = 1) /\
  (1 <> 1 -> IsLeader trader1 = false) /\
  forall f' t', main f' = Some t' -> flag_id f' = 1 -> IsLeader t' = IsLeader trader1.
Proof.
  apply (@main_leader_iff_id_1 flags1 trader1). reflexivity.
Defined.

(** Trader 2 of [run.sh], no leader so far, takes over at the first heartbeat
    that finds Trader 1 gone. *)
Lemma SendHeartbeat_single_miss_witness :
  IsLeader (mem (boot trader2 peer_gone)) = false /\
  IsLeader (mem (snd (SendHeartbeat (boot trader2 peer_gone)))) = true.
Proof.
  split; [reflexivity|].
  apply (@SendHeartbeat_single_miss (boot trader2 peer_gone)).
  left. unfold connection_fails. cbn. discriminate.
Defined.

End TraderFacts.

(** ** Facts about seller/seller.go *)

Module SellerFacts.
Import Seller SellerSpec.

Lemma only_leader_refl s : only_leader s s.
Proof. repeat split. Qed.

Lemma only_leader_trans s1 s2 s3 :
  only_leader s1 s2 -> only_leader s2 s3 -> only_leader s1 s3.
Proof. unfold only_leader; intuition congruence. Qed.

Lemma seller_serves i w : handled only_leader updating w (snd (serve i w)).
Proof.
  destruct i as [a]; split; simpl; try reflexivity; try (repeat split).
  eexists. split; [rewrite <- !app_assoc; reflexivity|]. repeat constructor.
Qed.

Lemma seller_blocked_clock w : clock (snd (block serve w)) = S (clock w).
Proof. exact (block_clock serve only_leader_refl only_leader_trans seller_serves w). Qed.

Lemma seller_blocked_net w : net (snd (block serve w)) = net w.
Proof. exact (block_net serve only_leader_refl only_leader_trans seller_serves w). Qed.

Lemma seller_blocked_cur w : cur (snd (block serve w)) = cur w.
Proof. exact (block_cur serve only_leader_refl only_leader_trans seller_serves w). Qed.

Lemma seller_blocked_mem w : only_leader (mem w) (mem (snd (block serve w))).
Proof. exact (block_mem serve only_leader_refl only_leader_trans seller_serves w). Qed.

Lemma seller_blocked_trace w : trace (snd (block serve w)) = trace w ++ arrivals serve w.
Proof. exact (block_trace serve only_leader_refl only_leader_trans seller_serves w). Qed.

Lemma seller_blocked_arrivals w : Forall (fun e => updating (ev_act e)) (arrivals serve w).
Proof. exact (arrivals_within serve only_leader_refl only_leader_trans seller_serves w). Qed.

#[export] Hint Rewrite seller_blocked_clock seller_blocked_net seller_blocked_cur
  seller_blocked_trace : world.

Lemma slept_app es1 es2 : slept (es1 ++ es2) = slept es1 ++ slept es2.
Proof.
  induction es1 as [|e es1 IH]; simpl; [reflexivity|].
  destruct (ev_act e); simpl; now rewrite IH.
Qed.

Lemma updating_quiet es :
  Forall (fun e => updating (ev_act e)) es ->
  dialed es = [] /\ called es = [] /\ slept es = [] /\ written FRequestID es = [].
Proof.
  induction 1 as [|e es He _ (Hd & Hc & Hs & Hw)]; simpl; [auto|].
  destruct (ev_act e) as [| | |f v| | | | |]; simpl in *; try tauto.
  destruct f; simpl in *; tauto.
Qed.

Lemma serve_all_last ups a : forall n k w,
  TraderAddr (mem (snd (serve_all serve n k (ups ++ [InUpdateLeader a]) w))) = a.
Proof.
  induction ups as [|u ups IH]; intros n k w.
  - reflexivity.
  - cbn [app serve_all]. unfold bind at 1 2 3 4. cbn [fst snd]. apply IH.
Qed.

Lemma seller_blocks w : blocks w (snd (block serve w)) (arrivals serve w).
Proof.
  split.
  - apply seller_blocked_trace.
  - apply seller_blocked_clock.
  - apply seller_blocked_net.
  - apply seller_blocked_cur.
  - apply seller_blocked_mem.
  - apply seller_blocked_arrivals.
  - intros ups a H. unfold block; cbn. rewrite H. apply serve_all_last.
Qed.

(** Names the world in which a blocked goroutine resumes. *)
Ltac resume :=
  match goal with
  | |- context [snd (block serve ?w)] =>
      lazymatch w with
      | context [block] => fail
      | _ =>
          let B := fresh "B" in
          let w1 := fresh "w" in
          let hs := fresh "hs" in
          pose proof (seller_blocks w) as B;
          rewrite ?seller_blocked_trace;
          generalize dependent (arrivals serve w); intros hs B;
          generalize dependent (snd (block serve w)); intros w1 B
      end
  end.

Ltac resumed :=
  repeat match goal with
  | B : blocks _ ?w1 _ |- _ =>
      first [ rewrite (b_clock B) | rewrite (b_net B) | rewrite (b_cur B)
            | rewrite (b_trace B) ]
  end.

(** Runs a method of the Seller symbolically up to the next choice of the
    network. *)
Ltac srun :=
  repeat (progress (
    unfold bind, getID, getPost, readTraderAddr, writeTraderAddr, readRequestID,
      writeRequestID, logPrintf, get_mem, put_mem, ret, emit;
    cbn;
    rewrite ?rpcDial_eq, ?rpcCall_eq, ?timeSleep_eq;
    repeat resume;
    autorewrite with world; resumed; cbn)).

(** What the blocked goroutine finds on resuming, as equations. *)
Ltac frames :=
  repeat match goal with
  | B : blocks _ _ _ |- _ =>
      let Hm := fresh "Hm" in
      let Hq := fresh "Hq" in
      pose proof (b_mem B) as Hm; pose proof (updating_quiet (b_quiet B)) as Hq;
      autorewrite with world in Hm;
      destruct Hm as (? & ? & ? & ?); destruct Hq as (? & ? & ? & ?);
      clear B
  end.

(** Reads a trace through its projections. *)
Ltac observe :=
  repeat (rewrite ?dialed_app, ?called_app, ?slept_app, ?written_app; cbn);
  repeat match goal with
  | H : dialed _ = [] |- _ => rewrite H
  | H : called _ = [] |- _ => rewrite H
  | H : slept _ = [] |- _ => rewrite H
  | H : written _ _ = [] |- _ => rewrite H
  end; cbn.

Lemma SendRequest_turn_spec req reqID w :
  exists es,
    trace (snd (SendRequest_turn req reqID w)) = trace w ++ es /\
    dialed es = [TraderAddr (mem w)] /\
    (forall c, In c (called es) ->
       c = (TraderAddr (mem w), "Trader.ReceiveRequest", VRequest req)) /\
    written FRequestID es = [] /\
    slept es = (if acknowledged req reqID w then [] else [5]) /\
    (if acknowledged req reqID w
     then exists c, fst (SendRequest_turn req reqID w) = inl c
     else exists c, fst (SendRequest_turn req reqID w) = inr c) /\
    only_leader (mem w) (mem (snd (SendRequest_turn req reqID w))) /\
    net (snd (SendRequest_turn req reqID w)) = net w /\
    cur (snd (SendRequest_turn req reqID w)) = cur w.
Proof.
  destruct (SendRequest_turn req reqID w) as [r w'] eqn:E. cbn [fst snd].
  revert E. unfold SendRequest_turn, acknowledged. srun.
  destruct (fail (net w (clock w)) (TraderAddr (mem w))) as [err|] eqn:Hdial; srun.
  - intros [= <- <-]. srun. frames.
    eexists. split; [trace_eq|]. observe.
    repeat split; eauto; try congruence; tauto.
  - destruct (fail (net w (S (clock w))) (TraderAddr (mem w))) as [err|] eqn:Hcall; srun.
    + intros [= <- <-]. srun. frames.
      eexists. split; [trace_eq|]. observe.
      repeat split; eauto; try congruence.
      intros c [<-|[]]. reflexivity.
    + destruct (Response.Processed _ && _) eqn:Hack; srun;
        intros [= <- <-]; srun; frames;
        (eexists; split; [trace_eq|]); observe;
        repeat split; eauto; try congruence;
        intros c [<-|[]]; reflexivity.
Qed.

#[local] Arguments SendRequest_turn : simpl never.

Lemma SendRequest_for_step turns req reqID defers w :
  SendRequest_for (S turns) req reqID defers w =
  match fst (SendRequest_turn req reqID w) with
  | inl c => (Some (defer c defers), snd (SendRequest_turn req reqID w))
  | inr c => SendRequest_for turns req reqID (defer c defers)
               (snd (SendRequest_turn req reqID w))
  end.
Proof.
  cbn [SendRequest_for]. unfold bind.
  destruct (fst (SendRequest_turn req reqID w)); reflexivity.
Qed.

#[local] Arguments SendRequest_for : simpl never.

Lemma SendRequest_eq turns w :
  SendRequest turns w =
  match fst (SendRequest_for turns (request_of w) (allocated w) [] (prepared w)) with
  | Some defers =>
      (Some tt,
       snd (run_defers defers
              (snd (SendRequest_for turns (request_of w) (allocated w) [] (prepared w)))))
  | None =>
      (None, snd (SendRequest_for turns (request_of w) (allocated w) [] (prepared w)))
  end.
Proof.
  unfold SendRequest, bind, getID, getPost, readRequestID, writeRequestID, get_mem,
    put_mem, ret, emit. cbn.
  fold (allocated w). fold (request_of w). fold (prepared w).
  destruct (fst (SendRequest_for _ _ _ _ _)); reflexivity.
Qed.

Lemma SendRequest_for_returns req reqID turns : forall defers w,
  (exists ds, fst (SendRequest_for turns req reqID defers w) = Some ds) <->
  (exists k, (k < turns)%nat /\ acknowledged req reqID (after_turns k req reqID w) = true).
Proof.
  induction turns as [|n IH]; intros defers w.
  - split.
    + intros [ds H]. discriminate.
    + intros (k & Hk & _). lia.
  - rewrite SendRequest_for_step.
    destruct (SendRequest_turn_spec req reqID w) as (es & _ & _ & _ & _ & _ & Hr & _).
    destruct (acknowledged req reqID w) eqn:Hack.
    + destruct Hr as [c ->]. cbn [fst]. split.
      * intros _. exists 0%nat. split; [lia|exact Hack].
      * intros _. eexists; reflexivity.
    + destruct Hr as [c ->]. rewrite IH. split.
      * intros (k & Hk & Ha). exists (S k). split; [lia|exact Ha].
      * intros ([|k] & Hk & Ha); [cbn in Ha; congruence|].
        exists k. split; [lia|exact Ha].
Qed.

Lemma SendRequest_for_goes_on req reqID turns : forall defers w,
  (forall k, (k < turns)%nat -> acknowledged req reqID (after_turns k req reqID w) = false) ->
  fst (SendRequest_for turns req reqID defers w) = None /\
  snd (SendRequest_for turns req reqID defers w) = after_turns turns req reqID w.
Proof.
  induction turns as [|n IH]; intros defers w H.
  - split; reflexivity.
  - rewrite SendRequest_for_step.
    destruct (SendRequest_turn_spec req reqID w) as (es & _ & _ & _ & _ & _ & Hr & _).
    assert (H0 : acknowledged req reqID w = false) by (apply (H 0%nat); lia).
    rewrite H0 in Hr. destruct Hr as [c ->].
    apply IH. intros k Hk. apply (H (S k)). lia.
Qed.

Lemma after_turns_trace req reqID n : forall w,
  (forall k, (k < n)%nat -> acknowledged req reqID (after_turns k req reqID w) = false) ->
  exists es,
    trace (after_turns n req reqID w) = trace w ++ es /\
    List.length (dialed es) = n /\
    slept es = repeat 5 n.
Proof.
  induction n as [|n IH]; intros w H.
  - exists []. cbn. now rewrite app_nil_r.
  - destruct (SendRequest_turn_spec req reqID w)
      as (es & Ht & Hd & _ & _ & Hs & _).
    assert (H0 : acknowledged req reqID w = false) by (apply (H 0%nat); lia).
    rewrite H0 in Hs.
    destruct (IH (snd (SendRequest_turn req reqID w))) as (es' & Ht' & Hd' & Hs').
    { intros k Hk. apply (H (S k)). lia. }
    exists (es ++ es'). cbn [after_turns].
    rewrite Ht', Ht, dialed_app, slept_app, Hd, Hs, Hs', length_app, Hd', app_assoc.
    auto.
Qed.

(** The four ways in which an attempt is not acknowledged. *)
Lemma not_acknowledged req reqID w :
  acknowledged req reqID w = false <->
  let addr := TraderAddr (mem w) in
  let res := reply_response (net w (S (clock w))) addr req in
  fail (net w (clock w)) addr <> None \/
  fail (net w (S (clock w))) addr <> None \/
  Response.Processed res = false \/
  Response.RequestID res <> reqID.
Proof.
  unfold acknowledged. cbv zeta.
  destruct (fail (net w (clock w)) (TraderAddr (mem w))) as [e|].
  { split; [left; discriminate|reflexivity]. }
  destruct (fail (net w (S (clock w))) (TraderAddr (mem w))) as [e|].
  { split; [right; left; discriminate|reflexivity]. }
  rewrite andb_false_iff, Z.eqb_neq. tauto.
Qed.

(** C3. SendRequest returns exactly when one of its attempts is acknowledged:
    a response arrives with Processed set and the allocated sequence number
    echoed.  An attempt is not acknowledged when the connection fails, the
    call fails, Processed is not set or another number is echoed; as long as
    no attempt is, the loop is still going round after any number of turns,
    with one attempt and one backoff of 5 seconds per turn, and SendRequest,
    which returns no value, has reported nothing. *)
Theorem SendRequest_retries_until_acknowledged (turns : nat) (w : World Seller Incoming) :
  let req := request_of w in
  let reqID := allocated w in
  (fst (SendRequest turns w) = Some tt <->
   exists k, (k < turns)%nat /\
     acknowledged req reqID (after_turns k req reqID (prepared w)) = true) /\
  (forall w', acknowledged req reqID w' = false <->
     fail (net w' (clock w')) (TraderAddr (mem w')) <> None \/
     fail (net w' (S (clock w'))) (TraderAddr (mem w')) <> None \/
     Response.Processed
       (reply_response (net w' (S (clock w'))) (TraderAddr (mem w')) req) = false \/
     Response.RequestID
       (reply_response (net w' (S (clock w'))) (TraderAddr (mem w')) req) <> reqID) /\
  ((forall k, (k < turns)%nat ->
      acknowledged req reqID (after_turns k req reqID (prepared w)) = false) ->
   fst (SendRequest turns w) = None /\
   exists es,
     trace (snd (SendRequest turns w)) = trace (prepared w) ++ es /\
     List.length (dialed es) = turns /\
     slept es = repeat 5 turns).
Proof.
  cbv zeta. split; [|split].
  - rewrite SendRequest_eq, <- SendRequest_for_returns with (defers := []).
    destruct (fst (SendRequest_for _ _ _ _ _)) as [ds|]; cbn [fst]; split.
    + intros _. now exists ds.
    + reflexivity.
    + discriminate.
    + intros [ds H]. discriminate.
  - intros w'. apply not_acknowledged.
  - intros H. rewrite SendRequest_eq.
    destruct (@SendRequest_for_goes_on (request_of w) (allocated w) turns [] (prepared w) H)
      as [-> ->].
    cbn [fst snd]. split; [reflexivity|].
    apply after_turns_trace, H.
Qed.

(** Seller 1 while Trader 1 is gone: the first attempt fails, Trader 2
    announces itself during the backoff, and the second attempt, at Trader 2,
    is acknowledged for the same sequence number. *)
Example SendRequest_across_failover :
  let r := SendRequest 2 (boot seller1 failover) in
  fst r = Some tt /\
  dialed (trace (snd r)) = ["localhost:8001"; "localhost:8002"] /\
  called (trace (snd r)) =
    [("localhost:8002", "Trader.ReceiveRequest",
      VRequest (Request.mk 1 1 "apples" 10 1))] /\
  slept (trace (snd r)) = [5] /\
  allocations (trace (snd r)) = [1] /\
  mem (snd r) = mkSeller 1 "localhost:8003" "localhost:8002" 1 1.
Proof. cbv zeta. repeat split. Qed.

(** *** A leader update that arrives during the backoff *)

Lemma backoff_applies_update req reqID w ups a :
  acknowledged req reqID w = false ->
  incoming (net w (backoff_tick w)) = ups ++ [InUpdateLeader a] ->
  TraderAddr (mem (snd (SendRequest_turn req reqID w))) = a.
Proof.
  destruct (SendRequest_turn req reqID w) as [r w'] eqn:E. cbn [fst snd].
  revert E. unfold SendRequest_turn, acknowledged, backoff_tick. srun.
  destruct (fail (net w (clock w)) (TraderAddr (mem w))) as [err|] eqn:Hdial; srun.
  - intros [= <- <-] _ Hin. srun.
    match goal with B : blocks _ ?w1 _ |- TraderAddr (mem ?w1) = _ =>
      apply (b_last B ups) end.
    srun. exact Hin.
  - destruct (fail (net w (S (clock w))) (TraderAddr (mem w))) as [err|] eqn:Hcall; srun.
    + intros [= <- <-] _ Hin. srun.
      match goal with B : blocks _ ?w1 _ |- TraderAddr (mem ?w1) = _ =>
        apply (b_last B ups) end.
      srun. exact Hin.
    + destruct (Response.Processed _ && _) eqn:Hack; srun; [discriminate|].
      intros [= <- <-] _ Hin. srun.
      match goal with B : blocks _ ?w1 _ |- TraderAddr (mem ?w1) = _ =>
        apply (b_last B ups) end.
      srun. exact Hin.
Qed.

(** C7. When an attempt is not acknowledged and a leader update with address
    [a] is the last to arrive while the loop backs off, the loop goes round
    again and its next turn dials [a]: every turn dials the address that the
    Seller believes in when the turn starts.  The request sent again is the
    same one, with the same sequence number, and the Seller's counter is what
    it was. *)
Theorem leader_update_during_backoff
    (req : Request.t) (reqID : Z) (w : World Seller Incoming)
    (ups : list Incoming) (a : string) :
  acknowledged req reqID w = false ->
  incoming (net w (backoff_tick w)) = ups ++ [InUpdateLeader a] ->
  let w' := snd (SendRequest_turn req reqID w) in
  (forall turns defers,
     exists c, SendRequest_for (S turns) req reqID defers w
               = SendRequest_for turns req reqID (defer c defers) w') /\
  TraderAddr (mem w') = a /\
  RequestID (mem w') = RequestID (mem w) /\
  exists es,
    trace (snd (SendRequest_turn req reqID w')) = trace w' ++ es /\
    dialed es = [a] /\
    (forall c, In c (called es) -> c = (a, "Trader.ReceiveRequest", VRequest req)).
Proof.
  intros Hack Hin w'.
  assert (Ha : TraderAddr (mem w') = a) by (eapply backoff_applies_update; eassumption).
  destruct (SendRequest_turn_spec req reqID w)
    as (es & _ & _ & _ & _ & _ & Hr & (_ & _ & _ & Hid) & _).
  rewrite Hack in Hr. destruct Hr as [c Hr].
  split; [|split; [exact Ha|split; [exact Hid|]]].
  - intros turns defers. exists c. rewrite SendRequest_for_step, Hr. reflexivity.
  - destruct (SendRequest_turn_spec req reqID w') as (es' & Ht & Hd & Hc & _).
    exists es'. rewrite Ha in Hd, Hc. auto.
Qed.

(** *** The sequence counter *)

Lemma incr_below_max z : min_int <= z < max_int -> incr z = z + 1.
Proof.
  unfold incr, wrap, min_int, max_int, int_bits. intros H.
  rewrite Z.mod_small; lia.
Qed.

Lemma SendRequest_for_frame req reqID turns : forall defers w,
  exists es,
    trace (snd (SendRequest_for turns req reqID defers w)) = trace w ++ es /\
    written FRequestID es = [] /\
    only_leader (mem w) (mem (snd (SendRequest_for turns req reqID defers w))) /\
    net (snd (SendRequest_for turns req reqID defers w)) = net w /\
    cur (snd (SendRequest_for turns req reqID defers w)) = cur w.
Proof.
  induction turns as [|n IH]; intros defers w.
  - exists []. cbn. rewrite app_nil_r. auto using only_leader_refl.
  - rewrite SendRequest_for_step.
    destruct (SendRequest_turn_spec req reqID w)
      as (es & Ht & _ & _ & Hw & _ & _ & Hm & Hn & Hc).
    destruct (fst (SendRequest_turn req reqID w)) as [c|c]; cbn [snd].
    + exists es. auto.
    + destruct (IH (defer c defers) (snd (SendRequest_turn req reqID w)))
        as (es' & Ht' & Hw' & Hm' & Hn' & Hc').
      exists (es ++ es'). rewrite Ht', Ht, written_app, Hw, Hw', app_assoc.
      split; [reflexivity|]. split; [reflexivity|].
      split; [eapply only_leader_trans; eassumption|].
      split; congruence.
Qed.

Lemma written_closes f g (ds : list Client) :
  written f (map (fun c => mkEvent g (Close c)) ds) = [].
Proof. induction ds; simpl; auto. Qed.

Lemma prepared_facts w :
  trace (prepared w) =
    trace w ++
      [mkEvent (cur w) (Lock RequestLock);
       mkEvent (cur w) (Read FRequestID (VInt (RequestID (mem w))));
       mkEvent (cur w) (Write FRequestID (VInt (allocated w)));
       mkEvent (cur w) (Read FRequestID (VInt (allocated w)));
       mkEvent (cur w) (Unlock RequestLock)] /\
  RequestID (mem (prepared w)) = allocated w /\
  TraderAddr (mem (prepared w)) = TraderAddr (mem w) /\
  net (prepared w) = net w /\
  cur (prepared w) = cur w /\
  clock (prepared w) = clock w.
Proof.
  unfold prepared. cbv zeta. autorewrite with world. cbn.
  split; [trace_eq|]. auto.
Qed.

Lemma SendRequest_counter turns w :
  exists es,
    trace (snd (SendRequest turns w)) = trace w ++ es /\
    written FRequestID es = [VInt (allocated w)] /\
    RequestID (mem (snd (SendRequest turns w))) = allocated w /\
    net (snd (SendRequest turns w)) = net w /\
    cur (snd (SendRequest turns w)) = cur w.
Proof.
  rewrite SendRequest_eq.
  destruct (SendRequest_for_frame (request_of w) (allocated w) turns [] (prepared w))
    as (es & Ht & Hw & (_ & _ & _ & Hid) & Hn & Hc).
  destruct (prepared_facts w) as (Hp & Hpid & _ & Hpn & Hpc & _).
  destruct (fst (SendRequest_for _ _ _ _ _)) as [ds|]; cbn [snd].
  - eexists. autorewrite with world. rewrite Ht, Hp, Hid, Hn, Hc.
    split; [trace_eq|].
    cbn. rewrite !written_app, Hw, written_closes. auto.
  - eexists. rewrite Ht, Hp, Hid, Hn, Hc.
    split; [trace_eq|].
    cbn. rewrite Hw. auto.
Qed.

#[local] Arguments SendRequest : simpl never.

Lemma iter_incr_bounded (z : Z) (i : nat) :
  min_int <= z -> z + Z.of_nat i <= max_int -> Nat.iter i incr z = z + Z.of_nat i.
Proof.
  intros Hlo. induction i as [|i IH]; intros Hhi.
  - cbn. lia.
  - rewrite Nat.iter_succ, IH by lia. rewrite incr_below_max; lia.
Qed.

Lemma increasing_from (z : Z) (k a : nat) :
  (0 < a)%nat ->
  StronglySorted Z.lt (z :: map (fun i => z + Z.of_nat i) (seq a k)).
Proof.
  intros Ha. constructor.
  - revert a Ha. induction k as [|k IH]; intros a Ha; cbn; constructor.
    + apply IH. lia.
    + apply Forall_forall. intros x Hx. apply in_map_iff in Hx.
      destruct Hx as (i & <- & Hi). apply in_seq in Hi. lia.
  - apply Forall_forall. intros x Hx. apply in_map_iff in Hx.
    destruct Hx as (i & <- & Hi). apply in_seq in Hi. lia.
Qed.

Lemma numbers_app es1 es2 : numbers (es1 ++ es2) = numbers es1 ++ numbers es2.
Proof. unfold numbers. now rewrite called_app, flat_map_app. Qed.

Lemma allocations_app es1 es2 : allocations (es1 ++ es2) = allocations es1 ++ allocations es2.
Proof. unfold allocations, ints. now rewrite written_app, flat_map_app. Qed.

(** The calls that carry the request [req] and nothing else. *)
Lemma numbers_of_request req (cs : list (string * string * Value)) :
  Forall (fun c => snd c = VRequest req) cs ->
  flat_map (fun c => match snd c with
                     | VRequest r => [Request.RequestID r]
                     | _ => []
                     end) cs
  = repeat (Request.RequestID req) (List.length cs).
Proof.
  induction 1 as [|c cs Hc _ IH]; [reflexivity|].
  cbn. rewrite Hc, IH. reflexivity.
Qed.

Lemma SendRequest_for_calls req reqID turns : forall defers w,
  exists es,
    trace (snd (SendRequest_for turns req reqID defers w)) = trace w ++ es /\
    written FRequestID es = [] /\
    Forall (fun c => snd c = VRequest req) (called es) /\
    only_leader (mem w) (mem (snd (SendRequest_for turns req reqID defers w))) /\
    cur (snd (SendRequest_for turns req reqID defers w)) = cur w.
Proof.
  induction turns as [|n IH]; intros defers w.
  - exists []. unfold SendRequest_for, ret. cbn. rewrite app_nil_r.
    auto using only_leader_refl.
  - rewrite SendRequest_for_step.
    destruct (SendRequest_turn_spec req reqID w)
      as (es & Ht & _ & Hk & Hw & _ & _ & Hm & _ & Hc).
    assert (Hk' : Forall (fun c => snd c = VRequest req) (called es)).
    { apply Forall_forall. intros c Hin. now rewrite (Hk c Hin). }
    destruct (fst (SendRequest_turn req reqID w)) as [c|c]; cbn [snd].
    + exists es. auto.
    + destruct (IH (defer c defers) (snd (SendRequest_turn req reqID w)))
        as (es' & Ht' & Hw' & Hk'' & Hm' & Hc').
      exists (es ++ es'). rewrite Ht', Ht, written_app, called_app, Hw, Hw', app_assoc.
      split; [reflexivity|]. split; [reflexivity|].
      split; [now apply Forall_app|].
      split; [eapply only_leader_trans; eassumption|congruence].
Qed.

(** One invocation: it allocates the successor of the counter, once, and
    every request it sends carries that number. *)
Lemma SendRequest_numbers turns w :
  exists es,
    trace (snd (SendRequest turns w)) = trace w ++ es /\
    allocations es = [allocated w] /\
    numbers es = repeat (allocated w) (List.length (called es)) /\
    Forall (fun c => snd c = VRequest (request_of w)) (called es) /\
    RequestID (mem (snd (SendRequest turns w))) = allocated w.
Proof.
  rewrite SendRequest_eq.
  destruct (SendRequest_for_calls (request_of w) (allocated w) turns [] (prepared w))
    as (es & Ht & Hw & Hk & (_ & _ & _ & Hid) & Hc).
  destruct (prepared_facts w) as (Hp & Hpid & _ & _ & Hpc & _).
  rewrite Hp in Ht. rewrite Hpid in Hid.
  assert (Hnum : forall cs : list (string * string * Value), Forall (fun c => snd c = VRequest (request_of w)) cs ->
            flat_map (fun c => match snd c with
                               | VRequest r => [Request.RequestID r]
                               | _ => []
                               end) cs = repeat (allocated w) (List.length cs)).
  { intros cs H. now rewrite (numbers_of_request H). }
  destruct (fst (SendRequest_for _ _ _ _ _)) as [ds|]; cbn [snd].
  - match type of Ht with _ = (_ ++ ?p) ++ _ =>
      exists (p ++ es ++ map (fun c => mkEvent
        (cur (snd (SendRequest_for turns (request_of w) (allocated w) [] (prepared w))))
        (Close c)) ds) end.
    autorewrite with world. rewrite Ht.
    split; [trace_eq|].
    assert (Hcalled : called
      ([mkEvent (cur w) (Lock RequestLock);
        mkEvent (cur w) (Read FRequestID (VInt (RequestID (mem w))));
        mkEvent (cur w) (Write FRequestID (VInt (allocated w)));
        mkEvent (cur w) (Read FRequestID (VInt (allocated w)));
        mkEvent (cur w) (Unlock RequestLock)] ++ es ++
       map (fun c => mkEvent
        (cur (snd (SendRequest_for turns (request_of w) (allocated w) [] (prepared w))))
        (Close c)) ds) = called es).
    { rewrite !called_app, (proj2 (proj2 (closes_quiet _ ds))), app_nil_r. reflexivity. }
    unfold numbers, allocations. rewrite Hcalled, !written_app, Hw, written_closes.
    split; [reflexivity|]. split; [now apply Hnum|]. split; [exact Hk|exact Hid].
  - match type of Ht with _ = (_ ++ ?p) ++ _ => exists (p ++ es) end.
    rewrite Ht. split; [trace_eq|].
    unfold numbers, allocations. rewrite called_app, written_app, Hw. cbn [called app ev_act].
    split; [reflexivity|]. split; [now apply Hnum|]. split; [exact Hk|exact Hid].
Qed.

(** The parts allocate the successors of [z], one each. *)
Lemma allocations_concat (parts : list (list Event)) : forall z,
  (forall i part, nth_error parts i = Some part ->
     allocations part = [z + Z.of_nat (S i)]) ->
  allocations (List.concat parts)
  = map (fun i => z + Z.of_nat i) (seq 1 (List.length parts)).
Proof.
  induction parts as [|p parts IH]; intros z H; [reflexivity|].
  cbn [List.concat List.length seq map]. rewrite allocations_app, (H 0%nat p eq_refl).
  cbn [app]. f_equal.
  rewrite (IH (z + 1)).
  - rewrite <- (seq_shift (List.length parts) 1), map_map.
    apply map_ext. intros i. lia.
  - intros i part Hi. rewrite (H (S i) part Hi). f_equal. lia.
Qed.

Lemma invocations_bounds turns : forall w,
  (invocations turns w <= List.length turns)%nat /\
  (turns <> [] -> (1 <= invocations turns w)%nat).
Proof.
  induction turns as [|n rest IH]; intros w; cbn [invocations List.length].
  - split; [lia|congruence].
  - split; [|lia].
    destruct (fst (SendRequest n (snd (block serve w)))); [|lia].
    destruct (IH (snd (SendRequest n (snd (block serve w))))) as [H _]. lia.
Qed.

Lemma main_range_parts turns : forall w,
  min_int <= RequestID (mem w) ->
  RequestID (mem w) + Z.of_nat (List.length turns) <= max_int ->
  exists parts,
    trace (snd (main_range turns w)) = trace w ++ List.concat parts /\
    List.length parts = invocations turns w /\
    (forall i part, nth_error parts i = Some part ->
       allocations part = [RequestID (mem w) + Z.of_nat (S i)] /\
       numbers part
       = repeat (RequestID (mem w) + Z.of_nat (S i)) (List.length (called part))) /\
    RequestID (mem (snd (main_range turns w)))
    = RequestID (mem w) + Z.of_nat (invocations turns w).
Proof.
  induction turns as [|n rest IH]; intros w Hlo Hhi.
  - exists []. cbn. rewrite app_nil_r, Z.add_0_r.
    split; [reflexivity|]. split; [reflexivity|]. split; [|reflexivity].
    intros [|i] part; discriminate.
  - cbn [main_range invocations]. unfold bind.
    pose proof (seller_blocks w) as B.
    set (w1 := snd (block serve w)) in *.
    destruct (SendRequest_numbers n w1) as (es & Ht & Ha & Hn & _ & Hid).
    destruct (updating_quiet (b_quiet B)) as (_ & Hqc & _ & Hqw).
    destruct (b_mem B) as (_ & _ & _ & Hr).
    assert (Hal : allocated w1 = RequestID (mem w) + 1).
    { unfold allocated. rewrite Hr. apply incr_below_max.
      cbn [List.length] in Hhi. lia. }
    rewrite Hal in *.
    assert (Hfirst : allocations (arrivals serve w ++ es) = [RequestID (mem w) + 1] /\
              numbers (arrivals serve w ++ es)
              = repeat (RequestID (mem w) + 1) (List.length (called (arrivals serve w ++ es)))).
    { rewrite allocations_app, numbers_app, called_app.
      unfold allocations at 1, numbers at 1. rewrite Hqw, Hqc. cbn [app ints flat_map].
      auto. }
    destruct (fst (SendRequest n w1)) as [[]|]; cbn [snd ret].
    + destruct (IH (snd (SendRequest n w1))) as (parts & Ht' & Hlen & Hparts & Hid').
      { rewrite Hid. lia. }
      { rewrite Hid. cbn [List.length] in Hhi. lia. }
      exists ((arrivals serve w ++ es) :: parts).
      split; [rewrite Ht', Ht, (b_trace B); cbn [List.concat]; trace_eq|].
      split; [cbn [List.length]; now rewrite Hlen|].
      split.
      * intros [|i] part Hi; cbn [nth_error] in Hi.
        { injection Hi as <-. exact Hfirst. }
        destruct (Hparts i part Hi) as (Hpa & Hpn).
        rewrite Hid in Hpa, Hpn.
        replace (RequestID (mem w) + Z.of_nat (S (S i)))
          with (RequestID (mem w) + 1 + Z.of_nat (S i)) by lia.
        auto.
      * rewrite Hid', Hid. lia.
    + exists [arrivals serve w ++ es].
      split; [rewrite Ht, (b_trace B); cbn [List.concat]; rewrite app_nil_r; trace_eq|].
      split; [reflexivity|].
      split.
      * intros [|[|i]] part Hi; cbn [nth_error] in Hi; try discriminate.
        injection Hi as <-. exact Hfirst.
      * rewrite Hid. lia.
Qed.

(** C4, as the code has it.  While the counter stays below the largest
    [int], every invocation of SendRequest that the ticker loop starts
    allocates the successor of the number allocated by the one before, the
    first one the successor of the counter, and every request that it sends,
    at the first attempt and at every later one, carries that number: the
    numbers are the successors of the counter, one after the other, each
    greater than all before it and none used for two requests, whatever
    leader updates arrive meanwhile; and UpdateLeader leaves the counter as
    it is. *)
Theorem sequence_numbers_increase (turns : list nat) (w : World Seller Incoming) :
  min_int <= RequestID (mem w) ->
  RequestID (mem w) + Z.of_nat (List.length turns) <= max_int ->
  (exists parts,
     trace (snd (main_range turns w)) = trace w ++ List.concat parts /\
     List.length parts = invocations turns w /\
     (forall i part, nth_error parts i = Some part ->
        allocations part = [RequestID (mem w) + Z.of_nat (S i)] /\
        numbers part
        = repeat (RequestID (mem w) + Z.of_nat (S i)) (List.length (called part))) /\
     allocations (List.concat parts)
     = map (fun i => RequestID (mem w) + Z.of_nat i) (seq 1 (invocations turns w)) /\
     StronglySorted Z.lt (RequestID (mem w) :: allocations (List.concat parts)) /\
     RequestID (mem (snd (main_range turns w)))
     = RequestID (mem w) + Z.of_nat (invocations turns w)) /\
  (invocations turns w <= List.length turns)%nat /\
  (turns <> [] -> (1 <= invocations turns w)%nat) /\
  (forall a w0, RequestID (mem (snd (UpdateLeader a w0))) = RequestID (mem w0)).
Proof.
  intros Hlo Hhi.
  split; [|split; [apply invocations_bounds|split; [apply invocations_bounds|reflexivity]]].
  destruct (main_range_parts turns w Hlo Hhi) as (parts & Ht & Hlen & Hparts & Hid).
  assert (Ha : allocations (List.concat parts)
               = map (fun i => RequestID (mem w) + Z.of_nat i)
                   (seq 1 (invocations turns w))).
  { rewrite <- Hlen. apply allocations_concat.
    intros i part Hi. apply (Hparts i part Hi). }
  exists parts. rewrite Ha.
  split; [exact Ht|]. split; [exact Hlen|]. split; [exact Hparts|].
  split; [reflexivity|]. split; [|exact Hid].
  apply increasing_from. lia.
Qed.

(** C4, as the spec has it, fails at the largest [int]: the next sequence
    number allocated is the smallest [int], below every number allocated
    before. *)
Lemma counter_wraps_at_max_int :
  let w := boot seller1_at_max acking in
  fst (SendRequest 1 w) = Some tt /\
  allocations (trace (snd (SendRequest 1 w))) = [min_int] /\
  RequestID (mem (snd (SendRequest 1 w))) = min_int /\
  RequestID (mem (snd (SendRequest 1 w))) < RequestID (mem w).
Proof.
  cbv zeta. repeat split.
Qed.

Lemma acking_acknowledges w :
  net w = acking -> fst (SendRequest 1 w) = Some tt.
Proof.
  intros Hnet. rewrite SendRequest_eq.
  destruct (proj2 (SendRequest_for_returns (request_of w) (allocated w) 1 [] (prepared w)))
    as [ds ->]; [|reflexivity].
  exists 0%nat. split; [lia|]. cbn [after_turns].
  destruct (prepared_facts w) as (_ & _ & _ & Hn & _).
  unfold acknowledged. rewrite Hn, Hnet. cbn. apply Z.eqb_refl.
Qed.

Lemma acking_counts n : forall w,
  net w = acking ->
  RequestID (mem (snd (main_range (repeat 1%nat n) w))) = Nat.iter n incr (RequestID (mem w)).
Proof.
  induction n as [|n IH]; intros w Hnet; [reflexivity|].
  cbn [repeat main_range]. unfold bind.
  pose proof (seller_blocks w) as B.
  set (w1 := snd (block serve w)) in *.
  assert (Hnet1 : net w1 = acking) by (rewrite (b_net B); exact Hnet).
  destruct (SendRequest_counter 1 w1) as (es & _ & _ & Hid & Hn & _).
  rewrite (acking_acknowledges w1 Hnet1).
  rewrite IH by congruence.
  rewrite Hid. unfold allocated.
  destruct (b_mem B) as (_ & _ & _ & ->).
  now rewrite Nat.iter_succ_r.
Qed.

(** The counter does reach the largest [int], after as many invocations. *)
Lemma largest_int_is_reached :
  exists n,
    RequestID (mem (snd (main_range (repeat 1%nat n) (boot seller1 acking)))) = max_int.
Proof.
  exists (Z.to_nat max_int).
  rewrite acking_counts by reflexivity.
  change (RequestID (mem (boot seller1 acking))) with 0.
  rewrite iter_incr_bounded.
  - rewrite Z2Nat.id; [reflexivity|]. unfold max_int, int_bits. lia.
  - unfold min_int, int_bits. lia.
  - rewrite Z2Nat.id; unfold max_int, int_bits; lia.
Qed.

(** The first two requests of Seller 1 are numbered 1 and 2. *)
Lemma sequence_numbers_increase_witness :
  let w := boot seller1 acking in
  (exists parts,
     trace (snd (main_range [1; 1]%nat w)) = trace w ++ List.concat parts /\
     List.length parts = invocations [1; 1]%nat w /\
     (forall i part, nth_error parts i = Some part ->
        allocations part = [0 + Z.of_nat (S i)] /\
        numbers part = repeat (0 + Z.of_nat (S i)) (List.length (called part))) /\
     allocations (List.concat parts)
     = map (fun i => 0 + Z.of_nat i) (seq 1 (invocations [1; 1]%nat w)) /\
     StronglySorted Z.lt (0 :: allocations (List.concat parts)) /\
     RequestID (mem (snd (main_range [1; 1]%nat w)))
     = 0 + Z.of_nat (invocations [1; 1]%nat w)) /\
  (invocations [1; 1]%nat w <= 2)%nat /\
  ([1; 1]%nat <> [] -> (1 <= invocations [1; 1]%nat w)%nat) /\
  (forall a w0, RequestID (mem (snd (UpdateLeader a w0))) = RequestID (mem w0)).
Proof.
  apply (sequence_numbers_increase [1; 1]%nat (boot seller1 acking)).
  - cbn. unfold min_int, int_bits. lia.
  - cbn. unfold max_int, int_bits. lia.
Defined.

(** On that run both invocations return, and the requests carry 1 and 2. *)
Example sequence_numbers_of_seller1 :
  let w := boot seller1 acking in
  invocations [1; 1]%nat w = 2%nat /\
  allocations (trace (snd (main_range [1; 1]%nat w))) = [1; 2] /\
  numbers (trace (snd (main_range [1; 1]%nat w))) = [1; 2].
Proof. cbv zeta. repeat split. Qed.

(** *** UpdateLeader *)

(** C5. Applying the same leader update a second time leaves the Seller, and
    so the address it believes in, as the first application left it; every
    application answers with the acknowledgment and a nil error. *)
Theorem UpdateLeader_idempotent (newLeaderAddr : string) (w : World Seller Incoming) :
  let once := snd (UpdateLeader newLeaderAddr w) in
  let twice := snd (UpdateLeader newLeaderAddr once) in
  TraderAddr (mem once) = newLeaderAddr /\
  TraderAddr (mem twice) = TraderAddr (mem once) /\
  mem twice = mem once /\
  fst (UpdateLeader newLeaderAddr w) = ("Leader updated successfully", None) /\
  fst (UpdateLeader newLeaderAddr once) = ("Leader updated successfully", None).
Proof.
  cbv zeta. unfold UpdateLeader. srun. repeat split.
Qed.

(** Seller 1 fails to reach Trader 1, hears of Trader 2 while it backs off,
    and dials Trader 2 next. *)
Lemma leader_update_during_backoff_witness :
  let req := Request.mk 1 1 "apples" 10 1 in
  let w := boot seller1 failover in
  let w' := snd (SendRequest_turn req 1 w) in
  (forall turns defers,
     exists c, SendRequest_for (S turns) req 1 defers w
               = SendRequest_for turns req 1 (defer c defers) w') /\
  TraderAddr (mem w') = "localhost:8002" /\
  RequestID (mem w') = RequestID (mem w) /\
  exists es,
    trace (snd (SendRequest_turn req 1 w')) = trace w' ++ es /\
    dialed es = ["localhost:8002"] /\
    (forall c, In c (called es) ->
       c = ("localhost:8002", "Trader.ReceiveRequest", VRequest req)).
Proof.
  apply (leader_update_during_backoff (Request.mk 1 1 "apples" 10 1) 1
           (boot seller1 failover) [] "localhost:8002"); reflexivity.
Defined.

End SellerFacts.

(** ** Mutual exclusion *)

Module LockingFacts.
Import Locking.

Lemma goroutine_eqb_refl g : goroutine_eqb g g = true.
Proof. destruct g; cbn; [reflexivity|]. now rewrite !Nat.eqb_refl. Qed.

(** C9 on the code.  The increment of the Seller's RequestID is inside
    RequestLock and the Trader's write of Heartbeat inside HeartbeatMu, but
    UpdateLeader assigns TraderAddr, and TakeOverLeadership assigns IsLeader,
    while the goroutine holds no mutex. *)
Theorem TraderAddr_and_IsLeader_unguarded :
  (forall a (w : World Seller.Seller Seller.Incoming),
     exists es,
       trace (snd (Seller.UpdateLeader a w)) = trace w ++ es /\
       unguarded [] es = [mkEvent (cur w) (Write FTraderAddr (VString a))]) /\
  (forall w : World Trader.Trader Trader.Incoming,
     exists es rest,
       trace (snd (Trader.TakeOverLeadership w)) = trace w ++ es /\
       unguarded [] es = mkEvent (cur w) (Write FIsLeader (VBool true)) :: rest) /\
  (forall (w : World Seller.Seller Seller.Incoming),
     exists es,
       trace (SellerSpec.prepared w) = trace w ++ es /\
       written FRequestID es = [VInt (SellerSpec.allocated w)] /\
       unguarded [] es = []) /\
  (forall req (w : World Trader.Trader Trader.Incoming),
     exists es,
       trace (snd (Trader.ReceiveHeartbeat req w)) = trace w ++ es /\
       written FHeartbeat es = [VBool true] /\
       unguarded [] es = []).
Proof.
  split; [|split; [|split]].
  - intros a w. eexists. split.
    + unfold Seller.UpdateLeader. SellerFacts.srun. trace_eq.
    + reflexivity.
  - intros w.
    destruct (TraderFacts.TakeOverLeadership_spec w) as (es & cs & Ht & _).
    eexists. eexists. split; [exact Ht|]. reflexivity.
  - intros w. destruct (SellerFacts.prepared_facts w) as (Ht & _).
    eexists. split; [exact Ht|]. cbn. rewrite goroutine_eqb_refl. cbn. auto.
  - intros req w. eexists. split.
    + unfold Trader.ReceiveHeartbeat. TraderFacts.run. trace_eq.
    + cbn. rewrite goroutine_eqb_refl. cbn. auto.
Qed.

(** Seller 1 while Trader 1 is gone: the ticker goroutine reads TraderAddr
    for its attempts, and the goroutine that serves Trader 2's leader update
    assigns it, neither holding a mutex. *)
Example TraderAddr_race :
  unguarded []
    (trace (snd (Seller.SendRequest 2 (Seller.boot SellerSpec.seller1 SellerSpec.failover))))
  = [mkEvent GMain (Read FTraderAddr (VString "localhost:8001"));
     mkEvent GMain (Read FTraderAddr (VString "localhost:8001"));
     mkEvent (GServe 1 0) (Write FTraderAddr (VString "localhost:8002"));
     mkEvent GMain (Read FTraderAddr (VString "localhost:8002"))].
Proof. reflexivity. Qed.

End LockingFacts.

(** ** The rules for following a run *)

Section TripleRules.

Variables (St In : Type).
Variable serve : In -> M St In unit.
Variable I : St -> Prop.
Variable P : Action -> Prop.

Lemma triple_ret A (a : A) (Q : A -> Prop) : Q a -> triple I P (ret (St:=St) (In:=In) a) Q.
Proof.
  intros H w Hw. cbn. repeat split; auto. exists []. now rewrite app_nil_r.
Qed.

Lemma triple_bind A B (m : M St In A) (k : A -> M St In B) (Q : A -> Prop) (R : B -> Prop) :
  triple I P m Q -> (forall a, Q a -> triple I P (k a) R) -> triple I P (bind m k) R.
Proof.
  intros Hm Hk w Hw. unfold bind.
  destruct (Hm w Hw) as (Hq & Hi & es & Ht & Hp).
  destruct (Hk _ Hq _ Hi) as (Hr & Hi' & es' & Ht' & Hp').
  repeat split; auto.
  exists (es ++ es'). rewrite Ht', Ht, app_assoc. split; [reflexivity|].
  apply Forall_app; auto.
Qed.

Lemma triple_weaken A (m : M St In A) (Q Q' : A -> Prop) :
  triple I P m Q -> (forall a, Q a -> Q' a) -> triple I P m Q'.
Proof.
  intros Hm HQ w Hw. destruct (Hm w Hw) as (Hq & Hi & He). auto.
Qed.

Lemma triple_emit a : P a -> triple I P (emit (St:=St) (In:=In) a) (fun _ => True).
Proof.
  intros H w Hw. cbn. autorewrite with world. repeat split; auto.
  eexists. split; [reflexivity|]. repeat constructor. exact H.
Qed.

Lemma triple_get_mem : triple I P (get_mem (St:=St) (In:=In)) I.
Proof.
  intros w Hw. cbn. repeat split; auto. exists []. now rewrite app_nil_r.
Qed.

Lemma triple_put_mem s : I s -> triple I P (put_mem (In:=In) s) (fun _ => True).
Proof.
  intros H w Hw. cbn. autorewrite with world. repeat split; auto.
  exists []. now rewrite app_nil_r.
Qed.

Lemma triple_get_clock : triple I P (get_clock (St:=St) (In:=In)) (fun _ => True).
Proof.
  intros w Hw. cbn. repeat split; auto. exists []. now rewrite app_nil_r.
Qed.

(** The handlers of the process's own server are within [I] and [P]. *)
Hypothesis serve_ok : forall i, triple I P (serve i) (fun _ => True).

Lemma triple_serve_all l : forall n k, triple I P (serve_all serve n k l) (fun _ => True).
Proof.
  induction l as [|i l IH]; intros n k w Hw.
  - cbn. repeat split; auto. exists []. now rewrite app_nil_r.
  - cbn [serve_all]. unfold bind, get_cur, set_cur. cbn [fst snd].
    destruct (serve_ok i (run_as (GServe n k) w) Hw) as (_ & Hi & es & Ht & Hp).
    destruct (IH n (S k) (run_as (cur w) (snd (serve i (run_as (GServe n k) w)))) Hi)
      as (_ & Hi' & es' & Ht' & Hp').
    repeat split; auto.
    exists (es ++ es'). rewrite Ht'. cbn [run_as trace] in *. rewrite Ht, app_assoc.
    split; [reflexivity|]. apply Forall_app; auto.
Qed.

Lemma triple_block : triple I P (block serve) (fun _ => True).
Proof.
  intros w Hw. unfold block. cbn [fst snd].
  destruct (triple_serve_all (incoming (net w (clock w))) (clock w) 0 w Hw)
    as (_ & Hi & es & Ht & Hp).
  repeat split; auto. exists es. auto.
Qed.

Lemma triple_rpcDial addr :
  (forall err, P (Dial addr err)) ->
  triple I P (rpcDial serve addr)
    (fun r => match r with inl _ => True | inr c => c_addr c = addr end).
Proof.
  intros H. unfold rpcDial.
  eapply triple_bind; [apply triple_get_clock|]. intros now _.
  eapply triple_bind; [apply triple_block|]. intros t _.
  destruct (fail t addr).
  - eapply triple_bind; [apply triple_emit, H|]. intros _ _. now apply triple_ret.
  - eapply triple_bind; [apply triple_emit, H|]. intros _ _. now apply triple_ret.
Qed.

Lemma triple_rpcCall c method arg :
  (forall err, P (Call c method arg err)) ->
  triple I P (rpcCall serve c method arg) (fun _ => True).
Proof.
  intros H. unfold rpcCall.
  eapply triple_bind; [apply triple_block|]. intros t _.
  destruct (fail t (c_addr c)).
  - eapply triple_bind; [apply triple_emit, H|]. intros _ _. now apply triple_ret.
  - eapply triple_bind; [apply triple_emit, H|]. intros _ _. now apply triple_ret.
Qed.

Lemma triple_timeSleep d : P (Sleep d) -> triple I P (timeSleep serve d) (fun _ => True).
Proof.
  intros H. unfold timeSleep.
  eapply triple_bind; [apply triple_block|]. intros _ _. now apply triple_emit.
Qed.

Lemma triple_logPrintf msg :
  P (Log msg) -> triple I P (logPrintf (St:=St) (In:=In) msg) (fun _ => True).
Proof. apply triple_emit. Qed.

Lemma triple_run_defers ds :
  Forall (fun c => P (Close c)) ds -> triple I P (run_defers (St:=St) (In:=In) ds) (fun _ => True).
Proof.
  induction 1 as [|c ds Hc Hds IH].
  - now apply triple_ret.
  - cbn [run_defers]. eapply triple_bind; [apply triple_emit, Hc|]. intros _ _. exact IH.
Qed.

End TripleRules.

(** Proves a triple along the structure of the method. *)
Ltac logic_step :=
  match goal with
  | |- triple _ _ (bind _ _) _ => eapply triple_bind; [|intros ? ?]
  | |- triple _ _ (ret _) ?X =>
      is_evar X; apply triple_ret with (Q := fun _ => True); exact Logic.I
  | |- triple _ _ (ret _) _ => apply triple_ret
  | |- triple _ _ (emit _) _ => apply triple_emit
  | |- triple _ _ (logPrintf _) _ => apply triple_logPrintf
  | |- triple _ _ get_mem _ => apply triple_get_mem
  | |- triple _ _ (put_mem _) _ => apply triple_put_mem
  | |- triple _ _ (match ?r with inl _ => _ | inr _ => _ end) _ => destruct r
  end.

Ltac logic := repeat logic_step.

Section RespectsRules.

Variables (St In : Type).
Variable serve : In -> M St In unit.
Variable sim : St -> St -> Prop.

Lemma respects_ret A (a : A) : respects sim (ret (St:=St) (In:=In) a).
Proof. intros w1 w2 H. split; [reflexivity|exact H]. Qed.

Lemma respects_bind A B (m : M St In A) (k : A -> M St In B) :
  respects sim m -> (forall a, respects sim (k a)) -> respects sim (bind m k).
Proof.
  intros Hm Hk w1 w2 H. unfold bind.
  destruct (Hm w1 w2 H) as [Hv Hw]. rewrite Hv. now apply Hk.
Qed.

Lemma respects_emit a : respects sim (emit (St:=St) (In:=In) a).
Proof.
  intros w1 w2 (Hm & Hc & Hg & Ht & Hn). split; [reflexivity|].
  cbn. unfold alike. autorewrite with world. rewrite Ht, Hg. auto.
Qed.

Lemma respects_read A (f : St -> A) :
  (forall s1 s2, sim s1 s2 -> f s1 = f s2) ->
  respects sim (bind (get_mem (In:=In)) (fun s => ret (f s))).
Proof. intros Hf w1 w2 H. split; [apply Hf, H|exact H]. Qed.

Lemma respects_update (g : St -> St) (a : Action) :
  (forall s1 s2, sim s1 s2 -> sim (g s1) (g s2)) ->
  respects sim (bind (get_mem (In:=In)) (fun s => bind (put_mem (g s)) (fun _ => emit a))).
Proof.
  intros Hg w1 w2 (Hm & Hc & Hcur & Ht & Hn). split; [reflexivity|].
  cbn. unfold alike. autorewrite with world. rewrite Ht, Hcur. auto.
Qed.

Lemma respects_get_clock : respects sim (get_clock (St:=St) (In:=In)).
Proof. intros w1 w2 H. split; [apply H|exact H]. Qed.

(** The handlers of the process's own server respect [sim]. *)
Hypothesis serve_ok : forall i, respects sim (serve i).

Lemma respects_serve_all l : forall n k, respects sim (serve_all serve n k l).
Proof.
  induction l as [|i l IH]; intros n k w1 w2 H.
  - split; [reflexivity|exact H].
  - cbn [serve_all]. unfold bind, get_cur, set_cur. cbn [fst snd].
    destruct H as (Hm & Hc & Hg & Ht & Hn). rewrite Hg.
    apply IH.
    destruct (serve_ok i (w1 := run_as (GServe n k) w1) (w2 := run_as (GServe n k) w2))
      as (_ & Hm' & Hc' & _ & Ht' & Hn').
    { repeat split; auto. }
    repeat split; auto.
Qed.

Lemma respects_block : respects sim (block serve).
Proof.
  intros w1 w2 H. unfold block. cbn [fst snd].
  destruct H as (Hm & Hc & Hg & Ht & Hn). rewrite Hn, Hc. split; [reflexivity|].
  destruct (respects_serve_all (incoming (net w2 (clock w2))) (clock w2) 0
              (w1 := w1) (w2 := w2)) as (_ & Hm' & Hc' & Hg' & Ht' & Hn').
  { repeat split; auto. }
  repeat split; cbn; auto.
Qed.

Lemma respects_rpcDial addr : respects sim (rpcDial serve addr).
Proof.
  unfold rpcDial.
  apply respects_bind; [apply respects_get_clock|]. intros now.
  apply respects_bind; [apply respects_block|]. intros t.
  destruct (fail t addr);
    (apply respects_bind; [apply respects_emit|]; intros _; apply respects_ret).
Qed.

Lemma respects_rpcCall c method arg : respects sim (rpcCall serve c method arg).
Proof.
  unfold rpcCall.
  apply respects_bind; [apply respects_block|]. intros t.
  destruct (fail t (c_addr c));
    (apply respects_bind; [apply respects_emit|]; intros _; apply respects_ret).
Qed.

Lemma respects_timeSleep d : respects sim (timeSleep serve d).
Proof.
  unfold timeSleep.
  apply respects_bind; [apply respects_block|]. intros _. apply respects_emit.
Qed.

Lemma respects_logPrintf msg : respects sim (logPrintf (St:=St) (In:=In) msg).
Proof. apply respects_emit. Qed.

Lemma respects_run_defers ds : respects sim (run_defers (St:=St) (In:=In) ds).
Proof.
  induction ds as [|c ds IH].
  - apply respects_ret.
  - cbn [run_defers]. apply respects_bind; [apply respects_emit|]. intros _. exact IH.
Qed.

End RespectsRules.

Section TracesRules.

Variables (St In : Type).
Variable serve : In -> M St In unit.
Variable T : list Event -> Prop.

(** [T] holds of no event, and of one run after another. *)
Hypothesis T_nil : T [].
Hypothesis T_app : forall es1 es2, T es1 -> T es2 -> T (es1 ++ es2).

Lemma traces_ret A (a : A) : traces T (ret (St:=St) (In:=In) a).
Proof. intros w. exists []. cbn. now rewrite app_nil_r. Qed.

Lemma traces_bind A B (m : M St In A) (k : A -> M St In B) :
  traces T m -> (forall a, traces T (k a)) -> traces T (bind m k).
Proof.
  intros Hm Hk w. unfold bind.
  destruct (Hm w) as (es & Ht & He).
  destruct (Hk (fst (m w)) (snd (m w))) as (es' & Ht' & He').
  exists (es ++ es'). rewrite Ht', Ht, app_assoc. auto.
Qed.

Lemma traces_emit a : (forall g, T [mkEvent g a]) -> traces T (emit (St:=St) (In:=In) a).
Proof. intros H w. eexists. cbn. autorewrite with world. split; [reflexivity|apply H]. Qed.

Lemma traces_get_mem : traces T (get_mem (St:=St) (In:=In)).
Proof. intros w. exists []. cbn. now rewrite app_nil_r. Qed.

Lemma traces_put_mem s : traces T (put_mem (In:=In) (s : St)).
Proof. intros w. exists []. cbn. autorewrite with world. now rewrite app_nil_r. Qed.

Lemma traces_get_clock : traces T (get_clock (St:=St) (In:=In)).
Proof. intros w. exists []. cbn. now rewrite app_nil_r. Qed.

(** The handlers of the process's own server keep to [T]. *)
Hypothesis serve_ok : forall i, traces T (serve i).

Lemma traces_serve_all l : forall n k, traces T (serve_all serve n k l).
Proof.
  induction l as [|i l IH]; intros n k w.
  - exists []. cbn. now rewrite app_nil_r.
  - cbn [serve_all]. unfold bind, get_cur, set_cur. cbn [fst snd].
    destruct (serve_ok i (run_as (GServe n k) w)) as (es & Ht & He).
    destruct (IH n (S k) (run_as (cur w) (snd (serve i (run_as (GServe n k) w)))))
      as (es' & Ht' & He').
    exists (es ++ es'). rewrite Ht'. cbn [run_as trace] in *. rewrite Ht, app_assoc. auto.
Qed.

Lemma traces_block : traces T (block serve).
Proof.
  intros w. unfold block. cbn [fst snd].
  destruct (traces_serve_all (incoming (net w (clock w))) (clock w) 0 w) as (es & Ht & He).
  exists es. auto.
Qed.

Lemma traces_rpcDial addr :
  (forall g err, T [mkEvent g (Dial addr err)]) -> traces T (rpcDial serve addr).
Proof.
  intros H. unfold rpcDial.
  apply traces_bind; [apply traces_get_clock|]. intros now.
  apply traces_bind; [apply traces_block|]. intros t.
  destruct (fail t addr);
    (apply traces_bind; [apply traces_emit; intros g; apply H|]; intros _; apply traces_ret).
Qed.

Lemma traces_rpcCall c method arg :
  (forall g err, T [mkEvent g (Call c method arg err)]) ->
  traces T (rpcCall serve c method arg).
Proof.
  intros H. unfold rpcCall.
  apply traces_bind; [apply traces_block|]. intros t.
  destruct (fail t (c_addr c));
    (apply traces_bind; [apply traces_emit; intros g; apply H|]; intros _; apply traces_ret).
Qed.

Lemma traces_timeSleep d : (forall g, T [mkEvent g (Sleep d)]) -> traces T (timeSleep serve d).
Proof.
  intros H. unfold timeSleep.
  apply traces_bind; [apply traces_block|]. intros _. now apply traces_emit.
Qed.

Lemma traces_run_defers ds :
  (forall g c, T [mkEvent g (Close c)]) -> traces T (run_defers (St:=St) (In:=In) ds).
Proof.
  intros H. induction ds as [|c ds IH].
  - apply traces_ret.
  - cbn [run_defers]. apply traces_bind; [apply traces_emit; intros g; apply H|].
    intros _. exact IH.
Qed.

End TracesRules.

(** ** More facts about trader.go *)

Lemma closed_app (es1 es2 : list Event) : closed (es1 ++ es2) = closed es1 ++ closed es2.
Proof.
  induction es1 as [|[g a] es1 IH]; simpl; [reflexivity|].
  destruct a; simpl; congruence.
Qed.

Lemma closed_local (es : list Event) :
  Forall (fun e => local (ev_act e)) es -> closed es = [].
Proof.
  induction 1 as [|[g a] es H _ IH]; simpl; [reflexivity|].
  destruct a; simpl in *; auto. elim H. exact Logic.I.
Qed.

Module TraderRunsFacts.
Import Trader TraderSpec TraderFacts TraderRuns.

#[local] Arguments NotifySellers : simpl never.
#[local] Arguments TakeOverLeadership : simpl never.

(** *** An acknowledged heartbeat *)

Lemma SendHeartbeat_acknowledged_spec (w : World Trader Incoming) :
  missed w = false ->
  only_heartbeat (mem w) (mem (snd (SendHeartbeat w))) /\
  clock (snd (SendHeartbeat w)) = S (S (clock w)) /\
  exists hs hs',
    trace (snd (SendHeartbeat w)) =
      trace w ++ hs ++ mkEvent (cur w) (Dial (Peer (mem w)) None)
        :: hs' ++ [mkEvent (cur w)
                     (Call (mkClient (Peer (mem w)) (clock w))
                        "Trader.ReceiveHeartbeat" (VInt (ID (mem w))) None);
                   mkEvent (cur w)
                     (Log (heartbeat_acknowledged (ID (mem w)) (Peer (mem w))));
                   mkEvent (cur w) (Close (mkClient (Peer (mem w)) (clock w)))] /\
    Forall (fun e => serving (ev_act e)) hs /\
    Forall (fun e => serving (ev_act e)) hs'.
Proof.
  unfold missed. intros Hm. unfold SendHeartbeat. run.
  destruct (trader_blocked_mem w) as (Hid & Haddr & Hpeer & _).
  destruct (fail (net w (clock w)) (Peer (mem w))) as [err|] eqn:Hdial; [discriminate|].
  run. autorewrite with world. rewrite Hid.
  set (w1 := record (Dial (Peer (mem w)) None) (snd (block serve w))).
  destruct (trader_blocked_mem w1) as (Hid1 & Haddr1 & Hpeer1 & _).
  destruct (fail (net w (S (clock w))) (Peer (mem w))) as [err|] eqn:Hcall; [discriminate|].
  run. autorewrite with world.
  split.
  { eapply only_heartbeat_trans; [apply trader_blocked_mem|].
    apply (trader_blocked_mem w1). }
  split.
  { subst w1. autorewrite with world. reflexivity. }
  exists (arrivals serve w), (arrivals serve w1).
  split; [|split; apply trader_blocked_arrivals].
  rewrite Hid1, Hpeer1. subst w1. autorewrite with world.
  rewrite Hid, Hpeer. unfold heartbeat_acknowledged. trace_eq.
Qed.

(** *** The heartbeat loop *)

Lemma SendHeartbeat_missed (w : World Trader Incoming) :
  missed w = true -> IsLeader (mem (snd (SendHeartbeat w))) = true.
Proof.
  unfold missed. intros Hm. unfold SendHeartbeat. run.
  destruct (fail (net w (clock w)) (Peer (mem w))) as [err|] eqn:Hdial.
  - run.
    match goal with |- context [TakeOverLeadership ?w1] =>
      destruct (TakeOverLeadership_spec w1) as (es & cs & _ & _ & Hl & _) end.
    exact Hl.
  - run. autorewrite with world.
    destruct (fail (net w (S (clock w))) (Peer (mem w))) as [err|] eqn:Hcall;
      [|discriminate].
    run.
    match goal with |- context [TakeOverLeadership ?w1] =>
      destruct (TakeOverLeadership_spec w1) as (es & cs & _ & _ & Hl & _) end.
    exact Hl.
Qed.

Lemma SendHeartbeat_leader (w : World Trader Incoming) :
  IsLeader (mem (snd (SendHeartbeat w))) = IsLeader (mem w) || missed w.
Proof.
  destruct (missed w) eqn:Hm.
  - rewrite orb_true_r. now apply SendHeartbeat_missed.
  - rewrite orb_false_r.
    destruct (SendHeartbeat_acknowledged_spec w Hm) as ((_ & _ & _ & _ & Hl & _) & _).
    exact Hl.
Qed.

Lemma existsb_seq_shift (f : nat -> bool) (a n : nat) :
  existsb f (seq (S a) n) = existsb (fun k => f (S k)) (seq a n).
Proof.
  revert a. induction n as [|n IH]; intros a; cbn; [reflexivity|].
  now rewrite IH.
Qed.

Lemma StartHeartbeat_leader ticks : forall w : World Trader Incoming,
  IsLeader (mem (snd (StartHeartbeat ticks w))) =
  IsLeader (mem w) || existsb (fun k => missed (heartbeat_at k w)) (seq 0 ticks).
Proof.
  induction ticks as [|n IH]; intros w.
  - cbn. now rewrite orb_false_r.
  - cbn [StartHeartbeat]. unfold bind. rewrite IH, SendHeartbeat_leader.
    destruct (trader_blocked_mem w) as (_ & _ & _ & _ & -> & _).
    cbn [seq existsb]. rewrite existsb_seq_shift. cbn [heartbeat_at].
    now rewrite orb_assoc.
Qed.

Lemma serving_unwritten es :
  Forall (fun e => serving (ev_act e)) es -> written FIsLeader es = [].
Proof.
  induction 1 as [|[g a] es He _ IH]; [reflexivity|].
  destruct a as [| | |f v| | | | |]; cbn in *; auto.
  destruct f; cbn; auto; contradiction.
Qed.

(** X1. A heartbeat that the peer acknowledges is no takeover.  The Trader
    dials its peer, calls [Trader.ReceiveHeartbeat] with its own ID over the
    connection it has obtained, and closes that connection; it dials nobody
    else, assigns IsLeader nothing, and is left as the calls served
    meanwhile have made it. *)
Theorem acknowledged_heartbeat_is_no_takeover (w : World Trader Incoming) :
  missed w = false ->
  IsLeader (mem (snd (SendHeartbeat w))) = IsLeader (mem w) /\
  only_heartbeat (mem w) (mem (snd (SendHeartbeat w))) /\
  clock (snd (SendHeartbeat w)) = S (S (clock w)) /\
  dialed (since w (snd (SendHeartbeat w))) = [Peer (mem w)] /\
  called (since w (snd (SendHeartbeat w))) =
    [(Peer (mem w), "Trader.ReceiveHeartbeat", VInt (ID (mem w)))] /\
  closed (since w (snd (SendHeartbeat w))) = [mkClient (Peer (mem w)) (clock w)] /\
  written FIsLeader (since w (snd (SendHeartbeat w))) = [].
Proof.
  intros Hm.
  destruct (SendHeartbeat_acknowledged_spec w Hm) as (Ho & Hc & hs & hs' & Ht & Hs & Hs').
  split; [apply Ho|]. split; [exact Ho|]. split; [exact Hc|].
  unfold since. rewrite Ht, skipn_app, skipn_all, Nat.sub_diag. cbn [skipn app].
  destruct (serving_quiet Hs) as (Hd1 & _ & Hk1).
  destruct (serving_quiet Hs') as (Hd2 & _ & Hk2).
  pose proof (closed_local (serving_all_local Hs)) as Hx1.
  pose proof (closed_local (serving_all_local Hs')) as Hx2.
  pose proof (serving_unwritten Hs) as Hw1.
  pose proof (serving_unwritten Hs') as Hw2.
  rewrite dialed_app, called_app, closed_app, written_app, Hd1, Hk1, Hx1, Hw1.
  cbn [app dialed called closed written ev_act field_eqb].
  rewrite dialed_app, called_app, closed_app, written_app, Hd2, Hk2, Hx2, Hw2.
  cbn. auto.
Qed.

(** Trader 2 while Trader 1 answers. *)
Lemma acknowledged_heartbeat_is_no_takeover_witness :
  IsLeader (mem (snd (SendHeartbeat (boot trader2 quiet_network)))) = false /\
  dialed (since (boot trader2 quiet_network)
            (snd (SendHeartbeat (boot trader2 quiet_network)))) = ["localhost:8001"].
Proof.
  destruct (@acknowledged_heartbeat_is_no_takeover (boot trader2 quiet_network))
    as (Hl & _ & _ & Hd & _); [reflexivity|].
  split; [exact Hl|exact Hd].
Defined.

(** X2. The Trader is the leader after any number of ticks of its heartbeat
    loop exactly when it was the leader before or has missed one of the
    heartbeats: a single miss makes it the leader, and no later heartbeat,
    acknowledged or not, makes it step down. *)
Theorem StartHeartbeat_leader_iff_missed (ticks : nat) (w : World Trader Incoming) :
  IsLeader (mem (snd (StartHeartbeat ticks w))) = true <->
  IsLeader (mem w) = true \/
  exists k, (k < ticks)%nat /\ missed (heartbeat_at k w) = true.
Proof.
  rewrite StartHeartbeat_leader, orb_true_iff, existsb_exists.
  apply or_iff_compat_l. split.
  - intros (k & Hk & Hm). apply in_seq in Hk. exists k. split; [lia|exact Hm].
  - intros (k & Hk & Hm). exists k. split; [apply in_seq; lia|exact Hm].
Qed.

(** Trader 2 finds Trader 1 gone during its second heartbeat only, and is
    the leader still after the fifth. *)
Example StartHeartbeat_no_step_down :
  let w := boot trader2 (refused_during "localhost:8001" [4%nat]) in
  map (fun n => IsLeader (mem (snd (StartHeartbeat n w)))) [0; 1; 2; 3; 5]%nat
  = [false; false; true; true; true].
Proof. reflexivity. Qed.

(** *** What every operation keeps *)

Section Kept.

(** A relation that setting either flag keeps. *)
Variable K : Trader -> Trader -> Prop.
Hypothesis K_refl : forall t, K t t.
Hypothesis K_trans : forall t1 t2 t3, K t1 t2 -> K t2 t3 -> K t1 t3.
Hypothesis K_heartbeat : forall t, K t (with_flags (IsLeader t) true t).
Hypothesis K_leader : forall t, K t (with_flags true (Heartbeat t) t).

Lemma kept_serves i (w : World Trader Incoming) : handled K serving w (snd (serve i w)).
Proof.
  destruct (trader_serves i w) as [Hc Hn Hg _ Ht].
  split; auto.
  destruct i as [req|req]; cbn; [apply K_heartbeat|apply K_refl].
Qed.

Lemma kept_blocked t (w : World Trader Incoming) :
  K t (mem w) -> K t (mem (snd (block serve w))).
Proof.
  intros H. eapply K_trans; [exact H|].
  exact (block_mem serve K_refl K_trans kept_serves w).
Qed.

Lemma kept_leader t (w : World Trader Incoming) :
  K t (mem w) ->
  K t (mkTrader (ID (mem w)) (Address (mem w)) (Peer (mem w)) (Post (mem w)) true
         (Heartbeat (mem w)) (Requests (mem w))).
Proof. intros H. eapply K_trans; [exact H|]. apply K_leader. Qed.

Ltac kept :=
  repeat (autorewrite with world;
          first [ assumption | apply K_refl | apply kept_blocked | apply kept_leader ]).

Lemma kept_range leader addrs : forall t defers (w : World Trader Incoming),
  K t (mem w) -> K t (mem (snd (NotifySellers_range leader addrs defers w))).
Proof.
  induction addrs as [|addr rest IH]; intros t defers w H; [exact H|].
  cbn [NotifySellers_range]. run.
  destruct (fail (net w (clock w)) addr); run; [apply IH; kept|].
  match goal with |- context [match ?x with Some _ => _ | None => _ end] =>
    destruct x end; run; apply IH; kept.
Qed.

#[local] Arguments NotifySellers_range : simpl never.

Lemma kept_notify leader t (w : World Trader Incoming) :
  K t (mem w) -> K t (mem (snd (NotifySellers leader w))).
Proof.
  intros H. unfold NotifySellers, bind. autorewrite with world.
  now apply kept_range.
Qed.

Lemma kept_takeover t (w : World Trader Incoming) :
  K t (mem w) -> K t (mem (snd (TakeOverLeadership w))).
Proof.
  intros H. unfold TakeOverLeadership. run. apply kept_notify. kept.
Qed.

Lemma kept_SendHeartbeat t (w : World Trader Incoming) :
  K t (mem w) -> K t (mem (snd (SendHeartbeat w))).
Proof.
  intros H. unfold SendHeartbeat. run.
  destruct (fail (net w (clock w)) (Peer (mem w))); run;
    [apply kept_takeover; kept|].
  match goal with |- context [match ?x with Some _ => _ | None => _ end] =>
    destruct x end; run; [apply kept_takeover|]; kept.
Qed.

Lemma kept_StartHeartbeat ticks : forall t (w : World Trader Incoming),
  K t (mem w) -> K t (mem (snd (StartHeartbeat ticks w))).
Proof.
  induction ticks as [|n IH]; intros t w H; [exact H|].
  cbn [StartHeartbeat]. unfold bind. apply IH, kept_SendHeartbeat, kept_blocked, H.
Qed.

Lemma kept_perform op (w : World Trader Incoming) : K (mem w) (mem (snd (perform op w))).
Proof.
  destruct op; cbn [perform].
  - run. apply K_heartbeat.
  - run. apply K_refl.
  - apply kept_SendHeartbeat, K_refl.
  - apply kept_StartHeartbeat, K_refl.
  - apply kept_takeover, K_refl.
  - apply kept_notify, K_refl.
  - unfold ForwardRequest. run.
    destruct (fail (net w (clock w)) (Peer (mem w))); run; [kept|].
    match goal with |- context [match ?x with Some _ => _ | None => _ end] =>
      destruct x end; run; kept.
  - unfold SendResponse. run.
    destruct (fail (net w (clock w)) sellerAddr); run; [kept|].
    match goal with |- context [match ?x with Some _ => _ | None => _ end] =>
      destruct x end; run; kept.
Qed.

End Kept.

(** X3. No operation of the Trader clears a flag: a Trader that is the leader
    stays the leader whatever it does and whatever it is sent, so that two
    Traders that have each missed a heartbeat of the other are both leaders
    from then on; and Heartbeat, once set, stays set, also while the peer is
    gone. *)
Theorem flags_never_cleared (op : Operation) (w : World Trader Incoming) :
  (IsLeader (mem w) = true -> IsLeader (mem (snd (perform op w))) = true) /\
  (Heartbeat (mem w) = true -> Heartbeat (mem (snd (perform op w))) = true).
Proof.
  split.
  - apply (@kept_perform (fun t t' => IsLeader t = true -> IsLeader t' = true)); auto.
  - apply (@kept_perform (fun t t' => Heartbeat t = true -> Heartbeat t' = true)); auto.
Qed.

(** *** What the process may be seen doing *)

Section Process.

(** The Trader as [main] built it. *)
Variable t0 : Trader.

Lemma process_getID :
  triple (same_identity t0) (process_action t0) getID (fun z => z = ID t0).
Proof. unfold getID. logic. unfold same_identity in *. tauto. Qed.

Lemma process_getAddress :
  triple (same_identity t0) (process_action t0) getAddress (fun a => a = Address t0).
Proof. unfold getAddress. logic. unfold same_identity in *. tauto. Qed.

Lemma process_getPeer :
  triple (same_identity t0) (process_action t0) getPeer (fun a => a = Peer t0).
Proof. unfold getPeer. logic. unfold same_identity in *. tauto. Qed.

Lemma process_setHeartbeat :
  triple (same_identity t0) (process_action t0) (setHeartbeat true) (fun _ => True).
Proof. unfold setHeartbeat. logic; unfold same_identity in *; cbn; auto. Qed.

Lemma process_setIsLeader :
  triple (same_identity t0) (process_action t0) (setIsLeader true) (fun _ => True).
Proof. unfold setIsLeader. logic; unfold same_identity in *; cbn; auto. Qed.

Ltac process :=
  repeat first
    [ logic_step | apply process_getID | apply process_getAddress | apply process_getPeer
    | apply process_setHeartbeat | apply process_setIsLeader ].

Lemma process_serve i :
  triple (same_identity t0) (process_action t0) (serve i) (fun _ => True).
Proof.
  destruct i as [req|req]; cbn [serve].
  - unfold ReceiveHeartbeat. process; cbn; auto.
  - unfold ReceiveRequest. process; cbn; auto.
Qed.

Lemma process_block :
  triple (same_identity t0) (process_action t0) (block serve) (fun _ => True).
Proof. apply triple_block, process_serve. Qed.

Lemma process_range leader addrs : forall defers,
  leader = Address t0 ->
  incl addrs sellerAddresses ->
  Forall (fun c => In (c_addr c) sellerAddresses) defers ->
  triple (same_identity t0) (process_action t0) (NotifySellers_range leader addrs defers)
    (Forall (fun c => In (c_addr c) sellerAddresses)).
Proof.
  induction addrs as [|addr rest IH]; intros defers Hl Ha Hd.
  - now apply triple_ret.
  - assert (Hin : In addr sellerAddresses) by (apply Ha; now left).
    assert (Hrest : incl rest sellerAddresses) by (intros a H; apply Ha; now right).
    cbn [NotifySellers_range].
    eapply triple_bind.
    { apply triple_rpcDial; [apply process_serve|]. intros err. cbn. now right. }
    intros [err|c] Hc.
    + eapply triple_bind; [apply process_getID|]. intros id _.
      eapply triple_bind; [now apply triple_logPrintf|]. intros _ _.
      now apply IH.
    + eapply triple_bind.
      { apply triple_rpcCall; [apply process_serve|]. intros err. cbn.
        right. rewrite Hc, Hl. auto. }
      assert (Hd' : Forall (fun c => In (c_addr c) sellerAddresses) (c :: defers)).
      { constructor; [now rewrite Hc|exact Hd]. }
      intros [err|t] _;
        (eapply triple_bind; [apply process_getID|]; intros id _;
         eapply triple_bind; [now apply triple_logPrintf|]; intros _ _;
         now apply IH).
Qed.

#[local] Arguments NotifySellers_range : simpl never.

Lemma process_notify :
  triple (same_identity t0) (process_action t0) (NotifySellers (Address t0)) (fun _ => True).
Proof.
  unfold NotifySellers.
  eapply triple_bind.
  { apply process_range; [reflexivity|apply incl_refl|constructor]. }
  intros ds Hds. apply triple_run_defers.
  revert Hds. apply Forall_impl. intros c Hc. cbn. now right.
Qed.

Lemma process_takeover :
  triple (same_identity t0) (process_action t0) TakeOverLeadership (fun _ => True).
Proof.
  unfold TakeOverLeadership.
  eapply triple_bind; [apply process_setIsLeader|]. intros _ _.
  eapply triple_bind; [apply process_getID|]. intros id _.
  eapply triple_bind; [now apply triple_logPrintf|]. intros _ _.
  eapply triple_bind; [apply process_getAddress|]. intros a ->.
  apply process_notify.
Qed.

Lemma process_SendHeartbeat :
  triple (same_identity t0) (process_action t0) SendHeartbeat (fun _ => True).
Proof.
  unfold SendHeartbeat.
  eapply triple_bind; [apply process_getPeer|]. intros peer ->.
  eapply triple_bind.
  { apply triple_rpcDial; [apply process_serve|]. intros err. cbn. now left. }
  intros [err|c] Hc.
  - eapply triple_bind; [apply process_getID|]. intros id _.
    eapply triple_bind; [apply process_getPeer|]. intros peer _.
    eapply triple_bind; [now apply triple_logPrintf|]. intros _ _.
    apply process_takeover.
  - eapply triple_bind; [apply process_getID|]. intros id ->.
    eapply triple_bind.
    { apply triple_rpcCall; [apply process_serve|]. intros err. cbn. now left. }
    assert (Hclose : Forall (fun c => process_action t0 (Close c)) [c]).
    { constructor; [cbn; now left|constructor]. }
    intros [err|t] _.
    + eapply triple_bind; [apply process_getID|]. intros id _.
      eapply triple_bind; [now apply triple_logPrintf|]. intros _ _.
      eapply triple_bind; [apply process_takeover|]. intros _ _.
      now apply triple_run_defers.
    + eapply triple_bind; [apply process_getID|]. intros id _.
      eapply triple_bind; [apply process_getPeer|]. intros peer _.
      eapply triple_bind; [now apply triple_logPrintf|]. intros _ _.
      now apply triple_run_defers.
Qed.

Lemma process_StartHeartbeat ticks :
  triple (same_identity t0) (process_action t0) (StartHeartbeat ticks) (fun _ => True).
Proof.
  induction ticks as [|n IH]; cbn [StartHeartbeat].
  - now apply triple_ret.
  - eapply triple_bind; [apply process_block|]. intros _ _.
    eapply triple_bind; [apply process_SendHeartbeat|]. intros _ _.
    exact IH.
Qed.

End Process.

(** X4. Whatever the network does and whatever calls arrive, the goroutines
    that [main] starts, the heartbeat loop and the handlers of the calls
    served meanwhile, make two kinds of call only: [Trader.ReceiveHeartbeat]
    to the peer with the Trader's ID, and [Seller.UpdateLeader] to a seller
    of the roster with the Trader's address.  A request that is received is
    never forwarded to the peer, and no response is sent to a seller by a
    call of the Trader's own; RequestMu is never taken, no flag is read, and
    the only values assigned are [true] to Heartbeat and to IsLeader. *)
Theorem process_never_forwards (ticks : nat) (w : World Trader Incoming) :
  exists es,
    trace (snd (StartHeartbeat ticks w)) = trace w ++ es /\
    Forall (fun e => process_action (mem w) (ev_act e)) es /\
    same_identity (mem w) (mem (snd (StartHeartbeat ticks w))).
Proof.
  destruct (@process_StartHeartbeat (mem w) ticks w) as (_ & Hi & es & Ht & Hp).
  { repeat split. }
  exists es. auto.
Qed.

(** *** The two flags *)

Section Unconsulted.

(** Traders that are taken for the same: they have the same ID, address and
    peer, and stay the same when either flag is assigned. *)
Variable sim : Trader -> Trader -> Prop.

Hypothesis sim_identity : forall s1 s2,
  sim s1 s2 -> ID s1 = ID s2 /\ Address s1 = Address s2 /\ Peer s1 = Peer s2.
Hypothesis sim_heartbeat : forall b s1 s2,
  sim s1 s2 -> sim (with_flags (IsLeader s1) b s1) (with_flags (IsLeader s2) b s2).
Hypothesis sim_leader : forall b s1 s2,
  sim s1 s2 -> sim (with_flags b (Heartbeat s1) s1) (with_flags b (Heartbeat s2) s2).

Lemma unconsulted_getID : respects sim getID.
Proof. unfold getID. apply respects_read. intros s1 s2 H. apply (sim_identity H). Qed.

Lemma unconsulted_getAddress : respects sim getAddress.
Proof. unfold getAddress. apply respects_read. intros s1 s2 H. apply (sim_identity H). Qed.

Lemma unconsulted_getPeer : respects sim getPeer.
Proof. unfold getPeer. apply respects_read. intros s1 s2 H. apply (sim_identity H). Qed.

Lemma unconsulted_setHeartbeat b : respects sim (setHeartbeat b).
Proof.
  unfold setHeartbeat.
  apply (respects_update (In:=Incoming) (sim:=sim) (fun t => with_flags (IsLeader t) b t)).
  apply sim_heartbeat.
Qed.

Lemma unconsulted_setIsLeader b : respects sim (setIsLeader b).
Proof.
  unfold setIsLeader.
  apply (respects_update (In:=Incoming) (sim:=sim) (fun t => with_flags b (Heartbeat t) t)).
  apply sim_leader.
Qed.

(** Proves that a method respects [sim] along its structure. *)
Ltac unconsulted :=
  repeat first
    [ match goal with
      | |- respects _ getID => apply unconsulted_getID
      | |- respects _ getAddress => apply unconsulted_getAddress
      | |- respects _ getPeer => apply unconsulted_getPeer
      | |- respects _ (setHeartbeat _) => apply unconsulted_setHeartbeat
      | |- respects _ (setIsLeader _) => apply unconsulted_setIsLeader
      | |- respects _ (logPrintf _) => apply respects_logPrintf
      | |- respects _ (run_defers _) => apply respects_run_defers
      | |- respects _ (bind _ _) => apply respects_bind; [|intros ?]
      | |- respects _ (ret _) => apply respects_ret
      | |- respects _ (emit _) => apply respects_emit
      | |- respects _ (match ?r with inl _ => _ | inr _ => _ end) => destruct r
      end ].

Lemma unconsulted_serve i : respects sim (serve i).
Proof.
  destruct i as [req|req]; cbn [serve].
  - unfold ReceiveHeartbeat. unconsulted.
  - unfold ReceiveRequest. unconsulted.
Qed.

Ltac network :=
  match goal with
  | |- respects _ (rpcDial _ _) => apply respects_rpcDial, unconsulted_serve
  | |- respects _ (rpcCall _ _ _ _) => apply respects_rpcCall, unconsulted_serve
  | |- respects _ (block _) => apply respects_block, unconsulted_serve
  end.

Lemma unconsulted_range leader addrs : forall defers,
  respects sim (NotifySellers_range leader addrs defers).
Proof.
  induction addrs as [|addr rest IH]; intros defers; cbn [NotifySellers_range].
  - apply respects_ret.
  - repeat first [progress unconsulted | network | apply IH].
Qed.

#[local] Arguments NotifySellers_range : simpl never.

Lemma unconsulted_notify leader : respects sim (NotifySellers leader).
Proof.
  unfold NotifySellers. apply respects_bind; [apply unconsulted_range|intros ds].
  apply respects_run_defers.
Qed.

Lemma unconsulted_takeover : respects sim TakeOverLeadership.
Proof. unfold TakeOverLeadership. unconsulted. apply unconsulted_notify. Qed.

Lemma unconsulted_SendHeartbeat : respects sim SendHeartbeat.
Proof.
  unfold SendHeartbeat.
  repeat first
    [ progress unconsulted | network
    | match goal with |- respects _ TakeOverLeadership => apply unconsulted_takeover end ].
Qed.

Lemma unconsulted_StartHeartbeat ticks : respects sim (StartHeartbeat ticks).
Proof.
  induction ticks as [|n IH]; cbn [StartHeartbeat].
  - apply respects_ret.
  - apply respects_bind; [network|intros _].
    apply respects_bind; [apply unconsulted_SendHeartbeat|intros _]. exact IH.
Qed.

Lemma unconsulted_perform op : respects sim (perform op).
Proof.
  destruct op; cbn [perform].
  - unfold ReceiveHeartbeat. unconsulted.
  - unfold ReceiveRequest. unconsulted.
  - apply unconsulted_SendHeartbeat.
  - apply unconsulted_StartHeartbeat.
  - apply unconsulted_takeover.
  - apply unconsulted_notify.
  - unfold ForwardRequest. repeat first [progress unconsulted | network].
  - unfold SendResponse. repeat first [progress unconsulted | network].
Qed.

End Unconsulted.

Lemma but_heartbeat_perform op : respects but_heartbeat (perform op).
Proof.
  apply unconsulted_perform; unfold but_heartbeat, with_flags; cbn.
  - intros s1 s2 [=]. auto.
  - intros b s1 s2 H. exact H.
  - intros b s1 s2 [=]. congruence.
Qed.

Lemma but_leader_perform op : respects but_leader (perform op).
Proof.
  apply unconsulted_perform; unfold but_leader, with_flags; cbn.
  - intros s1 s2 [=]. auto.
  - intros b s1 s2 [=]. congruence.
  - intros b s1 s2 H. exact H.
Qed.

(** X5. The Heartbeat flag that ReceiveHeartbeat sets is never consulted: two
    Traders that differ in it only do the same, operation by operation, on
    the same network, and differ in it only afterwards.  Whether a heartbeat
    has been received has no part in the decision to take over. *)
Theorem Heartbeat_never_consulted (op : Operation) (w1 w2 : World Trader Incoming) :
  alike but_heartbeat w1 w2 ->
  trace (snd (perform op w1)) = trace (snd (perform op w2)) /\
  IsLeader (mem (snd (perform op w1))) = IsLeader (mem (snd (perform op w2))) /\
  alike but_heartbeat (snd (perform op w1)) (snd (perform op w2)).
Proof.
  intros H. destruct (@but_heartbeat_perform op w1 w2 H) as (_ & Ha).
  split; [apply Ha|]. split; [|exact Ha].
  destruct Ha as (Hm & _). unfold but_heartbeat, with_flags in Hm. congruence.
Qed.

(** Trader 2 takes over when Trader 1 has gone, whether it has just heard
    from Trader 1 or never has. *)
Lemma Heartbeat_never_consulted_witness :
  let w1 := boot trader2 peer_gone in
  let w2 := boot (with_flags false false trader2) peer_gone in
  trace (snd (perform OpSendHeartbeat w1)) = trace (snd (perform OpSendHeartbeat w2)) /\
  IsLeader (mem (snd (perform OpSendHeartbeat w1)))
    = IsLeader (mem (snd (perform OpSendHeartbeat w2))) /\
  alike but_heartbeat (snd (perform OpSendHeartbeat w1)) (snd (perform OpSendHeartbeat w2)).
Proof.
  cbv zeta.
  apply (@Heartbeat_never_consulted OpSendHeartbeat (boot trader2 peer_gone)
           (boot (with_flags false false trader2) peer_gone)).
  unfold alike, but_heartbeat. cbn. auto.
Defined.

(** X19. IsLeader is never consulted either: it is assigned by [main] and by
    TakeOverLeadership and read by nobody, so that two Traders that differ
    in it only do the same, operation by operation, on the same network.  A
    Trader serves requests and sends heartbeats in the same way whether it
    is the leader or not. *)
Theorem IsLeader_never_consulted (op : Operation) (w1 w2 : World Trader Incoming) :
  alike but_leader w1 w2 ->
  trace (snd (perform op w1)) = trace (snd (perform op w2)) /\
  Heartbeat (mem (snd (perform op w1))) = Heartbeat (mem (snd (perform op w2))) /\
  alike but_leader (snd (perform op w1)) (snd (perform op w2)).
Proof.
  intros H. destruct (@but_leader_perform op w1 w2 H) as (_ & Ha).
  split; [apply Ha|]. split; [|exact Ha].
  destruct Ha as (Hm & _). unfold but_leader, with_flags in Hm. congruence.
Qed.

(** Trader 2 sends its heartbeats to Trader 1 in the same way whether it is
    the leader or not. *)
Lemma IsLeader_never_consulted_witness :
  let w1 := boot trader2 quiet_network in
  let w2 := boot (with_flags true true trader2) quiet_network in
  trace (snd (perform (OpStartHeartbeat 2) w1))
    = trace (snd (perform (OpStartHeartbeat 2) w2)) /\
  Heartbeat (mem (snd (perform (OpStartHeartbeat 2) w1)))
    = Heartbeat (mem (snd (perform (OpStartHeartbeat 2) w2))) /\
  alike but_leader (snd (perform (OpStartHeartbeat 2) w1))
    (snd (perform (OpStartHeartbeat 2) w2)).
Proof.
  cbv zeta.
  apply (@IsLeader_never_consulted (OpStartHeartbeat 2) (boot trader2 quiet_network)
           (boot (with_flags true true trader2) quiet_network)).
  unfold alike, but_leader. cbn. auto.
Defined.

(** *** The Requests list *)

Section OffRequests.

Let I (t : Trader) : Prop := True.

(** Proves along the structure of a method that it leaves the list alone. *)
Ltac off :=
  unfold getID, getAddress, getPeer, setIsLeader, setHeartbeat;
  repeat first
    [ logic_step
    | match goal with
      | |- triple _ _ (run_defers _) _ =>
          apply triple_run_defers, Forall_forall; intros ? _; exact Logic.I
      | |- I _ => exact Logic.I
      | |- off_requests _ => exact Logic.I
      | |- True => exact Logic.I
      end ].

Lemma off_serve i : triple I off_requests (serve i) (fun _ => True).
Proof.
  destruct i as [req|req]; cbn [serve].
  - unfold ReceiveHeartbeat. off.
  - unfold ReceiveRequest. off.
Qed.

Ltac off_network :=
  match goal with
  | |- triple _ _ (rpcDial _ _) _ =>
      apply triple_rpcDial; [apply off_serve|intros ?; exact Logic.I]
  | |- triple _ _ (rpcCall _ _ _ _) _ =>
      apply triple_rpcCall; [apply off_serve|intros ?; exact Logic.I]
  | |- triple _ _ (block _) _ => apply triple_block, off_serve
  end.

Lemma off_range leader addrs : forall defers,
  triple I off_requests (NotifySellers_range leader addrs defers) (fun _ => True).
Proof.
  induction addrs as [|addr rest IH]; intros defers;
    (unfold NotifySellers_range; fold NotifySellers_range).
  - now apply triple_ret.
  - repeat first [progress off | off_network | apply IH].
Qed.

#[local] Arguments NotifySellers_range : simpl never.

Lemma off_notify leader : triple I off_requests (NotifySellers leader) (fun _ => True).
Proof.
  unfold NotifySellers.
  eapply triple_bind; [apply off_range|]. intros ds _. off.
Qed.

Lemma off_takeover : triple I off_requests TakeOverLeadership (fun _ => True).
Proof.
  unfold TakeOverLeadership.
  repeat first
    [ progress off
    | match goal with |- triple _ _ (NotifySellers _) _ => apply off_notify end ].
Qed.

Lemma off_SendHeartbeat : triple I off_requests SendHeartbeat (fun _ => True).
Proof.
  unfold SendHeartbeat.
  repeat first
    [ progress off | off_network
    | match goal with |- triple _ _ TakeOverLeadership _ => apply off_takeover end ].
Qed.

Lemma off_StartHeartbeat ticks : triple I off_requests (StartHeartbeat ticks) (fun _ => True).
Proof.
  induction ticks as [|n IH]; cbn [StartHeartbeat].
  - now apply triple_ret.
  - eapply triple_bind; [apply triple_block, off_serve|]. intros _ _.
    eapply triple_bind; [apply off_SendHeartbeat|]. intros _ _. exact IH.
Qed.

Lemma off_perform op : triple I off_requests (perform op) (fun _ => True).
Proof.
  destruct op; cbn [perform].
  - unfold ReceiveHeartbeat. off.
  - unfold ReceiveRequest. off.
  - apply off_SendHeartbeat.
  - apply off_StartHeartbeat.
  - apply off_takeover.
  - apply off_notify.
  - unfold ForwardRequest. repeat first [progress off | off_network].
  - unfold SendResponse. repeat first [progress off | off_network].
Qed.

End OffRequests.

Lemma but_requests_perform op : respects but_requests (perform op).
Proof.
  apply unconsulted_perform; unfold but_requests, with_requests, with_flags; cbn.
  - intros s1 s2 [=]. auto.
  - intros b s1 s2 [=]. congruence.
  - intros b s1 s2 [=]. congruence.
Qed.

(** C8, as the code has it.  The Requests list is declared and never used.
    It starts empty; no operation of the Trader changes it, so nothing is
    appended, removed or modified; no operation reads it, for whatever it
    holds every operation does the same and leaves the same Trader; and no
    operation is seen to access it or to take RequestMu. *)
Theorem Requests_never_touched (op : Operation) (w : World Trader Incoming) :
  Requests (mem (snd (perform op w))) = Requests (mem w) /\
  (forall f t, main f = Some t -> Requests t = []) /\
  (forall w', alike but_requests w w' ->
     trace (snd (perform op w')) = trace (snd (perform op w)) /\
     alike but_requests (snd (perform op w)) (snd (perform op w'))) /\
  (forall req res w',
     fst (ReceiveRequest req res w') = fst (ReceiveRequest req res w)) /\
  Forall (fun e => off_requests (ev_act e)) (since w (snd (perform op w))).
Proof.
  split; [apply steady_perform|].
  split.
  { intros f t. unfold main. destruct (_ || _); [discriminate|]. now intros [= <-]. }
  split.
  { intros w' H. destruct (@but_requests_perform op w w' H) as (_ & Ha).
    split; [symmetry; apply Ha|exact Ha]. }
  split.
  { intros req res w'. unfold ReceiveRequest. run. reflexivity. }
  destruct (@off_perform op w Logic.I) as (_ & _ & es & Ht & Hp).
  unfold since. rewrite Ht, skipn_app, skipn_all, Nat.sub_diag. exact Hp.
Qed.

(** *** ForwardRequest and SendResponse *)

Lemma arrivals_dialed (w : World Trader Incoming) : dialed (arrivals serve w) = [].
Proof. apply (serving_quiet (trader_blocked_arrivals w)). Qed.

Lemma arrivals_connected (w : World Trader Incoming) : connected (arrivals serve w) = [].
Proof. apply (serving_quiet (trader_blocked_arrivals w)). Qed.

Lemma arrivals_called (w : World Trader Incoming) : called (arrivals serve w) = [].
Proof. apply (serving_quiet (trader_blocked_arrivals w)). Qed.

Lemma arrivals_closed (w : World Trader Incoming) : closed (arrivals serve w) = [].
Proof. apply closed_local, serving_all_local, trader_blocked_arrivals. Qed.

(** Reads a trace of the Trader through its projections. *)
Ltac projections :=
  repeat (rewrite ?dialed_app, ?connected_app, ?called_app, ?closed_app,
            ?arrivals_dialed, ?arrivals_connected, ?arrivals_called, ?arrivals_closed;
          cbn [dialed connected called closed ev_act app c_addr]).

(** X6. ForwardRequest makes one attempt and reports nothing: it dials the
    peer once; when the connection is obtained it calls
    [Trader.ReceiveRequest] on it once with the request as it was given, and
    closes the connection whether the call fails or not; when it is not, it
    makes no call.  There is no second attempt in either case, and the
    Trader is left as the calls served meanwhile have made it. *)
Theorem ForwardRequest_one_attempt (req : Request.t) (w : World Trader Incoming) :
  only_heartbeat (mem w) (mem (snd (ForwardRequest req w))) /\
  exists es,
    trace (snd (ForwardRequest req w)) = trace w ++ es /\
    dialed es = [Peer (mem w)] /\
    called es =
      match fail (net w (clock w)) (Peer (mem w)) with
      | Some _ => []
      | None => [(Peer (mem w), "Trader.ReceiveRequest", VRequest req)]
      end /\
    closed es =
      match fail (net w (clock w)) (Peer (mem w)) with
      | Some _ => []
      | None => [mkClient (Peer (mem w)) (clock w)]
      end.
Proof.
  unfold ForwardRequest. run.
  destruct (fail (net w (clock w)) (Peer (mem w))) as [err|] eqn:Hdial; run.
  - split; [apply trader_blocked_mem|].
    eexists. split; [trace_eq|]. projections. auto.
  - set (w1 := record (Dial (Peer (mem w)) None) (snd (block serve w))).
    assert (Hm : only_heartbeat (mem w) (mem (snd (block serve w1)))).
    { eapply only_heartbeat_trans; [apply trader_blocked_mem|].
      apply (trader_blocked_mem w1). }
    match goal with |- context [match ?x with Some _ => _ | None => _ end] =>
      destruct x end; run; subst w1; autorewrite with world in *;
      (split; [exact Hm|]); (eexists; split; [trace_eq|]); projections; auto.
Qed.


(** Trader 1 forwards a request while Trader 2 is down, and while it is up. *)
Example ForwardRequest_runs :
  map ev_act (trace (snd (ForwardRequest apples
                            (boot trader1 (refused_during "localhost:8002" [0%nat]))))) =
  [Dial "localhost:8002" (Some "connection refused");
   Log "Trader 1: Failed to connect to peer Trader at localhost:8002 to forward request."] /\
  map ev_act (trace (snd (ForwardRequest apples (boot trader1 quiet_network)))) =
  [Dial "localhost:8002" None;
   Call (mkClient "localhost:8002" 0) "Trader.ReceiveRequest" (VRequest apples) None;
   Log "Trader 1: Request forwarded successfully to Trader localhost:8002";
   Close (mkClient "localhost:8002" 0)].
Proof. split; reflexivity. Qed.

(** *** The command line *)

(** X8. [main] stops at [log.Fatal] exactly when [-id] or [-post] is 0 or
    [-address] or [-peer] is empty, which is also what a flag that is not
    given yields; otherwise the Trader it shares with its goroutines has the
    four flags as its ID, address, peer and post, has received no heartbeat
    and holds no request.  Nothing else is asked of the flags: any other
    number is taken as an ID. *)
Theorem trader_main_usage (f : Flags) :
  (main f = None <->
   flag_id f = 0 \/ flag_address f = "" \/ flag_peer f = "" \/ flag_post f = 0) /\
  (forall t, main f = Some t ->
     t = mkTrader (flag_id f) (flag_address f) (flag_peer f) (flag_post f)
           (IsLeader t) false []).
Proof.
  unfold main. rewrite <- Z.eqb_eq, <- !String.eqb_eq, <- (Z.eqb_eq (flag_post f)).
  rewrite <- !orb_true_iff, !orb_assoc.
  destruct (_ || _); split.
  - tauto.
  - discriminate.
  - split; [discriminate|intros H; discriminate].
  - intros t [= <-]. reflexivity.
Qed.

(** *** ReceiveHeartbeat *)

(** X16. ReceiveHeartbeat answers [Alive] with a nil error to whoever calls
    it, whether the ID it is given is the peer's or not, and sets Heartbeat;
    it changes nothing else, takes no time, and a second heartbeat leaves
    the Trader as the first one left it.  A Trader that has taken over is
    the leader still when its peer's heartbeats arrive again. *)
Theorem ReceiveHeartbeat_always_alive (req : Z) (w : World Trader Incoming) :
  fst (ReceiveHeartbeat req w) = ("Alive", None) /\
  Heartbeat (mem (snd (ReceiveHeartbeat req w))) = true /\
  only_heartbeat (mem w) (mem (snd (ReceiveHeartbeat req w))) /\
  clock (snd (ReceiveHeartbeat req w)) = clock w /\
  dialed (since w (snd (ReceiveHeartbeat req w))) = [] /\
  called (since w (snd (ReceiveHeartbeat req w))) = [] /\
  forall req',
    mem (snd (ReceiveHeartbeat req' (snd (ReceiveHeartbeat req w))))
    = mem (snd (ReceiveHeartbeat req w)).
Proof.
  unfold ReceiveHeartbeat, since. run.
  rewrite <- !app_assoc, skipn_app, skipn_all, Nat.sub_diag. cbn.
  repeat split.
Qed.

End TraderRunsFacts.

(** ** More facts about seller/seller.go *)

Module SellerRunsFacts.
Import Seller SellerSpec SellerFacts SellerRuns.

#[local] Arguments SendRequest_turn : simpl never.
#[local] Arguments SendRequest_for : simpl never.
#[local] Arguments SendRequest : simpl never.

(** *** Connections *)

Lemma updating_local a : updating a -> local a.
Proof. destruct a; simpl; try tauto; intros _ H; exact H. Qed.

Lemma updating_unconnected es :
  Forall (fun e => updating (ev_act e)) es -> connected es = [] /\ closed es = [].
Proof.
  intros H. assert (Hl : Forall (fun e => local (ev_act e)) es).
  { revert H. apply Forall_impl. intros e. apply updating_local. }
  auto using connected_local, closed_local.
Qed.

(** What the blocked goroutine finds on resuming, with the connections. *)
Ltac connections :=
  repeat match goal with
  | B : blocks _ _ _ |- _ =>
      let Hq := fresh "Hq" in
      pose proof (updating_unconnected (b_quiet B)) as Hq;
      destruct Hq as (? & ?); clear B
  end;
  repeat (rewrite ?connected_app, ?closed_app; cbn);
  repeat match goal with
  | H : connected _ = [] |- _ => rewrite H
  | H : closed _ = [] |- _ => rewrite H
  end; cbn.

Lemma SendRequest_turn_connections req reqID w :
  exists es,
    trace (snd (SendRequest_turn req reqID w)) = trace w ++ es /\
    closed es = [] /\
    connected es =
      map c_addr (defer (turn_client (fst (SendRequest_turn req reqID w))) []).
Proof.
  destruct (SendRequest_turn req reqID w) as [r w'] eqn:E. cbn [fst snd].
  revert E. unfold SendRequest_turn. srun.
  destruct (fail (net w (clock w)) (TraderAddr (mem w))) as [err|] eqn:Hdial; srun.
  - intros [= <- <-]. srun.
    eexists. split; [trace_eq|]. connections. auto.
  - destruct (fail (net w (S (clock w))) (TraderAddr (mem w))) as [err|] eqn:Hcall; srun.
    + intros [= <- <-]. srun.
      eexists. split; [trace_eq|]. connections. auto.
    + destruct (Response.Processed _ && _) eqn:Hack; srun;
        intros [= <- <-]; srun;
        (eexists; split; [trace_eq|]); connections; auto.
Qed.

Lemma SendRequest_for_connections req reqID turns : forall defers w,
  exists es cs,
    trace (snd (SendRequest_for turns req reqID defers w)) = trace w ++ es /\
    closed es = [] /\
    map c_addr cs = rev (connected es) /\
    match fst (SendRequest_for turns req reqID defers w) with
    | Some ds => ds = cs ++ defers
    | None => True
    end.
Proof.
  induction turns as [|n IH]; intros defers w.
  - exists [], []. unfold SendRequest_for, ret. cbn. rewrite app_nil_r. auto.
  - rewrite SendRequest_for_step.
    destruct (SendRequest_turn_connections req reqID w) as (es & Ht & Hc & Hk).
    destruct (fst (SendRequest_turn req reqID w)) as [c|c]; cbn [snd fst turn_client] in *.
    + exists es, (defer c []). rewrite Hk.
      repeat split; auto; destruct c; reflexivity.
    + destruct (IH (defer c defers) (snd (SendRequest_turn req reqID w)))
        as (es' & cs & Ht' & Hc' & Hk' & Hr).
      exists (es ++ es'), (cs ++ defer c []).
      rewrite Ht', Ht, closed_app, connected_app, Hc, Hc', rev_app_distr, map_app, Hk', Hk.
      rewrite app_assoc. repeat split.
      * destruct c; cbn; reflexivity.
      * destruct (fst (SendRequest_for n req reqID (defer c defers) _)); [|exact Logic.I].
        rewrite Hr, <- app_assoc. destruct c; reflexivity.
Qed.

Lemma closed_closes g (ds : list Client) :
  closed (map (fun c => mkEvent g (Close c)) ds) = ds.
Proof. induction ds as [|c ds IH]; simpl; congruence. Qed.

Lemma slept_closes g (ds : list Client) :
  slept (map (fun c => mkEvent g (Close c)) ds) = [].
Proof. induction ds; simpl; auto. Qed.

(** X9. SendRequest closes no connection while its loop goes round: the
    [Close] of every connection it obtains is deferred, also of those whose
    call fails or is not acknowledged, so that they stay open for as long as
    the request is retried.  When SendRequest returns it closes them all,
    the last one first. *)
Theorem connections_closed_on_return_only (turns : nat) (w : World Seller Incoming) :
  exists es cs,
    trace (snd (SendRequest turns w)) =
      trace w ++ es ++ map (fun c => mkEvent (cur w) (Close c)) cs /\
    closed es = [] /\
    match fst (SendRequest turns w) with
    | Some _ => map c_addr cs = rev (connected es)
    | None => cs = []
    end.
Proof.
  rewrite SendRequest_eq.
  destruct (SendRequest_for_connections (request_of w) (allocated w) turns [] (prepared w))
    as (es & cs & Ht & Hc & Hk & Hr).
  destruct (SendRequest_for_frame (request_of w) (allocated w) turns [] (prepared w))
    as (_ & _ & _ & _ & _ & Hcur).
  destruct (prepared_facts w) as (Hp & _ & _ & _ & Hpc & _).
  rewrite Hp in Ht.
  destruct (fst (SendRequest_for _ _ _ _ _)) as [ds|]; cbn [fst snd].
  - match type of Ht with _ = (_ ++ ?p) ++ _ => exists (p ++ es), cs end.
    autorewrite with world. rewrite Ht, Hcur, Hpc, Hr, app_nil_r.
    split; [trace_eq|]. rewrite closed_app, connected_app, Hc. cbn. auto.
  - match type of Ht with _ = (_ ++ ?p) ++ _ => exists (p ++ es), [] end.
    rewrite Ht.
    split; [cbn [map]; rewrite app_nil_r; trace_eq|].
    rewrite closed_app, Hc. cbn. auto.
Qed.

(** Seller 1 while Trader 1 accepts connections and answers no call: after
    three turns three connections are open and none is closed. *)
Example SendRequest_keeps_connections_open :
  let r := SendRequest 3 (boot seller1 unanswered) in
  fst r = None /\
  connected (trace (snd r)) = ["localhost:8001"; "localhost:8001"; "localhost:8001"] /\
  closed (trace (snd r)) = [].
Proof. cbv zeta. repeat split. Qed.

(** *** The attempt that is acknowledged *)

Lemma SendRequest_for_first req reqID k : forall turns defers w,
  (k < turns)%nat ->
  (forall j, (j < k)%nat -> acknowledged req reqID (after_turns j req reqID w) = false) ->
  acknowledged req reqID (after_turns k req reqID w) = true ->
  SendRequest_for turns req reqID defers w = SendRequest_for (S k) req reqID defers w /\
  exists ds,
    SendRequest_for turns req reqID defers w =
    (Some ds, snd (SendRequest_turn req reqID (after_turns k req reqID w))).
Proof.
  induction k as [|k IH]; intros [|n] defers w Hk Hno Hack; try lia;
    rewrite !(SendRequest_for_step _ req);
    destruct (SendRequest_turn_spec req reqID w) as (es & _ & _ & _ & _ & _ & Hr & _).
  - cbn [after_turns] in *. rewrite Hack in Hr. destruct Hr as [c ->].
    split; [reflexivity|]. eexists; reflexivity.
  - assert (H0 : acknowledged req reqID w = false) by (apply (Hno 0%nat); lia).
    rewrite H0 in Hr. destruct Hr as [c ->].
    apply IH; [lia| |exact Hack].
    intros j Hj. apply (Hno (S j)). lia.
Qed.

(** X10. When the attempt after [k] unacknowledged ones is the first to be
    acknowledged, SendRequest returns with it: it has dialled [k + 1] times
    and backed off [k] times for 5 seconds, and what it has done does not
    depend on how many more turns its loop is given. *)
Theorem SendRequest_returns_at_first_acknowledgment
    (k turns : nat) (w : World Seller Incoming) :
  (k < turns)%nat ->
  (forall j, (j < k)%nat ->
     acknowledged (request_of w) (allocated w)
       (after_turns j (request_of w) (allocated w) (prepared w)) = false) ->
  acknowledged (request_of w) (allocated w)
    (after_turns k (request_of w) (allocated w) (prepared w)) = true ->
  SendRequest turns w = SendRequest (S k) w /\
  fst (SendRequest turns w) = Some tt /\
  exists es,
    trace (snd (SendRequest turns w)) = trace (prepared w) ++ es /\
    List.length (dialed es) = S k /\
    slept es = repeat 5 k.
Proof.
  intros Hk Hno Hack.
  destruct (@SendRequest_for_first (request_of w) (allocated w) k turns [] (prepared w)
              Hk Hno Hack) as (Hsame & ds & Hfor).
  split.
  { rewrite !SendRequest_eq, Hsame. reflexivity. }
  rewrite SendRequest_eq, Hfor. cbn [fst snd]. split; [reflexivity|].
  destruct (@after_turns_trace (request_of w) (allocated w) k (prepared w) Hno)
    as (es1 & Ht1 & Hd1 & Hs1).
  destruct (SendRequest_turn_spec (request_of w) (allocated w)
              (after_turns k (request_of w) (allocated w) (prepared w)))
    as (es2 & Ht2 & Hd2 & _ & _ & Hs2 & _).
  rewrite Hack in Hs2.
  eexists. autorewrite with world. rewrite Ht2, Ht1.
  split; [rewrite <- !app_assoc; reflexivity|].
  destruct (closes_quiet
    (cur (snd (SendRequest_turn (request_of w) (allocated w)
                 (after_turns k (request_of w) (allocated w) (prepared w))))) ds)
    as (Hd3 & _).
  rewrite !dialed_app, !slept_app, Hd2, Hs2, Hd3, Hs1, slept_closes, !app_nil_r.
  rewrite length_app, Hd1. cbn. split; [lia|reflexivity].
Qed.

(** Seller 1 while Trader 1 is gone and Trader 2 announces itself: the
    second attempt is the first to be acknowledged. *)
Lemma SendRequest_returns_at_first_acknowledgment_witness :
  let w := boot seller1 failover in
  SendRequest 5 w = SendRequest 2 w /\
  fst (SendRequest 5 w) = Some tt /\
  exists es,
    trace (snd (SendRequest 5 w)) = trace (prepared w) ++ es /\
    List.length (dialed es) = 2%nat /\
    slept es = [5].
Proof.
  apply (@SendRequest_returns_at_first_acknowledgment 1 5 (boot seller1 failover)).
  - lia.
  - intros j Hj. assert (j = 0)%nat as -> by lia. reflexivity.
  - reflexivity.
Defined.

(** *** What the process may be seen doing *)

Section SellerProcess.

(** The Seller as [main] built it. *)
Variable s0 : Seller.

Lemma seller_getID :
  triple (same_seller s0) (seller_action s0) getID (fun z => z = ID s0).
Proof. unfold getID. logic. unfold same_seller in *. tauto. Qed.

Lemma seller_getPost :
  triple (same_seller s0) (seller_action s0) getPost (fun z => z = Post s0).
Proof. unfold getPost. logic. unfold same_seller in *. tauto. Qed.

Lemma seller_readTraderAddr :
  triple (same_seller s0) (seller_action s0) readTraderAddr (fun _ => True).
Proof. unfold readTraderAddr. logic; cbn; auto. Qed.

Lemma seller_writeTraderAddr a :
  triple (same_seller s0) (seller_action s0) (writeTraderAddr a) (fun _ => True).
Proof. unfold writeTraderAddr. logic; unfold same_seller in *; cbn; auto. Qed.

Lemma seller_readRequestID :
  triple (same_seller s0) (seller_action s0) readRequestID (fun _ => True).
Proof. unfold readRequestID. logic; cbn; auto. Qed.

Lemma seller_writeRequestID n :
  triple (same_seller s0) (seller_action s0) (writeRequestID n) (fun _ => True).
Proof. unfold writeRequestID. logic; unfold same_seller in *; cbn; auto. Qed.

Ltac selling :=
  repeat first
    [ match goal with
      | |- triple _ _ getID _ => apply seller_getID
      | |- triple _ _ getPost _ => apply seller_getPost
      | |- triple _ _ readTraderAddr _ => apply seller_readTraderAddr
      | |- triple _ _ (writeTraderAddr _) _ => apply seller_writeTraderAddr
      | |- triple _ _ readRequestID _ => apply seller_readRequestID
      | |- triple _ _ (writeRequestID _) _ => apply seller_writeRequestID
      end
    | logic_step ].

Lemma seller_serve i :
  triple (same_seller s0) (seller_action s0) (serve i) (fun _ => True).
Proof.
  destruct i as [a]; cbn [serve]. unfold UpdateLeader. selling; cbn; auto.
Qed.

Lemma seller_turn (n reqID : Z) :
  triple (same_seller s0) (seller_action s0)
    (SendRequest_turn (Request.mk (ID s0) (Post s0) "apples" 10 n) reqID) (fun _ => True).
Proof.
  unfold SendRequest_turn.
  eapply triple_bind; [apply seller_readTraderAddr|]. intros addr _.
  eapply triple_bind.
  { apply triple_rpcDial; [apply seller_serve|]. intros err. exact Logic.I. }
  intros [err|c] _.
  - eapply triple_bind; [apply seller_getID|]. intros id _.
    eapply triple_bind; [apply seller_readTraderAddr|]. intros addr' _.
    eapply triple_bind; [now apply triple_logPrintf|]. intros _ _.
    eapply triple_bind; [apply triple_timeSleep; [apply seller_serve|reflexivity]|].
    intros _ _. now apply triple_ret.
  - eapply triple_bind.
    { apply triple_rpcCall; [apply seller_serve|]. intros err. cbn.
      split; [reflexivity|]. now exists n. }
    intros [err|t] _.
    + eapply triple_bind; [apply seller_getID|]. intros id _.
      eapply triple_bind; [now apply triple_logPrintf|]. intros _ _.
      eapply triple_bind; [apply triple_timeSleep; [apply seller_serve|reflexivity]|].
      intros _ _. now apply triple_ret.
    + cbv zeta. destruct (Response.Processed _ && _).
      * eapply triple_bind; [apply seller_getID|]. intros id _.
        eapply triple_bind; [now apply triple_logPrintf|]. intros _ _.
        now apply triple_ret.
      * eapply triple_bind; [apply seller_getID|]. intros id _.
        eapply triple_bind; [now apply triple_logPrintf|]. intros _ _.
        eapply triple_bind; [apply triple_timeSleep; [apply seller_serve|reflexivity]|].
        intros _ _. now apply triple_ret.
Qed.

Lemma seller_for (n reqID : Z) turns : forall defers,
  triple (same_seller s0) (seller_action s0)
    (SendRequest_for turns (Request.mk (ID s0) (Post s0) "apples" 10 n) reqID defers)
    (fun _ => True).
Proof.
  induction turns as [|k IH]; intros defers.
  - unfold SendRequest_for. now apply triple_ret.
  - unfold SendRequest_for; fold SendRequest_for.
    eapply triple_bind; [apply seller_turn|]. intros [c|c] _.
    + now apply triple_ret.
    + apply IH.
Qed.

Lemma seller_SendRequest turns :
  triple (same_seller s0) (seller_action s0) (SendRequest turns) (fun _ => True).
Proof.
  unfold SendRequest.
  eapply triple_bind; [now apply triple_emit|]. intros _ _.
  eapply triple_bind; [apply seller_readRequestID|]. intros n _.
  eapply triple_bind; [apply seller_writeRequestID|]. intros _ _.
  eapply triple_bind; [apply seller_readRequestID|]. intros reqID _.
  eapply triple_bind; [now apply triple_emit|]. intros _ _.
  eapply triple_bind; [apply seller_getID|]. intros id ->.
  eapply triple_bind; [apply seller_getPost|]. intros post ->.
  cbv zeta.
  eapply triple_bind; [apply seller_for|]. intros [ds|] _.
  - eapply triple_bind; [|intros _ _; now apply triple_ret].
    apply triple_run_defers. apply Forall_forall. intros c _. exact Logic.I.
  - now apply triple_ret.
Qed.

Lemma seller_main_range turns :
  triple (same_seller s0) (seller_action s0) (main_range turns) (fun _ => True).
Proof.
  induction turns as [|n rest IH]; cbn [main_range].
  - now apply triple_ret.
  - eapply triple_bind; [apply triple_block, seller_serve|]. intros _ _.
    eapply triple_bind; [apply seller_SendRequest|]. intros [[]|] _.
    + exact IH.
    + now apply triple_ret.
Qed.

End SellerProcess.

(** X11. Whatever the network answers and whatever leader updates arrive,
    every call that the Seller's process makes is [Trader.ReceiveRequest]
    for 10 apples under the Seller's own ID and post; it backs off for 5
    seconds and for nothing else, takes no mutex but RequestLock, and
    assigns TraderAddr and RequestID only. *)
Theorem seller_only_sends_requests (turns : list nat) (w : World Seller Incoming) :
  exists es,
    trace (snd (main_range turns w)) = trace w ++ es /\
    Forall (fun e => seller_action (mem w) (ev_act e)) es /\
    same_seller (mem w) (mem (snd (main_range turns w))).
Proof.
  destruct (@seller_main_range (mem w) turns w) as (_ & Hi & es & Ht & Hp).
  { split; reflexivity. }
  exists es. auto.
Qed.

(** *** The addresses dialled *)

Lemma heard_widen network from to from' to' a :
  (from' <= from)%nat -> (to <= to')%nat ->
  heard network from to a -> heard network from' to' a.
Proof. intros H1 H2 (n & Hn & Hin). exists n. split; [lia|exact Hin]. Qed.

Lemma hears_refl w : hears w w.
Proof. repeat split; auto. Qed.

Lemma hears_trans w1 w2 w3 : hears w1 w2 -> hears w2 w3 -> hears w1 w3.
Proof.
  intros (Hc & Hn & Ha) (Hc' & Hn' & Ha').
  split; [lia|]. split; [congruence|].
  rewrite Hn in Ha'.
  destruct Ha' as [Ha'|Ha'].
  - rewrite Ha'. destruct Ha as [Ha|Ha]; [now left|right].
    revert Ha. apply heard_widen; lia.
  - right. revert Ha'. apply heard_widen; lia.
Qed.

Lemma hears_record a w : hears w (record a w).
Proof. unfold hears. autorewrite with world. auto. Qed.

Lemma serve_all_hears l : forall n k (w : World Seller Incoming),
  clock (snd (serve_all serve n k l w)) = clock w /\
  net (snd (serve_all serve n k l w)) = net w /\
  (TraderAddr (mem (snd (serve_all serve n k l w))) = TraderAddr (mem w) \/
   In (InUpdateLeader (TraderAddr (mem (snd (serve_all serve n k l w))))) l).
Proof.
  induction l as [|[a] l IH]; intros n k w.
  - cbn. auto.
  - cbn [serve_all]. unfold bind, get_cur, set_cur. cbn [fst snd].
    match goal with |- context [serve_all serve n (S k) l ?w1] =>
      destruct (IH n (S k) w1) as (Hc & Hn & Ha) end.
    rewrite Hc, Hn. split; [reflexivity|]. split; [reflexivity|].
    right. destruct Ha as [->|Ha]; [left; reflexivity|right; exact Ha].
Qed.

Lemma hears_block w : hears w (snd (block serve w)).
Proof.
  unfold block. cbn [snd].
  destruct (serve_all_hears (incoming (net w (clock w))) (clock w) 0 w) as (Hc & Hn & Ha).
  unfold hears. cbn. rewrite Hc, Hn. split; [lia|]. split; [reflexivity|].
  destruct Ha as [Ha|Ha]; [now left|right].
  exists (clock w). split; [lia|exact Ha].
Qed.

(** Proves [hears] along a run. *)
Ltac hearing :=
  repeat first
    [ apply hears_refl
    | eapply hears_trans; [|apply hears_record]
    | eapply hears_trans; [|apply hears_block] ].

Lemma hears_turn req reqID w : hears w (snd (SendRequest_turn req reqID w)).
Proof.
  unfold SendRequest_turn, bind, getID, readTraderAddr, logPrintf, get_mem, ret, emit.
  cbn. rewrite rpcDial_eq.
  match goal with |- context [match ?x with Some _ => _ | None => _ end] =>
    destruct x end; cbn; rewrite ?timeSleep_eq; cbn; [hearing|].
  rewrite rpcCall_eq.
  match goal with |- context [match ?x with Some _ => _ | None => _ end] =>
    destruct x end; cbn; rewrite ?timeSleep_eq; cbn; [hearing|].
  match goal with |- context [if ?b then _ else _] =>
    destruct b end; cbn; rewrite ?timeSleep_eq; cbn; hearing.
Qed.

Lemma hears_for req reqID turns : forall defers w,
  hears w (snd (SendRequest_for turns req reqID defers w)).
Proof.
  induction turns as [|n IH]; intros defers w.
  - apply hears_refl.
  - rewrite SendRequest_for_step.
    destruct (fst (SendRequest_turn req reqID w)); cbn [snd].
    + apply hears_turn.
    + eapply hears_trans; [apply hears_turn|apply IH].
Qed.

Lemma hears_prepared w : hears w (prepared w).
Proof.
  destruct (prepared_facts w) as (_ & _ & Ha & Hn & _ & Hc).
  unfold hears. rewrite Ha, Hn, Hc. auto.
Qed.

Lemma hears_run_defers ds : forall w : World Seller Incoming,
  hears w (snd (run_defers ds w)).
Proof.
  intros w. unfold hears. autorewrite with world. auto.
Qed.

(** Whom a run that goes from [w] to [w'] may dial: the Trader believed in
    at its start, or one heard of meanwhile. *)
Lemma dials_widen w w1 w' a :
  hears w w1 -> hears w1 w' ->
  a = TraderAddr (mem w1) \/ heard (net w1) (clock w1) (clock w') a ->
  a = TraderAddr (mem w) \/ heard (net w) (clock w) (clock w') a.
Proof.
  intros (Hc & Hn & Ha) (Hc' & _) [->|H].
  - destruct Ha as [Ha|Ha]; [now left|right].
    revert Ha. apply heard_widen; lia.
  - right. rewrite Hn in H. revert H. apply heard_widen; lia.
Qed.

Lemma dials_for req reqID turns : forall defers w,
  exists es,
    trace (snd (SendRequest_for turns req reqID defers w)) = trace w ++ es /\
    Forall (fun a => a = TraderAddr (mem w) \/
              heard (net w) (clock w)
                (clock (snd (SendRequest_for turns req reqID defers w))) a)
      (dialed es).
Proof.
  induction turns as [|n IH]; intros defers w.
  - exists []. unfold SendRequest_for, ret. cbn. rewrite app_nil_r. auto.
  - rewrite SendRequest_for_step.
    destruct (SendRequest_turn_spec req reqID w) as (es & Ht & Hd & _).
    pose proof (hears_turn req reqID w) as Hh.
    destruct (fst (SendRequest_turn req reqID w)) as [c|c]; cbn [snd].
    + exists es. split; [exact Ht|]. rewrite Hd. repeat constructor.
    + destruct (IH (defer c defers) (snd (SendRequest_turn req reqID w)))
        as (es' & Ht' & Hd').
      pose proof (hears_for req reqID n (defer c defers) (snd (SendRequest_turn req reqID w)))
        as Hh'.
      exists (es ++ es'). rewrite Ht', Ht, app_assoc. split; [reflexivity|].
      rewrite dialed_app, Hd. constructor; [now left|].
      revert Hd'. apply Forall_impl. intros a. now apply dials_widen.
Qed.

Lemma hears_SendRequest turns w : hears w (snd (SendRequest turns w)).
Proof.
  rewrite SendRequest_eq.
  pose proof (hears_for (request_of w) (allocated w) turns [] (prepared w)) as Hh.
  destruct (fst (SendRequest_for _ _ _ _ _)); cbn [snd].
  - eapply hears_trans; [apply hears_prepared|].
    eapply hears_trans; [exact Hh|apply hears_run_defers].
  - eapply hears_trans; [apply hears_prepared|exact Hh].
Qed.

Lemma dials_SendRequest turns w :
  exists es,
    trace (snd (SendRequest turns w)) = trace w ++ es /\
    Forall (fun a => a = TraderAddr (mem w) \/
              heard (net w) (clock w) (clock (snd (SendRequest turns w))) a)
      (dialed es).
Proof.
  pose proof (hears_SendRequest turns w) as Hs. revert Hs.
  rewrite SendRequest_eq.
  destruct (dials_for (request_of w) (allocated w) turns [] (prepared w))
    as (es & Ht & Hd).
  destruct (prepared_facts w) as (Hp & _ & Ha & Hn & Hpc & Hc).
  rewrite Hp, Ha, Hn, Hc in *.
  destruct (fst (SendRequest_for _ _ _ _ _)) as [ds|]; cbn [snd]; intros Hs.
  - match type of Ht with _ = (_ ++ ?p) ++ _ =>
      exists (p ++ es ++ map (fun c => mkEvent
        (cur (snd (SendRequest_for turns (request_of w) (allocated w) [] (prepared w))))
        (Close c)) ds) end.
    autorewrite with world. rewrite Ht. split; [trace_eq|].
    rewrite !dialed_app, (proj1 (closes_quiet _ ds)), app_nil_r. exact Hd.
  - match type of Ht with _ = (_ ++ ?p) ++ _ => exists (p ++ es) end.
    rewrite Ht. split; [trace_eq|].
    rewrite dialed_app. exact Hd.
Qed.

#[local] Arguments SendRequest : simpl never.

Lemma hears_main_range turns : forall w, hears w (snd (main_range turns w)).
Proof.
  induction turns as [|n rest IH]; intros w; cbn [main_range].
  - apply hears_refl.
  - unfold bind.
    destruct (fst (SendRequest n (snd (block serve w)))) as [[]|]; cbn [snd ret].
    + eapply hears_trans; [apply hears_block|].
      eapply hears_trans; [apply hears_SendRequest|apply IH].
    + eapply hears_trans; [apply hears_block|apply hears_SendRequest].
Qed.

Lemma dials_main_range turns : forall w,
  exists es,
    trace (snd (main_range turns w)) = trace w ++ es /\
    Forall (fun a => a = TraderAddr (mem w) \/
              heard (net w) (clock w) (clock (snd (main_range turns w))) a)
      (dialed es).
Proof.
  induction turns as [|n rest IH]; intros w.
  - exists []. cbn. rewrite app_nil_r. auto.
  - cbn [main_range]. unfold bind.
    pose proof (hears_block w) as Hb.
    destruct (dials_SendRequest n (snd (block serve w))) as (es & Ht & Hd).
    pose proof (hears_SendRequest n (snd (block serve w))) as Hs.
    destruct (updating_quiet (seller_blocked_arrivals w)) as (Hq & _).
    destruct (fst (SendRequest n (snd (block serve w)))) as [[]|]; cbn [snd ret].
    + destruct (IH (snd (SendRequest n (snd (block serve w))))) as (es' & Ht' & Hd').
      pose proof (hears_main_range rest (snd (SendRequest n (snd (block serve w))))) as Hr.
      exists (arrivals serve w ++ es ++ es').
      rewrite Ht', Ht, seller_blocked_trace. split; [trace_eq|].
      rewrite !dialed_app, Hq. cbn [app]. apply Forall_app. split.
      * revert Hd. apply Forall_impl. intros a Ha.
        apply (dials_widen Hb (hears_trans Hs Hr)).
        destruct Ha as [Ha|Ha]; [now left|right].
        revert Ha. apply heard_widen; [lia|apply Hr].
      * revert Hd'. apply Forall_impl. intros a.
        apply dials_widen; [exact (hears_trans Hb Hs)|exact Hr].
    + exists (arrivals serve w ++ es).
      rewrite Ht, seller_blocked_trace. split; [trace_eq|].
      rewrite dialed_app, Hq. cbn [app].
      revert Hd. apply Forall_impl. intros a. now apply dials_widen.
Qed.

(** X12. The Seller dials no address but the one it was started with and
    those that leader updates have named since: every address dialled while
    the ticker loop runs is [TraderAddr] as it was at the start, or was
    announced by an [UpdateLeader] that arrived meanwhile.  When no update
    arrives the Seller keeps dialling the Trader of its command line,
    however often that fails. *)
Theorem dials_only_announced_leaders (turns : list nat) (w : World Seller Incoming) :
  exists es,
    trace (snd (main_range turns w)) = trace w ++ es /\
    Forall (fun a => a = TraderAddr (mem w) \/
              heard (net w) (clock w) (clock (snd (main_range turns w))) a)
      (dialed es) /\
    ((forall n, incoming (net w n) = []) ->
     Forall (fun a => a = TraderAddr (mem w)) (dialed es)).
Proof.
  destruct (dials_main_range turns w) as (es & Ht & Hd).
  exists es. split; [exact Ht|]. split; [exact Hd|].
  intros Hnone. revert Hd. apply Forall_impl.
  intros a [Ha|(n & _ & Hin)]; [exact Ha|].
  rewrite Hnone in Hin. destruct Hin.
Qed.

(** *** The command line *)

(** X13. The Seller's [main] stops at [log.Fatal] exactly when [-id] or
    [-post] is 0 or [-address] or [-trader] is empty; otherwise the Seller
    it builds has the four flags as its ID, address, Trader and post, and a
    counter of 0, so that the first invocation of SendRequest by the ticker
    loop allocates the number 1, and every request it sends is the one for
    10 apples under the flags' ID and post that carries the number 1. *)
Theorem seller_main_usage (f : Flags) :
  (main f = None <->
   flag_id f = 0 \/ flag_address f = "" \/ flag_trader f = "" \/ flag_post f = 0) /\
  (forall s, main f = Some s ->
     s = mkSeller (flag_id f) (flag_address f) (flag_trader f) (flag_post f) 0 /\
     forall network n,
       allocations (trace (snd (main_range [n] (boot s network)))) = [1] /\
       numbers (trace (snd (main_range [n] (boot s network))))
       = repeat 1 (List.length (called (trace (snd (main_range [n] (boot s network)))))) /\
       Forall (fun c => snd c
                 = VRequest (Request.mk (flag_id f) (flag_post f) "apples" 10 1))
         (called (trace (snd (main_range [n] (boot s network))))) /\
       RequestID (mem (snd (main_range [n] (boot s network)))) = 1).
Proof.
  unfold main. rewrite <- Z.eqb_eq, <- !String.eqb_eq, <- (Z.eqb_eq (flag_post f)).
  rewrite <- !orb_true_iff, !orb_assoc.
  destruct (_ || _); split.
  - tauto.
  - discriminate.
  - split; [discriminate|intros H; discriminate].
  - intros s [= <-]. split; [reflexivity|]. intros network n.
    set (s := mkSeller (flag_id f) (flag_address f) (flag_trader f) (flag_post f) 0).
    assert (Hsame : snd (main_range [n] (boot s network))
                    = snd (SendRequest n (snd (block serve (boot s network))))).
    { cbn [main_range]. unfold bind.
      destruct (fst (SendRequest n (snd (block serve (boot s network))))); reflexivity. }
    rewrite Hsame.
    pose proof (seller_blocks (boot s network)) as B.
    set (w1 := snd (block serve (boot s network))) in *.
    destruct (SendRequest_numbers n w1) as (es & Ht & Ha & Hn & Hk & Hid).
    destruct (updating_quiet (b_quiet B)) as (_ & Hqc & _ & Hqw).
    destruct (b_mem B) as (Hi & _ & Hp & Hr).
    assert (Hal : allocated w1 = 1) by (unfold allocated; now rewrite Hr).
    assert (Hreq : request_of w1 = Request.mk (flag_id f) (flag_post f) "apples" 10 1).
    { unfold request_of. now rewrite Hal, Hi, Hp. }
    rewrite Hal in *. rewrite Hreq in Hk.
    rewrite Ht, (b_trace B). cbn [boot trace app].
    rewrite allocations_app, numbers_app, called_app.
    unfold allocations at 1, numbers at 1. rewrite Hqw, Hqc. cbn [app ints flat_map].
    auto.
Qed.

(** The Sellers of [run.sh], and a command line without flags. *)
Example seller_main_run_sh :
  main (mkFlags 1 "localhost:8003" "localhost:8001" 1) = Some seller1 /\
  main (mkFlags 2 "localhost:8004" "localhost:8002" 2)
    = Some (mkSeller 2 "localhost:8004" "localhost:8002" 2 0) /\
  main (mkFlags 0 "" "" 0) = None.
Proof. repeat split. Qed.

End SellerRunsFacts.

(** ** Facts about the two programs together *)

Module FailoverFacts.
Import Failover.

Lemma since_app St In (w w' : World St In) es : trace w' = trace w ++ es -> since w w' = es.
Proof.
  intros H. unfold since. rewrite H, skipn_app, skipn_all, Nat.sub_diag. reflexivity.
Qed.

Lemma deliveries_app addr es1 es2 :
  deliveries addr (es1 ++ es2) = deliveries addr es1 ++ deliveries addr es2.
Proof. apply flat_map_app. Qed.

Lemma deliveries_uncalled addr es : called es = [] -> deliveries addr es = [].
Proof.
  induction es as [|[g a] es IH]; [reflexivity|].
  destruct a; cbn; auto. discriminate.
Qed.

(** The calls of the notification loop all carry the new leader's address. *)
Lemma notifies_calls g id leader addrs es cs :
  TraderSpec.notifies g id leader addrs es cs ->
  Forall (fun e => forall c m v err, ev_act e = Call c m v err -> v = VString leader) es.
Proof.
  assert (Hserving : forall hs,
            Forall (fun e => TraderSpec.serving (ev_act e)) hs ->
            Forall (fun e => forall c m v err,
                      ev_act e = Call c m v err -> v = VString leader) hs).
  { intros hs. apply Forall_impl. intros e He c m v err Hc.
    rewrite Hc in He. destruct He. }
  induction 1; [constructor| | |];
    repeat first
      [ assumption
      | apply Forall_app; split; [now apply Hserving|]
      | constructor; [cbn; congruence|] ].
Qed.

Lemma deliveries_all addr leader es :
  Forall (fun e => forall c m v err, ev_act e = Call c m v err -> v = VString leader) es ->
  Forall (eq (Seller.InUpdateLeader leader)) (deliveries addr es).
Proof.
  induction 1 as [|[g a] es He _ IH]; [constructor|].
  destruct a as [| | | | |c m v err| | |]; try exact IH.
  cbn in He. specialize (He c m v err eq_refl). subst v.
  cbn. destruct err; [exact IH|].
  destruct (_ && _); [constructor; [reflexivity|exact IH]|exact IH].
Qed.

Lemma NotifySellers_deliveries leader addr (wt : World Trader.Trader Trader.Incoming) :
  Forall (eq (Seller.InUpdateLeader leader))
    (deliveries addr (since wt (snd (Trader.NotifySellers leader wt)))).
Proof.
  destruct (TraderFacts.NotifySellers_spec leader wt) as (es & cs & Ht & Hn & _).
  rewrite (@since_app _ _ _ _ _ Ht), deliveries_app.
  rewrite (@deliveries_uncalled addr _ (proj2 (proj2 (closes_quiet (cur wt) (rev cs))))).
  rewrite app_nil_r. eapply deliveries_all, notifies_calls, Hn.
Qed.

(** X14. Failover from end to end.  When the Seller that listens at
    [sellerAddr] is served what NotifySellers of a Trader has delivered to
    it, and that is a call at least, the Seller believes in the announced
    leader when its goroutine resumes, and the next attempt of its loop
    dials that leader, whichever request it is sending and whomever it
    believed in before. *)
Theorem notified_seller_follows_new_leader
    (newLeaderAddr sellerAddr : string)
    (wt : World Trader.Trader Trader.Incoming)
    (ws : World Seller.Seller Seller.Incoming) :
  incoming (net ws (clock ws)) =
    deliveries sellerAddr (since wt (snd (Trader.NotifySellers newLeaderAddr wt))) ->
  incoming (net ws (clock ws)) <> [] ->
  Seller.TraderAddr (mem (snd (block Seller.serve ws))) = newLeaderAddr /\
  forall req reqID,
    dialed (since (snd (block Seller.serve ws))
              (snd (Seller.SendRequest_turn req reqID (snd (block Seller.serve ws)))))
    = [newLeaderAddr].
Proof.
  intros Hin Hne.
  assert (Ha : Seller.TraderAddr (mem (snd (block Seller.serve ws))) = newLeaderAddr).
  { pose proof (NotifySellers_deliveries newLeaderAddr sellerAddr wt) as Hall.
    rewrite <- Hin in Hall.
    destruct (exists_last Hne) as (ups & a & Hl).
    rewrite Hl in Hall. apply Forall_app in Hall. destruct Hall as (_ & Hlast).
    inversion Hlast as [|? ? Heq _]; subst a.
    apply (SellerSpec.b_last (SellerFacts.seller_blocks ws) ups). exact Hl. }
  split; [exact Ha|].
  intros req reqID.
  destruct (SellerFacts.SendRequest_turn_spec req reqID (snd (block Seller.serve ws)))
    as (es & Ht & Hd & _).
  rewrite (@since_app _ _ _ _ _ Ht), Hd, Ha. reflexivity.
Qed.

(** Seller 1 is told of Trader 2 by Trader 2's notification, and dials it. *)
Lemma notified_seller_follows_new_leader_witness :
  let wt := Trader.boot TraderSpec.trader2 TraderSpec.quiet_network in
  let ws := Seller.boot SellerSpec.seller1
              (notified_by "localhost:8002" "localhost:8003" wt) in
  Seller.TraderAddr (mem (snd (block Seller.serve ws))) = "localhost:8002" /\
  forall req reqID,
    dialed (since (snd (block Seller.serve ws))
              (snd (Seller.SendRequest_turn req reqID (snd (block Seller.serve ws)))))
    = ["localhost:8002"].
Proof.
  cbv zeta.
  apply (@notified_seller_follows_new_leader "localhost:8002" "localhost:8003"
           (Trader.boot TraderSpec.trader2 TraderSpec.quiet_network)
           (Seller.boot SellerSpec.seller1
              (notified_by "localhost:8002" "localhost:8003"
                 (Trader.boot TraderSpec.trader2 TraderSpec.quiet_network)))).
  - reflexivity.
  - cbn. discriminate.
Defined.

(** X15. A request from end to end.  Whatever Trader serves the call, leader
    or not and whatever its post, what its ReceiveRequest answers is an
    acknowledgment for the Seller: when the connection and the call succeed
    and the reply is the Trader's, the attempt ends the loop of
    SendRequest. *)
Theorem request_round_trip
    (req : Request.t)
    (ws : World Seller.Seller Seller.Incoming)
    (wt : World Trader.Trader Trader.Incoming) :
  fail (net ws (clock ws)) (Seller.TraderAddr (mem ws)) = None ->
  fail (net ws (S (clock ws))) (Seller.TraderAddr (mem ws)) = None ->
  reply_response (net ws (S (clock ws))) (Seller.TraderAddr (mem ws)) req
    = fst (fst (Trader.ReceiveRequest req Response.zero wt)) ->
  SellerSpec.acknowledged req (Request.RequestID req) ws = true /\
  (exists c, fst (Seller.SendRequest_turn req (Request.RequestID req) ws) = inl c) /\
  forall turns defers,
    exists ds,
      fst (Seller.SendRequest_for (S turns) req (Request.RequestID req) defers ws) = Some ds.
Proof.
  intros Hdial Hcall Hreply.
  assert (Hack : SellerSpec.acknowledged req (Request.RequestID req) ws = true).
  { unfold SellerSpec.acknowledged. rewrite Hdial, Hcall. cbv zeta. rewrite Hreply.
    cbn. apply Z.eqb_refl. }
  split; [exact Hack|].
  destruct (SellerFacts.SendRequest_turn_spec req (Request.RequestID req) ws)
    as (es & _ & _ & _ & _ & _ & Hr & _).
  rewrite Hack in Hr. split; [exact Hr|].
  intros turns defers. rewrite SellerFacts.SendRequest_for_step.
  destruct Hr as [c ->]. eexists; reflexivity.
Qed.

(** Seller 1 sends its first request to Trader 2, which is no leader and
    serves another post. *)
Lemma request_round_trip_witness :
  let wt := Trader.boot TraderSpec.trader2 TraderSpec.quiet_network in
  let ws := Seller.boot SellerSpec.seller1 (answered_by wt) in
  SellerSpec.acknowledged TraderSpec.apples 1 ws = true /\
  (exists c, fst (Seller.SendRequest_turn TraderSpec.apples 1 ws) = inl c) /\
  forall turns defers,
    exists ds, fst (Seller.SendRequest_for (S turns) TraderSpec.apples 1 defers ws) = Some ds.
Proof.
  cbv zeta.
  apply (@request_round_trip TraderSpec.apples
           (Seller.boot SellerSpec.seller1
              (answered_by (Trader.boot TraderSpec.trader2 TraderSpec.quiet_network)))
           (Trader.boot TraderSpec.trader2 TraderSpec.quiet_network));
    reflexivity.
Defined.

End FailoverFacts.

(** ** Facts about mutual exclusion throughout a run *)

Module LockingRunsFacts.
Import Locking LockingRuns.

Lemma locks_after_app es1 : forall held es2,
  locks_after held (es1 ++ es2) = locks_after (locks_after held es1) es2.
Proof.
  induction es1 as [|[g a] es1 IH]; intros held es2; [reflexivity|].
  destruct a; cbn; apply IH.
Qed.

Lemma unguarded_app es1 : forall held es2,
  unguarded held (es1 ++ es2) =
  unguarded held es1 ++ unguarded (locks_after held es1) es2.
Proof.
  induction es1 as [|[g a] es1 IH]; intros held es2; [reflexivity|].
  destruct a; cbn; try apply IH;
    destruct (holds g held); cbn; now rewrite IH.
Qed.

Lemma disciplined_app m f es1 : forall held es2,
  disciplined m f held (es1 ++ es2) <->
  disciplined m f held es1 /\ disciplined m f (locks_after held es1) es2.
Proof.
  induction es1 as [|[g a] es1 IH]; intros held es2; [cbn; tauto|].
  destruct a; cbn; rewrite IH; tauto.
Qed.

Lemma mutex_eqb_refl m : mutex_eqb m m = true.
Proof. now destruct m. Qed.

Section Keeping.

Variables (m : Mutex) (f : Field) (U : Event -> Prop).

Lemma guards_nil : keeps m f U [].
Proof. split; [reflexivity|]. split; [exact Logic.I|constructor]. Qed.

Lemma guards_app es1 es2 : keeps m f U es1 -> keeps m f U es2 -> keeps m f U (es1 ++ es2).
Proof.
  intros (Hl & Hd & Hu) (Hl' & Hd' & Hu'). split; [|split].
  - now rewrite locks_after_app, Hl.
  - apply disciplined_app. rewrite Hl. auto.
  - rewrite unguarded_app, Hl. now apply Forall_app.
Qed.

Lemma guards_idle g a : idle a -> keeps m f U [mkEvent g a].
Proof.
  destruct a; cbn; try tauto; intros _;
    (split; [reflexivity|]; split; [exact Logic.I|constructor]).
Qed.

Lemma guards_access g a : beside f a -> U (mkEvent g a) -> keeps m f U [mkEvent g a].
Proof.
  destruct a; cbn; try tauto; intros Hf Hu;
    (split; [reflexivity|]; split;
     [split; [rewrite Hf; discriminate|exact Logic.I]|repeat constructor; exact Hu]).
Qed.

(** The accesses that one goroutine makes between taking a free mutex and
    releasing it are made while it holds that mutex. *)
Lemma guards_section g (aes : list Action) :
  Forall (fun a => match a with Read _ _ | Write _ _ => True | _ => False end) aes ->
  keeps m f U (mkEvent g (Lock m) :: map (mkEvent g) aes ++ [mkEvent g (Unlock m)]).
Proof.
  intros H.
  assert (Hh : holds g [(g, m)] = true).
  { cbn. now rewrite LockingFacts.goroutine_eqb_refl. }
  assert (Hm : holds_mutex g m [(g, m)] = true).
  { cbn. now rewrite LockingFacts.goroutine_eqb_refl, mutex_eqb_refl. }
  assert (Hr : release g m [(g, m)] = []).
  { cbn. now rewrite LockingFacts.goroutine_eqb_refl, mutex_eqb_refl. }
  split; [|split]; cbn [locks_after disciplined unguarded ev_act ev_go].
  - induction H as [|a aes Ha _ IH]; cbn [locks_after map app ev_act ev_go]; [exact Hr|].
    destruct a; try contradiction; exact IH.
  - split; [reflexivity|].
    induction H as [|a aes Ha _ IH]; cbn [disciplined map app ev_act ev_go];
      [split; [exact Hm|exact Logic.I]|].
    destruct a; try contradiction; (split; [intros _; exact Hm|exact IH]).
  - induction H as [|a aes Ha _ IH]; cbn [unguarded map app ev_act ev_go];
      [constructor|].
    destruct a; try contradiction; rewrite Hh; exact IH.
Qed.

End Keeping.

Section SellerLocks.
Import Seller SellerSpec SellerFacts.

#[local] Arguments SendRequest_turn : simpl never.
#[local] Arguments SendRequest_for : simpl never.
#[local] Arguments SendRequest : simpl never.

Let T := keeps RequestLock FRequestID (accesses FTraderAddr).

Ltac idle := intros; apply guards_idle; exact Logic.I.

Ltac locks :=
  repeat first
    [ match goal with
      | |- traces _ (bind _ _) => apply traces_bind; [apply guards_app| |intros ?]
      | |- traces _ (ret _) => apply traces_ret, guards_nil
      | |- traces _ get_mem => apply traces_get_mem, guards_nil
      | |- traces _ (put_mem _) => apply traces_put_mem, guards_nil
      | |- traces _ (logPrintf _) => apply traces_emit; idle
      | |- traces _ (emit _) => apply traces_emit
      | |- traces _ (match ?r with inl _ => _ | inr _ => _ end) => destruct r
      | |- traces _ (if ?b then _ else _) => destruct b
      end ].

Lemma locks_readTraderAddr : traces T readTraderAddr.
Proof.
  unfold readTraderAddr. locks. intros g. apply guards_access; reflexivity.
Qed.

Lemma locks_writeTraderAddr a : traces T (writeTraderAddr a).
Proof.
  unfold writeTraderAddr. locks. intros g. apply guards_access; reflexivity.
Qed.

Lemma locks_getID : traces T getID.
Proof. unfold getID. locks. Qed.

Lemma locks_serve i : traces T (serve i).
Proof.
  destruct i as [a]; cbn [serve]. unfold UpdateLeader.
  apply traces_bind; [apply guards_app| |intros _; apply traces_ret, guards_nil].
  apply traces_bind; [apply guards_app|apply locks_getID|intros id].
  apply traces_bind; [apply guards_app|apply traces_emit; idle|intros _].
  apply traces_bind; [apply guards_app|apply locks_writeTraderAddr|intros _].
  apply traces_ret, guards_nil.
Qed.

Lemma locks_block : traces T (block serve).
Proof. apply traces_block; [apply guards_nil|apply guards_app|apply locks_serve]. Qed.

Lemma locks_timeSleep d : traces T (timeSleep serve d).
Proof.
  apply traces_timeSleep; [apply guards_nil|apply guards_app|apply locks_serve|idle].
Qed.

Lemma locks_turn req reqID : traces T (SendRequest_turn req reqID).
Proof.
  unfold SendRequest_turn.
  apply traces_bind; [apply guards_app|apply locks_readTraderAddr|intros addr].
  apply traces_bind; [apply guards_app| |intros r].
  { apply traces_rpcDial; [apply guards_nil|apply guards_app|apply locks_serve|idle]. }
  destruct r as [err|c].
  - apply traces_bind; [apply guards_app|apply locks_getID|intros id].
    apply traces_bind; [apply guards_app|apply locks_readTraderAddr|intros addr'].
    apply traces_bind; [apply guards_app|apply traces_emit; idle|intros _].
    apply traces_bind; [apply guards_app|apply locks_timeSleep|intros _].
    apply traces_ret, guards_nil.
  - apply traces_bind; [apply guards_app| |intros r'].
    { apply traces_rpcCall; [apply guards_nil|apply guards_app|apply locks_serve|idle]. }
    destruct r' as [err|t].
    + apply traces_bind; [apply guards_app|apply locks_getID|intros id].
      apply traces_bind; [apply guards_app|apply traces_emit; idle|intros _].
      apply traces_bind; [apply guards_app|apply locks_timeSleep|intros _].
      apply traces_ret, guards_nil.
    + cbv zeta. destruct (Response.Processed _ && _).
      * apply traces_bind; [apply guards_app|apply locks_getID|intros id].
        apply traces_bind; [apply guards_app|apply traces_emit; idle|intros _].
        apply traces_ret, guards_nil.
      * apply traces_bind; [apply guards_app|apply locks_getID|intros id].
        apply traces_bind; [apply guards_app|apply traces_emit; idle|intros _].
        apply traces_bind; [apply guards_app|apply locks_timeSleep|intros _].
        apply traces_ret, guards_nil.
Qed.

Lemma locks_for req reqID turns : forall defers,
  traces T (SendRequest_for turns req reqID defers).
Proof.
  induction turns as [|n IH]; intros defers.
  - unfold SendRequest_for. apply traces_ret, guards_nil.
  - unfold SendRequest_for; fold SendRequest_for.
    apply traces_bind; [apply guards_app|apply locks_turn|intros [c|c]].
    + apply traces_ret, guards_nil.
    + apply IH.
Qed.

Lemma locks_SendRequest turns : traces T (SendRequest turns).
Proof.
  intros w. rewrite SendRequest_eq.
  destruct (locks_for (request_of w) (allocated w) turns [] (prepared w)) as (es & Ht & He).
  destruct (prepared_facts w) as (Hp & _).
  assert (Hprep : T [mkEvent (cur w) (Lock RequestLock);
                     mkEvent (cur w) (Read FRequestID (VInt (RequestID (mem w))));
                     mkEvent (cur w) (Write FRequestID (VInt (allocated w)));
                     mkEvent (cur w) (Read FRequestID (VInt (allocated w)));
                     mkEvent (cur w) (Unlock RequestLock)]).
  { apply (@guards_section RequestLock FRequestID (accesses FTraderAddr) (cur w)
             [Read FRequestID (VInt (RequestID (mem w)));
              Write FRequestID (VInt (allocated w));
              Read FRequestID (VInt (allocated w))]).
    repeat constructor. }
  rewrite Hp in Ht.
  destruct (fst (SendRequest_for _ _ _ _ _)) as [ds|]; cbn [snd].
  - destruct (@traces_run_defers Seller Incoming T (guards_nil _ _ _) (@guards_app _ _ _) ds
                (fun g c => @guards_idle _ _ _ g (Close c) Logic.I)
                (snd (SendRequest_for turns (request_of w) (allocated w) [] (prepared w))))
      as (es' & Ht' & He').
    eexists. rewrite Ht', Ht, <- !app_assoc. split; [reflexivity|].
    apply guards_app; [exact Hprep|]. now apply guards_app.
  - eexists. rewrite Ht, <- app_assoc. split; [reflexivity|].
    now apply guards_app.
Qed.

Lemma locks_main_range turns : traces T (main_range turns).
Proof.
  induction turns as [|n rest IH]; cbn [main_range].
  - apply traces_ret, guards_nil.
  - apply traces_bind; [apply guards_app|apply locks_block|intros _].
    apply traces_bind; [apply guards_app|apply locks_SendRequest|intros [[]|]].
    + exact IH.
    + apply traces_ret, guards_nil.
Qed.

End SellerLocks.

(** X17. Throughout the run of the Seller's process, with whatever leader
    updates are served meanwhile, every read and every write of RequestID
    is made by a goroutine that holds RequestLock at that moment;
    RequestLock is taken only while no goroutine holds it, and released by
    the goroutine that took it before the run ends.  The accesses made
    while no mutex is held are those of TraderAddr. *)
Theorem RequestID_guarded_throughout (turns : list nat)
    (w : World Seller.Seller Seller.Incoming) :
  exists es,
    trace (snd (Seller.main_range turns w)) = trace w ++ es /\
    disciplined RequestLock FRequestID [] es /\
    locks_after [] es = [] /\
    Forall (accesses FTraderAddr) (unguarded [] es).
Proof.
  destruct (locks_main_range turns w) as (es & Ht & Hl & Hd & Hu).
  exists es. auto.
Qed.

(** Seller 1 sends its first request: the three accesses to RequestID are
    made inside RequestLock. *)
Example RequestID_inside_RequestLock :
  map ev_act
    (firstn 5 (trace (snd (Seller.main_range [1%nat]
                             (Seller.boot SellerSpec.seller1 SellerSpec.acking))))) =
  [Lock RequestLock; Read FRequestID (VInt 0); Write FRequestID (VInt 1);
   Read FRequestID (VInt 1); Unlock RequestLock].
Proof. reflexivity. Qed.

Section TraderLocks.
Import Trader TraderSpec TraderFacts.

#[local] Arguments NotifySellers : simpl never.
#[local] Arguments TakeOverLeadership : simpl never.

Let T := keeps HeartbeatMu FHeartbeat (assigns FIsLeader).

Ltac idle := intros; apply guards_idle; exact Logic.I.

Lemma guarded_getID : traces T getID.
Proof.
  unfold getID. apply traces_bind; [apply guards_app|apply traces_get_mem, guards_nil|].
  intros t. apply traces_ret, guards_nil.
Qed.

Lemma guarded_getAddress : traces T getAddress.
Proof.
  unfold getAddress. apply traces_bind; [apply guards_app|apply traces_get_mem, guards_nil|].
  intros t. apply traces_ret, guards_nil.
Qed.

Lemma guarded_getPeer : traces T getPeer.
Proof.
  unfold getPeer. apply traces_bind; [apply guards_app|apply traces_get_mem, guards_nil|].
  intros t. apply traces_ret, guards_nil.
Qed.

Lemma guarded_log msg : traces T (logPrintf (St:=Trader) (In:=Incoming) msg).
Proof. apply traces_emit. idle. Qed.

Lemma guarded_ReceiveHeartbeat req : traces T (ReceiveHeartbeat req).
Proof.
  intros w. unfold ReceiveHeartbeat. run.
  eexists. split; [rewrite <- !app_assoc; reflexivity|].
  cbn [app].
  apply (@guards_app HeartbeatMu FHeartbeat (assigns FIsLeader)
           [mkEvent (cur w) (Lock HeartbeatMu);
            mkEvent (cur w) (Write FHeartbeat (VBool true));
            mkEvent (cur w) (Unlock HeartbeatMu)] [_]).
  - apply (@guards_section HeartbeatMu FHeartbeat (assigns FIsLeader) (cur w)
             [Write FHeartbeat (VBool true)]).
    repeat constructor.
  - apply guards_idle. exact Logic.I.
Qed.

Lemma guarded_ReceiveRequest req res : traces T (ReceiveRequest req res).
Proof.
  unfold ReceiveRequest.
  apply traces_bind; [apply guards_app|apply guarded_getID|intros id].
  apply traces_bind; [apply guards_app|apply guarded_log|intros _].
  apply traces_bind; [apply guards_app|apply traces_emit; idle|intros _].
  apply traces_ret, guards_nil.
Qed.

Lemma guarded_serve i : traces T (serve i).
Proof.
  destruct i as [req|req]; cbn [serve];
    (apply traces_bind; [apply guards_app| |intros _; apply traces_ret, guards_nil]).
  - apply guarded_ReceiveHeartbeat.
  - apply guarded_ReceiveRequest.
Qed.

Lemma guarded_block : traces T (block serve).
Proof. apply traces_block; [apply guards_nil|apply guards_app|apply guarded_serve]. Qed.

Lemma guarded_rpcDial addr : traces T (rpcDial serve addr).
Proof.
  apply traces_rpcDial; [apply guards_nil|apply guards_app|apply guarded_serve|idle].
Qed.

Lemma guarded_rpcCall c m v : traces T (rpcCall serve c m v).
Proof.
  apply traces_rpcCall; [apply guards_nil|apply guards_app|apply guarded_serve|idle].
Qed.

Lemma guarded_run_defers ds : traces T (run_defers (St:=Trader) (In:=Incoming) ds).
Proof. apply traces_run_defers; [apply guards_nil|apply guards_app|idle]. Qed.

Lemma guarded_range leader addrs : forall defers,
  traces T (NotifySellers_range leader addrs defers).
Proof.
  induction addrs as [|addr rest IH]; intros defers;
    (unfold NotifySellers_range; fold NotifySellers_range).
  - apply traces_ret, guards_nil.
  - apply traces_bind; [apply guards_app|apply guarded_rpcDial|intros [err|c]].
    + apply traces_bind; [apply guards_app|apply guarded_getID|intros id].
      apply traces_bind; [apply guards_app|apply guarded_log|intros _]. apply IH.
    + apply traces_bind; [apply guards_app|apply guarded_rpcCall|intros [err|t]];
        (apply traces_bind; [apply guards_app|apply guarded_getID|intros id];
         apply traces_bind; [apply guards_app|apply guarded_log|intros _]; apply IH).
Qed.

Lemma guarded_notify leader : traces T (NotifySellers leader).
Proof.
  unfold NotifySellers.
  apply traces_bind; [apply guards_app|apply guarded_range|intros ds].
  apply guarded_run_defers.
Qed.

Lemma guarded_takeover : traces T TakeOverLeadership.
Proof.
  unfold TakeOverLeadership.
  apply traces_bind; [apply guards_app| |intros _].
  { unfold setIsLeader.
    apply traces_bind; [apply guards_app|apply traces_get_mem, guards_nil|intros t].
    apply traces_bind; [apply guards_app|apply traces_put_mem, guards_nil|intros _].
    apply traces_emit. intros g. apply guards_access; reflexivity. }
  apply traces_bind; [apply guards_app|apply guarded_getID|intros id].
  apply traces_bind; [apply guards_app|apply guarded_log|intros _].
  apply traces_bind; [apply guards_app|apply guarded_getAddress|intros a].
  apply guarded_notify.
Qed.

Lemma guarded_SendHeartbeat : traces T SendHeartbeat.
Proof.
  unfold SendHeartbeat.
  apply traces_bind; [apply guards_app|apply guarded_getPeer|intros peer].
  apply traces_bind; [apply guards_app|apply guarded_rpcDial|intros [err|c]].
  - apply traces_bind; [apply guards_app|apply guarded_getID|intros id].
    apply traces_bind; [apply guards_app|apply guarded_getPeer|intros peer'].
    apply traces_bind; [apply guards_app|apply guarded_log|intros _].
    apply guarded_takeover.
  - apply traces_bind; [apply guards_app|apply guarded_getID|intros id].
    apply traces_bind; [apply guards_app|apply guarded_rpcCall|intros [err|t]].
    + apply traces_bind; [apply guards_app|apply guarded_getID|intros id'].
      apply traces_bind; [apply guards_app|apply guarded_log|intros _].
      apply traces_bind; [apply guards_app|apply guarded_takeover|intros _].
      apply guarded_run_defers.
    + apply traces_bind; [apply guards_app|apply guarded_getID|intros id'].
      apply traces_bind; [apply guards_app|apply guarded_getPeer|intros peer'].
      apply traces_bind; [apply guards_app|apply guarded_log|intros _].
      apply guarded_run_defers.
Qed.

Lemma guarded_StartHeartbeat ticks : traces T (StartHeartbeat ticks).
Proof.
  induction ticks as [|n IH]; cbn [StartHeartbeat].
  - apply traces_ret, guards_nil.
  - apply traces_bind; [apply guards_app|apply guarded_block|intros _].
    apply traces_bind; [apply guards_app|apply guarded_SendHeartbeat|intros _].
    exact IH.
Qed.

End TraderLocks.

(** X18. Throughout the run of the Trader's process, with whatever calls
    are served meanwhile, every write of Heartbeat is made by a goroutine
    that holds HeartbeatMu at that moment; HeartbeatMu is taken only while
    no goroutine holds it, and released by the goroutine that took it before
    the run ends.  The accesses made while no mutex is held are the
    assignments of IsLeader. *)
Theorem Heartbeat_guarded_throughout (ticks : nat)
    (w : World Trader.Trader Trader.Incoming) :
  exists es,
    trace (snd (Trader.StartHeartbeat ticks w)) = trace w ++ es /\
    disciplined HeartbeatMu FHeartbeat [] es /\
    locks_after [] es = [] /\
    Forall (assigns FIsLeader) (unguarded [] es).
Proof.
  destruct (guarded_StartHeartbeat ticks w) as (es & Ht & Hl & Hd & Hu).
  exists es. auto.
Qed.

(** What the discipline rules out: an access under another mutex, an access
    by a goroutine other than the holder, and a mutex taken twice. *)
Example discipline_rules_out :
  ~ disciplined RequestLock FRequestID []
      [mkEvent GMain (Lock HeartbeatMu); mkEvent GMain (Write FRequestID (VInt 1));
       mkEvent GMain (Unlock HeartbeatMu)] /\
  ~ disciplined RequestLock FRequestID []
      [mkEvent GMain (Lock RequestLock);
       mkEvent (GServe 0 0) (Write FRequestID (VInt 1));
       mkEvent GMain (Unlock RequestLock)] /\
  ~ disciplined RequestLock FRequestID []
      [mkEvent GMain (Lock RequestLock); mkEvent (GServe 0 0) (Lock RequestLock);
       mkEvent (GServe 0 0) (Unlock RequestLock); mkEvent GMain (Unlock RequestLock)].
Proof.
  repeat split; cbn; intros H; decompose [and] H; try discriminate;
    match goal with
    | H0 : true = true -> false = true |- _ => specialize (H0 eq_refl); discriminate
    end.
Qed.

End LockingRunsFacts.
